(** * order-up: the order event generator and the edge-case injector

    A shallow embedding of [producer-python/event_generator.py],
    [producer-python/edge_case_injector.py] and the pattern catalogue of
    [producer-python/config.py], with the properties of the
    specification stated and proved over it.

    Modelling conventions.
    - Python's lists are Rocq lists, its dicts keyed by strings are
      stdpp's [gmap string].
    - Every source of randomness is an explicit value threaded through
      the code by a state monad.  The process has three of them: the
      state of the [random] module (seeded by [random.seed]), the
      generator of [Faker] (seeded by [Faker.seed]) and the entropy of
      the operating system that [uuid.uuid4] reads (seeded by nothing).
    - A naive [datetime] is a number of microseconds on the wall
      clock; [datetime.timestamp()] reads it in the time zone of the
      process, a parameter of the development, and computes in
      binary64 floats as the library does.
    - A price is a number of cents.  Probabilities and weights are
      rationals, [random.random()] is a multiple of 2^-53, and
      arithmetic on them is exact.
    - The functions of [random], [uuid] and [Faker] are written out
      from their library sources, with one raw draw per call; the
      rejection loop of [_randbelow] is a reduction modulo its bound.
    - The exceptions that the code can raise ([ValueError] for an
      unknown event type, [KeyError], [IndexError], an empty
      [randint] range) are not reachable from the two entry points and
      have no counterpart here.
    - [print] calls are not modelled. *)

From Stdlib Require Import ZArith QArith Qround Qabs Qpower Lqa Ascii String.
From stdpp Require Import base gmap strings list sorting fin_maps.

Close Scope Q_scope.
Open Scope Z_scope.

(** ** A state monad *)

Definition State (S A : Type) : Type := S -> A * S.

Definition ret {S A : Type} (a : A) : State S A := fun s => (a, s).

Definition bind {S A B : Type} (m : State S A) (f : A -> State S B) : State S B :=
  fun s => let (a, s') := m s in f a s'.

Notation "x <- m ;; k" := (bind m (fun x => k))
  (at level 100, m at next level, right associativity).

Definition run {S A : Type} (m : State S A) (s : S) : A := fst (m s).
Definition exec {S A : Type} (m : State S A) (s : S) : S := snd (m s).

(** ** The random source

    A pseudo-random generator is an infinite sequence of raw draws and
    a cursor into it.  Each library call below consumes one raw draw. *)

Record Tape : Type := { cells : nat -> N; cursor : nat }.

Definition tape_of (l : list N) : Tape :=
  {| cells := fun i => nth i l 0%N; cursor := 0 |}.

Definition draw : State Tape N :=
  fun t => (cells t (cursor t), {| cells := cells t; cursor := S (cursor t) |}).

Module PyRandom.

(** [random.random()]: a multiple of 2^-53 in the interval [0, 1). *)
Definition random : State Tape Q :=
  k <- draw ;; ret (Qmake (Z.of_N (k mod 2 ^ 53)) (2 ^ 53)).

(** [random._randbelow(n)]: an integer in [0, n).  Every call site has
    [0 < n]. *)
Definition randbelow (n : N) : State Tape N :=
  k <- draw ;; ret (if (n =? 0)%N then 0%N else (k mod n)%N).

(** [random.randint(a, b)] is [a + _randbelow(b - a + 1)]. *)
Definition randint (a b : Z) : State Tape Z :=
  j <- randbelow (Z.to_N (b - a + 1)) ;; ret (a + Z.of_N j).

(** [random.uniform(a, b)] is [a + (b - a) * random()]. *)
Definition uniform (a b : Q) : State Tape Q :=
  r <- random ;; ret (a + (b - a) * r)%Q.

(** [random.choice(seq)] is [seq[_randbelow(len(seq))]]; [d] stands for
    the [IndexError] of an empty sequence, which no call site reaches. *)
Definition choice {A : Type} (d : A) (seq : list A) : State Tape A :=
  j <- randbelow (N.of_nat (length seq)) ;; ret (nth (N.to_nat j) seq d).

(** [x[i], x[j] = x[j], x[i]] *)
Definition swap {A : Type} (x : list A) (i j : nat) : list A :=
  match x !! i, x !! j with
  | Some xi, Some xj => <[j := xi]> (<[i := xj]> x)
  | _, _ => x
  end.

(** The loop of [random.shuffle]:
    [for i in reversed(range(1, len(x))): j = randbelow(i + 1); swap]. *)
Fixpoint shuffle_loop {A : Type} (i : nat) (x : list A) : State Tape (list A) :=
  match i with
  | O => ret x
  | S i' =>
      j <- randbelow (N.of_nat (S i)) ;;
      shuffle_loop i' (swap x i (N.to_nat j))
  end.

Definition shuffle {A : Type} (x : list A) : State Tape (list A) :=
  shuffle_loop (length x - 1) x.

(** [bisect.bisect_right(a, x, 0, hi)] on a sorted list of rationals,
    counted from index [lo]. *)
Fixpoint bisect (a : list Q) (x : Q) (lo hi : nat) : nat :=
  match a, hi with
  | c :: a', S hi' => if Qle_bool c x then bisect a' x (S lo) hi' else lo
  | _, _ => lo
  end.

Fixpoint accumulate (acc : Q) (ws : list Q) : list Q :=
  match ws with
  | [] => []
  | w :: ws' => (acc + w)%Q :: accumulate (acc + w)%Q ws'
  end.

(** [random.choices(population, weights=weights, k=1)[0]] *)
Definition choices {A : Type} (d : A) (population : list A) (weights : list Q)
  : State Tape A :=
  let cum_weights := accumulate 0%Q weights in
  let total := List.last cum_weights 0%Q in
  r <- random ;;
  ret (nth (bisect cum_weights (r * total)%Q 0 (length population - 1))
           population d).

End PyRandom.

(** The tape after one call, and what each call returns on a tape *)
Definition next (t : Tape) : Tape := exec draw t.
Definition random_val (t : Tape) : Q := run PyRandom.random t.
Definition randbelow_val (n : N) (t : Tape) : N := run (PyRandom.randbelow n) t.
Definition randint_val (a b : Z) (t : Tape) : Z := run (PyRandom.randint a b) t.

(** [a < b] on rationals, as a boolean *)
Definition Qltb (a b : Q) : bool := negb (Qle_bool b a).

(** ** The data model *)

(** The event types of [config.ORDER_PATTERNS]; the [else: raise
    ValueError] branch of [_create_payload] has no value of this type
    to reach it. *)
Inductive EventType : Type :=
  | ORDER_CREATED
  | ORDER_ITEM_ADDED
  | ORDER_ITEM_REMOVED
  | ORDER_UPDATED
  | ORDER_CONFIRMED
  | ORDER_CANCELLED
  | ORDER_COMPLETED.

Inductive Status : Type := PENDING | CONFIRMED | CANCELLED | COMPLETED.

(** An entry of the item ledger; [price] is in cents. *)
Record Item : Type := {
  item_id : string;
  item_name : string;
  quantity : Z;
  price : Z
}.

(** The payload union, one constructor per Avro payload record.
    Timestamps are in milliseconds, [total_amount] is in cents. *)
Inductive Payload : Type :=
  | OrderCreatedPayload (customer_id restaurant_id : string) (initial_status : Status)
  | OrderUpdatedPayload (old_status new_status : Status)
  | OrderItemAddedPayload (item : Item)
  | OrderItemRemovedPayload (removed_item_id : string)
  | OrderConfirmedPayload (confirmed_by : string) (estimated_delivery_ts : Z)
  | OrderCancelledPayload (cancelled_by : string) (reason : option string)
  | OrderCompletedPayload (completed_ts : Z) (total_amount : Z).

Record Event : Type := {
  event_id : string;
  event_type : EventType;
  event_ts : Z;
  order_id : string;
  payload : Payload;
  schema_version : Z
}.

#[global] Instance EventType_eq_dec : EqDecision EventType.
Proof. solve_decision. Defined.
#[global] Instance Status_eq_dec : EqDecision Status.
Proof. solve_decision. Defined.
#[global] Instance Item_eq_dec : EqDecision Item.
Proof. solve_decision. Defined.
#[global] Instance Payload_eq_dec : EqDecision Payload.
Proof. solve_decision. Defined.
#[global] Instance Event_eq_dec : EqDecision Event.
Proof. solve_decision. Defined.

(** ** The edge-case injector ([edge_case_injector.py]) *)

Record EdgeCaseInjector : Type := {
  duplicate_probability : Q;
  out_of_order_probability : Q;
  late_arrival_probability : Q
}.

(** [copy.deepcopy] of an immutable value *)
Definition deepcopy {A : Type} (a : A) : A := a.

(** [seq[start:stop]] for [0 <= start <= stop] *)
Definition slice {A : Type} (seq : list A) (start stop : nat) : list A :=
  take (stop - start) (drop start seq).

(** [seq[start:stop] = section] for [0 <= start <= stop <= len(seq)] *)
Definition slice_assign {A : Type} (seq : list A) (start stop : nat)
    (section : list A) : list A :=
  take start seq ++ section ++ drop stop seq.

Section Injector.

Variable self : EdgeCaseInjector.

(** Steps 1 and 2 of the loop body, for the event at index [i] *)
Definition per_event_step (i : nat) (event : Event)
    (acc : list Event * list Event) : State Tape (list Event * list Event) :=
  let (main_events, late_arrivals) := acc in
  r1 <- PyRandom.random ;;
  let main_events :=
    if Qltb r1 (duplicate_probability self)
    then (main_events ++ [deepcopy event]) ++ [deepcopy event]
    else main_events ++ [event] in
  r2 <- PyRandom.random ;;
  let late_arrivals :=
    if Qltb r2 (late_arrival_probability self) && (0 <? i)%nat
    then late_arrivals ++ [deepcopy event]
    else late_arrivals in
  ret (main_events, late_arrivals).

(** [while i < len(events): ...; i += 1], on the events from index [i] on *)
Fixpoint per_event_loop (i : nat) (rest : list Event)
    (acc : list Event * list Event) : State Tape (list Event * list Event) :=
  match rest with
  | [] => ret acc
  | event :: rest' =>
      acc' <- per_event_step i event acc ;;
      per_event_loop (S i) rest' acc'
  end.

(** Step 3, the out-of-order block after the loop *)
Definition out_of_order (main_events : list Event) : State Tape (list Event) :=
  r <- PyRandom.random ;;
  if Qltb r (out_of_order_probability self) && (2 <? length main_events)%nat
  then
    shuffle_size <- PyRandom.randint 2 (Z.min 5 (Z.of_nat (length main_events))) ;;
    shuffle_start <-
      PyRandom.randint 0 (Z.of_nat (length main_events) - shuffle_size) ;;
    let shuffle_end := shuffle_start + shuffle_size in
    let shuffled_section :=
      slice main_events (Z.to_nat shuffle_start) (Z.to_nat shuffle_end) in
    shuffled_section <- PyRandom.shuffle shuffled_section ;;
    ret (slice_assign main_events (Z.to_nat shuffle_start) (Z.to_nat shuffle_end)
           shuffled_section)
  else ret main_events.

Definition inject_edge_cases (events : list Event)
  : State Tape (list Event * list Event) :=
  acc <- per_event_loop 0 events ([], []) ;;
  let (main_events, late_arrivals) := acc in
  main_events <- out_of_order main_events ;;
  ret (main_events, late_arrivals).

End Injector.

(** ** Library functions used by the generator *)

(** [round(x)] of Python: to the nearest integer, ties to even *)
Definition round_half_even (q : Q) : Z :=
  let f := Qfloor q in
  match Qcompare (q - inject_Z f) (Qmake 1 2) with
  | Lt => f
  | Gt => f + 1
  | Eq => if Z.even f then f else f + 1
  end.

(** [round(x, 2)], in cents *)
Definition round2 (q : Q) : Z := round_half_even (q * inject_Z 100).

(** [timedelta(seconds=q)], in microseconds *)
Definition timedelta_seconds (q : Q) : Z := round_half_even (q * inject_Z 1000000).

(** [timedelta(minutes=m)], in microseconds *)
Definition timedelta_minutes (m : Z) : Z := m * 60000000.

(** *** Floats

    A Python [float] is a binary64 number, held here as the rational
    that it is.  The result of an arithmetic operation is the exact
    result rounded to the nearest binary64 number, ties to the even
    significand; the values below stay far from overflow and from the
    subnormal numbers. *)

(** The exponent [e] with [2^e <= |q| < 2^(e+1)], for [q] other than 0 *)
Definition Qlog2 (q : Q) : Z :=
  let e := Z.log2 (Z.abs (Qnum q)) - Z.log2 (Z.pos (Qden q)) in
  if Qle_bool (Qpower (inject_Z 2) e) (Qabs q) then e else e - 1.

(** The binary64 number nearest to [q]: a multiple of [2^(e-52)], with
    a significand of 53 bits *)
Definition float_of_Q (q : Q) : Q :=
  if Qeq_bool q (inject_Z 0) then inject_Z 0
  else
    let quantum := Qpower (inject_Z 2) (Qlog2 q - 52) in
    Qred (inject_Z (round_half_even (q / quantum)) * quantum).

(** [int(x)]: truncation towards zero *)
Definition int_of_float (x : Q) : Z := Z.quot (Qnum x) (Z.pos (Qden x)).

(** The relative error of one rounding, [2^-53] *)
Definition float_eps : Q := Qmake 1 9007199254740992.

(** *** Naive datetimes

    The generator and the producer use naive datetimes: fields of a
    wall clock, without a time zone.  Such a value is held as the
    count of microseconds on that wall clock since its
    1970-01-01T00:00:00; adding a [timedelta] adds microseconds and
    does not look at the time zone.

    [dt.timestamp()] reads a naive [dt] in the time zone of the
    process.  The zone is what the platform's [localtime] does:
    [localtime u] is the wall-clock second shown at the UTC second
    [u] (both counted from 1970-01-01T00:00:00). *)
Class LocalTime : Type := localtime : Z -> Z.

Definition max_fold_seconds : Z := 24 * 3600.

(** [datetime._mktime()] for [fold = 0], which every datetime returned
    by arithmetic has: a UTC second [u] with [localtime u = t].  Of two
    solutions it is the earlier one; when the wall clock skipped [t]
    it is [t] read with the offset in force before the skip. *)
Definition local_to_seconds {zone : LocalTime} (t : Z) : Z :=
  let a := localtime t - t in
  let u1 := t - a in
  let t1 := localtime u1 in
  let b :=
    if t1 =? t
    then localtime (u1 - max_fold_seconds) - (u1 - max_fold_seconds)
    else t1 - u1 in
  if (t1 =? t) && (a =? b) then u1
  else
    let u2 := t - b in
    let t2 := localtime u2 in
    if t2 =? t then u2
    else if t1 =? t then u1
    else Z.max u1 u2.

(** [dt.timestamp()] for a naive [dt]:
    [self._mktime() + self.microsecond / 1e6], in floats *)
Definition datetime_timestamp {zone : LocalTime} (dt : Z) : Q :=
  let seconds := local_to_seconds (dt `div` 1000000) in
  let microsecond := dt `mod` 1000000 in
  float_of_Q (inject_Z seconds +
              float_of_Q (inject_Z microsecond / inject_Z 1000000))%Q.

(** [int(dt.timestamp() * 1000)] *)
Definition timestamp_millis {zone : LocalTime} (dt : Z) : Z :=
  int_of_float (float_of_Q (datetime_timestamp dt * inject_Z 1000)%Q).

(** A process in UTC *)
Definition utc : LocalTime := fun u => u.

(** The rule of [America/New_York] around 8 March 2026: five hours
    behind UTC until 07:00:00 UTC of that day (second 1772953200),
    four hours behind from then on.  The wall clock goes from
    01:59:59 to 03:00:00. *)
Definition new_york : LocalTime :=
  fun u => if u <? 1772953200 then u - 18000 else u - 14400.

(** The zone keeps the offset [off] (in seconds) for the three days
    before and after the wall-clock time [dt], and [dt] lies between
    1970-01-04 and the year 6000, where a double holds the
    milliseconds of a time stamp to a fraction. *)
Definition steady {zone : LocalTime} (off dt : Z) : Prop :=
  -86400 <= off <= 86400 ∧
  259200 <= dt `div` 1000000 < 2 ^ 37 ∧
  ∀ u, dt `div` 1000000 - 259200 <= u <= dt `div` 1000000 + 259200 →
       localtime u = u + off.

Definition hex_digit (d : N) : ascii :=
  nth (N.to_nat d) (list_ascii_of_string "0123456789abcdef") "0"%char.

(** ['%0{width}x' % n] *)
Fixpoint hex_of (width : nat) (n : N) : string :=
  match width with
  | O => EmptyString
  | S w => hex_of w (n / 16)%N +:+ String (hex_digit (n mod 16)%N) EmptyString
  end.

(** [str(uuid.UUID(int=n, version=4))]: the variant and version bits
    are forced, then the 32 hex digits are grouped 8-4-4-4-12. *)
Definition uuid_str (n : N) : string :=
  let n := (n mod 2 ^ 128)%N in
  let n := N.ldiff n (N.shiftl 0xc000 48) in
  let n := N.lor n (N.shiftl 0x8000 48) in
  let n := N.ldiff n (N.shiftl 0xf000 64) in
  let n := N.lor n (N.shiftl 4 76) in
  let h := hex_of 32 n in
  substring 0 8 h +:+ "-" +:+ substring 8 4 h +:+ "-" +:+ substring 12 4 h
    +:+ "-" +:+ substring 16 4 h +:+ "-" +:+ substring 20 12 h.

Definition is_lower (c : ascii) : bool :=
  (97 <=? N_of_ascii c)%N && (N_of_ascii c <=? 122)%N.
Definition is_upper (c : ascii) : bool :=
  (65 <=? N_of_ascii c)%N && (N_of_ascii c <=? 90)%N.
Definition to_upper (c : ascii) : ascii :=
  if is_lower c then ascii_of_N (N_of_ascii c - 32) else c.
Definition to_lower (c : ascii) : ascii :=
  if is_upper c then ascii_of_N (N_of_ascii c + 32) else c.

(** [str.title()] on ASCII text; [cased] tells whether the previous
    character was a letter. *)
Fixpoint title_from (cased : bool) (s : string) : string :=
  match s with
  | EmptyString => EmptyString
  | String c s' =>
      String (if cased then to_lower c else to_upper c)
             (title_from (is_lower c || is_upper c) s')
  end.
Definition title (s : string) : string := title_from false s.

(** [list.remove(x)]: drops the first element equal to [x] *)
Fixpoint list_remove (x : Item) (l : list Item) : list Item :=
  match l with
  | [] => []
  | y :: l' => if decide (y = x) then l' else y :: list_remove x l'
  end.

(** ** The pattern catalogue ([config.py]) *)

Record Pattern : Type := {
  name : string;
  weight : Q;
  events : list EventType
}.

Definition HAPPY_PATH : Pattern :=
  {| name := "HAPPY_PATH"; weight := Qmake 50 100;
     events := [ORDER_CREATED; ORDER_ITEM_ADDED; ORDER_ITEM_ADDED;
                ORDER_CONFIRMED; ORDER_COMPLETED] |}.
Definition EARLY_CANCEL : Pattern :=
  {| name := "EARLY_CANCEL"; weight := Qmake 15 100;
     events := [ORDER_CREATED; ORDER_ITEM_ADDED; ORDER_CANCELLED] |}.
Definition LATE_CANCEL : Pattern :=
  {| name := "LATE_CANCEL"; weight := Qmake 10 100;
     events := [ORDER_CREATED; ORDER_ITEM_ADDED; ORDER_CONFIRMED;
                ORDER_CANCELLED] |}.
Definition COMPLEX_ORDER : Pattern :=
  {| name := "COMPLEX_ORDER"; weight := Qmake 15 100;
     events := [ORDER_CREATED; ORDER_ITEM_ADDED; ORDER_ITEM_ADDED;
                ORDER_ITEM_REMOVED; ORDER_ITEM_ADDED; ORDER_CONFIRMED;
                ORDER_COMPLETED] |}.
Definition WITH_UPDATES : Pattern :=
  {| name := "WITH_UPDATES"; weight := Qmake 10 100;
     events := [ORDER_CREATED; ORDER_ITEM_ADDED; ORDER_UPDATED;
                ORDER_CONFIRMED; ORDER_COMPLETED] |}.

Definition ORDER_PATTERNS : list Pattern :=
  [HAPPY_PATH; EARLY_CANCEL; LATE_CANCEL; COMPLEX_ORDER; WITH_UPDATES].

(** ** The event generator ([event_generator.py]) *)

(** What a call of the generator can read and write: the three random
    sources of the process and the attribute [self.order_items]. *)
Record World : Type := {
  py_random : Tape;
  faker_random : Tape;
  os_entropy : Tape;
  order_items : gmap string (list Item)
}.

Definition with_random {A : Type} (m : State Tape A) : State World A :=
  fun w =>
    let (a, t) := m (py_random w) in
    (a, {| py_random := t; faker_random := faker_random w;
           os_entropy := os_entropy w; order_items := order_items w |}).

Definition with_faker {A : Type} (m : State Tape A) : State World A :=
  fun w =>
    let (a, t) := m (faker_random w) in
    (a, {| py_random := py_random w; faker_random := t;
           os_entropy := os_entropy w; order_items := order_items w |}).

Definition with_entropy {A : Type} (m : State Tape A) : State World A :=
  fun w =>
    let (a, t) := m (os_entropy w) in
    (a, {| py_random := py_random w; faker_random := faker_random w;
           os_entropy := t; order_items := order_items w |}).

(** [self.order_items.get(order_id, [])]; also [self.order_items[order_id]]
    and the truth value of [self.order_items.get(order_id)], since the
    key is set before the loop starts. *)
Definition get_items (order_id : string) : State World (list Item) :=
  fun w => (default [] (order_items w !! order_id), w).

(** [self.order_items[order_id] = items] *)
Definition set_items (order_id : string) (items : list Item) : State World unit :=
  fun w =>
    (tt, {| py_random := py_random w; faker_random := faker_random w;
            os_entropy := os_entropy w;
            order_items := <[order_id := items]> (order_items w) |}).

(** [uuid.uuid4()], from the entropy of the operating system *)
Definition uuid4 : State World string :=
  with_entropy (n <- draw ;; ret (uuid_str n)).

(** [self.faker.uuid4()], from Faker's seeded generator *)
Definition faker_uuid4 : State World string :=
  with_faker (n <- draw ;; ret (uuid_str n)).

(** The locals of [generate_order_lifecycle] that its loop updates;
    [emitted] is the local list [events]. *)
Record Locals : Type := {
  emitted : list Event;
  current_ts : Z;
  current_status : Status
}.

(** [EventGenerator(seed)]: both seeded generators restart from the
    sequence of their seed, and [order_items] is empty.  [faker_seq] and
    [random_seq] give the sequence of a seed; [entropy] is whatever the
    operating system holds. *)
Definition EventGenerator_init (random_seq faker_seq : Z -> nat -> N)
    (seed : Z) (entropy : Tape) : World :=
  {| py_random := {| cells := random_seq seed; cursor := 0%nat |};
     faker_random := {| cells := faker_seq seed; cursor := 0%nat |};
     os_entropy := entropy;
     order_items := ∅ |}.

Section Generator.

(** The word list of Faker's locale *)
Variable faker_words : list string.

(** The time zone of the process *)
Context {zone : LocalTime}.

(** [self.faker.word()] *)
Definition faker_word : State World string :=
  with_faker (PyRandom.choice EmptyString faker_words).

(** [sum(item['price'] * item['quantity'] for item in items)] *)
Definition sum_items (items : list Item) : Z :=
  foldr (fun item acc => price item * quantity item + acc) 0 items.

Definition _create_payload (event_type : EventType) (order_id customer_id
    restaurant_id : string) (current_status : Status) (event_ts : Z)
  : State World Payload :=
  match event_type with
  | ORDER_CREATED =>
      ret (OrderCreatedPayload customer_id restaurant_id PENDING)
  | ORDER_UPDATED =>
      new_status <- with_random (PyRandom.choice PENDING [PENDING; CONFIRMED]) ;;
      ret (OrderUpdatedPayload current_status new_status)
  | ORDER_ITEM_ADDED =>
      u <- faker_uuid4 ;;
      w <- faker_word ;;
      dish <- with_random (PyRandom.choice "Burger"%string
                ["Burger"; "Pizza"; "Salad"; "Pasta"; "Taco"]%string) ;;
      q <- with_random (PyRandom.randint 1 5) ;;
      p <- with_random (PyRandom.uniform (Qmake 599 100) (Qmake 2999 100)) ;;
      let item :=
        {| item_id := "item_" +:+ substring 0 8 u;
           item_name := title w +:+ " " +:+ dish;
           quantity := q;
           price := round2 p |} in
      items <- get_items order_id ;;
      _ <- set_items order_id (items ++ [item]) ;;
      ret (OrderItemAddedPayload item)
  | ORDER_ITEM_REMOVED =>
      items <- get_items order_id ;;
      match items with
      | first :: _ =>
          removed_item <- with_random (PyRandom.choice first items) ;;
          _ <- set_items order_id (list_remove removed_item items) ;;
          ret (OrderItemRemovedPayload (item_id removed_item))
      | [] =>
          u <- faker_uuid4 ;;
          ret (OrderItemRemovedPayload ("item_" +:+ substring 0 8 u))
      end
  | ORDER_CONFIRMED =>
      u <- faker_uuid4 ;;
      m <- with_random (PyRandom.randint 30 90) ;;
      ret (OrderConfirmedPayload ("user_" +:+ substring 0 8 u)
             (timestamp_millis (event_ts + timedelta_minutes m)))
  | ORDER_CANCELLED =>
      let reasons :=
        [Some "Customer requested cancellation"; Some "Restaurant unavailable";
         Some "Payment failed"; Some "Item out of stock"; None]%string in
      u <- faker_uuid4 ;;
      reason <- with_random (PyRandom.choice None reasons) ;;
      ret (OrderCancelledPayload ("user_" +:+ substring 0 8 u) reason)
  | ORDER_COMPLETED =>
      items <- get_items order_id ;;
      let total := sum_items items in
      total <-
        (if total =? 0
         then p <- with_random (PyRandom.uniform (Qmake 1599 100) (Qmake 9999 100)) ;;
              ret (round2 p)
         else ret total) ;;
      ret (OrderCompletedPayload (timestamp_millis event_ts) total)
  end.

Definition _create_event (order_id : string) (event_type : EventType)
    (event_ts : Z) (customer_id restaurant_id : string) (current_status : Status)
  : State World Event :=
  event_id <- uuid4 ;;
  let event_ts_millis := timestamp_millis event_ts in
  payload <- _create_payload event_type order_id customer_id restaurant_id
               current_status event_ts ;;
  ret {| event_id := event_id;
         event_type := event_type;
         event_ts := event_ts_millis;
         order_id := order_id;
         payload := payload;
         schema_version := 1 |}.

(** One iteration of [for event_type in pattern['events']] *)
Definition lifecycle_step (order_id customer_id restaurant_id : string)
    (event_type : EventType) (l : Locals) : State World Locals :=
  gap <- with_random (PyRandom.uniform (inject_Z 1) (inject_Z 30)) ;;
  let current_ts := current_ts l + timedelta_seconds gap in
  event <- _create_event order_id event_type current_ts customer_id
             restaurant_id (current_status l) ;;
  let current_status :=
    match event_type with
    | ORDER_CONFIRMED => CONFIRMED
    | ORDER_CANCELLED => CANCELLED
    | ORDER_COMPLETED => COMPLETED
    | _ => current_status l
    end in
  ret {| emitted := emitted l ++ [event];
         current_ts := current_ts;
         current_status := current_status |}.

Fixpoint lifecycle_loop (order_id customer_id restaurant_id : string)
    (steps : list EventType) (l : Locals) : State World Locals :=
  match steps with
  | [] => ret l
  | event_type :: steps' =>
      l' <- lifecycle_step order_id customer_id restaurant_id event_type l ;;
      lifecycle_loop order_id customer_id restaurant_id steps' l'
  end.

Definition generate_order_lifecycle (order_id : string) (base_timestamp : Z)
  : State World (list Event) :=
  pattern <- with_random
               (PyRandom.choices HAPPY_PATH ORDER_PATTERNS
                  (map weight ORDER_PATTERNS)) ;;
  _ <- set_items order_id [] ;;
  u1 <- faker_uuid4 ;;
  let customer_id := "cust_" +:+ substring 0 8 u1 in
  u2 <- faker_uuid4 ;;
  let restaurant_id := "rest_" +:+ substring 0 8 u2 in
  l <- lifecycle_loop order_id customer_id restaurant_id (events pattern)
         {| emitted := []; current_ts := base_timestamp;
            current_status := PENDING |} ;;
  ret (emitted l).

End Generator.

(** ** What the injector's loop computes, read off the tape

    The loop body draws twice per event: the first draw decides the
    duplicate, the second the late arrival. *)

Definition dup_copies (self : EdgeCaseInjector) (event : Event) (t : Tape)
  : list Event :=
  if Qltb (random_val t) (duplicate_probability self)
  then [event; event] else [event].

Definition late_copies (self : EdgeCaseInjector) (i : nat) (event : Event)
    (t : Tape) : list Event :=
  if Qltb (random_val (next t)) (late_arrival_probability self) && (0 <? i)%nat
  then [event] else [].

Fixpoint main_of (self : EdgeCaseInjector) (rest : list Event) (t : Tape)
  : list Event :=
  match rest with
  | [] => []
  | e :: rest' => dup_copies self e t ++ main_of self rest' (next (next t))
  end.

Fixpoint late_of (self : EdgeCaseInjector) (i : nat) (rest : list Event)
    (t : Tape) : list Event :=
  match rest with
  | [] => []
  | e :: rest' =>
      late_copies self i e t ++ late_of self (S i) rest' (next (next t))
  end.

(** [main] differs from [pre] by a permutation inside one window
    [start, start + size) and nowhere else. *)
Definition window_shuffled (pre main : list Event) (start size : nat) : Prop :=
  2 <= Z.of_nat size <= Z.min 5 (Z.of_nat (length pre)) ∧
  (start + size <= length pre)%nat ∧
  length main = length pre ∧
  slice main start (start + size) ≡ₚ slice pre start (start + size) ∧
  ∀ i : nat, (i < start ∨ start + size <= i)%nat → main !! i = pre !! i.

(** The injector of the two example scenarios of the specification *)
Definition only_duplicates : EdgeCaseInjector :=
  {| duplicate_probability := 1%Q; out_of_order_probability := 0%Q;
     late_arrival_probability := 0%Q |}.

Definition only_out_of_order : EdgeCaseInjector :=
  {| duplicate_probability := 0%Q; out_of_order_probability := 1%Q;
     late_arrival_probability := 0%Q |}.

(** On a three-event input the loop draws six times and the
    out-of-order test once; the next two draws are those of
    [shuffle_size] and [shuffle_start], the one after is the shuffle's. *)
Definition window_forced (t : Tape) : Prop :=
  randint_val 2 3 (Nat.iter 7 next t) = 2 ∧
  randint_val 0 1 (Nat.iter 8 next t) = 0.

(** Three events of one order, for the example scenarios *)
Definition sample_event (id : string) (ty : EventType) (ts : Z) (p : Payload)
  : Event :=
  {| event_id := id; event_type := ty; event_ts := ts; order_id := "order_0000";
     payload := p; schema_version := 1 |}.

Definition ev_a : Event :=
  sample_event "a" ORDER_CREATED 1000 (OrderCreatedPayload "cust_1" "rest_1" PENDING).
Definition ev_b : Event :=
  sample_event "b" ORDER_CONFIRMED 2000 (OrderConfirmedPayload "user_1" 9000).
Definition ev_c : Event :=
  sample_event "c" ORDER_CANCELLED 3000 (OrderCancelledPayload "user_2" None).

(** ** What a lifecycle step does, stated on the ledger

    The tracked status after an event of each type: the [if/elif] chain
    at the end of the loop body. *)
Definition status_after (ty : EventType) (st : Status) : Status :=
  match ty with
  | ORDER_CONFIRMED => CONFIRMED
  | ORDER_CANCELLED => CANCELLED
  | ORDER_COMPLETED => COMPLETED
  | _ => st
  end.

Definition item_pos (item : Item) : Prop := 599 <= price item ∧ 1 <= quantity item.

(** The payload built for an event of type [ty] at time [ts] (in
    microseconds) when the tracked status is [st], and the ledger of the
    order before ([L]) and after ([L']) it. *)
Definition payload_step {zone : LocalTime} (ty : EventType) (st : Status) (ts : Z)
    (L : list Item) (p : Payload) (L' : list Item) : Prop :=
  match ty with
  | ORDER_CREATED =>
      L' = L ∧ ∃ c r, p = OrderCreatedPayload c r PENDING
  | ORDER_UPDATED =>
      L' = L ∧
      ∃ new, p = OrderUpdatedPayload st new ∧ (new = PENDING ∨ new = CONFIRMED)
  | ORDER_ITEM_ADDED =>
      ∃ item, p = OrderItemAddedPayload item ∧ L' = L ++ [item] ∧ item_pos item
  | ORDER_ITEM_REMOVED =>
      (L = [] ∧ L' = [] ∧ ∃ id, p = OrderItemRemovedPayload id) ∨
      (∃ L1 item L2, L = L1 ++ item :: L2 ∧ L' = L1 ++ L2 ∧
                     p = OrderItemRemovedPayload (item_id item))
  | ORDER_CONFIRMED =>
      L' = L ∧ ∃ by_ ets, p = OrderConfirmedPayload by_ ets
  | ORDER_CANCELLED =>
      L' = L ∧ ∃ by_ reason, p = OrderCancelledPayload by_ reason
  | ORDER_COMPLETED =>
      L' = L ∧
      ∃ total, p = OrderCompletedPayload (timestamp_millis ts) total ∧
               (L ≠ [] → total = sum_items L) ∧
               (L = [] → 1599 <= total <= 9999)
  end.

(** The items added and not removed by a sequence of events: an
    [ORDER_ITEM_ADDED] adds its item, an [ORDER_ITEM_REMOVED] removes an
    item with the [item_id] it names, or nothing when there is none. *)
Inductive Remaining : list Event → list Item → Prop :=
  | Remaining_nil : Remaining [] []
  | Remaining_added evs e item L :
      Remaining evs L → payload e = OrderItemAddedPayload item →
      Remaining (evs ++ [e]) (L ++ [item])
  | Remaining_removed evs e L1 item L2 :
      Remaining evs (L1 ++ item :: L2) →
      payload e = OrderItemRemovedPayload (item_id item) →
      Remaining (evs ++ [e]) (L1 ++ L2)
  | Remaining_absent evs e id L :
      Remaining evs L → payload e = OrderItemRemovedPayload id →
      (∀ item, item ∈ L → item_id item ≠ id) →
      Remaining (evs ++ [e]) L
  | Remaining_other evs e L :
      Remaining evs L →
      (∀ item, payload e ≠ OrderItemAddedPayload item) →
      (∀ id, payload e ≠ OrderItemRemovedPayload id) →
      Remaining (evs ++ [e]) L.

(** The same ledger as a function of the events, removing the first
    item that has the named [item_id]; it is the only ledger in
    [Remaining] when the added items have distinct ids. *)
Fixpoint remove_by_id (id : string) (L : list Item) : list Item :=
  match L with
  | [] => []
  | item :: L' =>
      if decide (item_id item = id) then L' else item :: remove_by_id id L'
  end.

Definition ledger_step (L : list Item) (e : Event) : list Item :=
  match payload e with
  | OrderItemAddedPayload item => L ++ [item]
  | OrderItemRemovedPayload id => remove_by_id id L
  | _ => L
  end.

Definition remaining (evs : list Event) : list Item := foldl ledger_step [] evs.

Definition added_ids (evs : list Event) : list string :=
  evs ≫= fun e =>
    match payload e with
    | OrderItemAddedPayload item => [item_id item]
    | _ => []
    end.

(** Every [ORDER_COMPLETED] event of a sequence carries the total of
    the items that the events before it added and did not remove, or,
    when there are none, a fallback between 15.99 and 99.99. *)
Definition completed_ok (evs : list Event) : Prop :=
  ∀ (i : nat) e cts total,
    evs !! i = Some e → payload e = OrderCompletedPayload cts total →
    0 < total ∧
    ∃ L, Remaining (take i evs) L ∧
         (L ≠ [] → total = sum_items L) ∧ (L = [] → 1599 <= total <= 9999).

(** What the loop of [generate_order_lifecycle] maintains, for the
    order [oid] of a call entered with [self.order_items = items0] and
    the entropy [ent0]. *)
Definition lifecycle_inv (oid : string) (items0 : gmap string (list Item))
    (ent0 : Tape) (l : Locals) (w : World) : Prop :=
  (∃ L, order_items w !! oid = Some L ∧ Forall item_pos L ∧
        Remaining (emitted l) L) ∧
  delete oid (order_items w) = delete oid items0 ∧
  os_entropy w = Nat.iter (length (emitted l)) next ent0 ∧
  event_id <$> emitted l =
    (fun k => uuid_str (cells ent0 (cursor ent0 + k))) <$> seq 0 (length (emitted l)) ∧
  Forall (fun e => order_id e = oid ∧ schema_version e = 1) (emitted l) ∧
  completed_ok (emitted l).

(** An event without its [event_id] *)
Definition without_event_id (e : Event)
  : EventType * Z * string * Payload * Z :=
  (event_type e, event_ts e, order_id e, payload e, schema_version e).

(** Two worlds that agree on what the seed determines and on the ledger
    of one order *)
Definition agree (oid : string) (w1 w2 : World) : Prop :=
  py_random w1 = py_random w2 ∧ faker_random w1 = faker_random w2 ∧
  order_items w1 !! oid = order_items w2 !! oid.

(** Two computations that, from agreeing worlds, return results related
    by [R] and end in agreeing worlds *)
Definition related (oid : string) {A B : Type} (R : A → B → Prop)
    (m1 : State World A) (m2 : State World B) : Prop :=
  ∀ w1 w2, agree oid w1 w2 →
    R (run m1 w1) (run m2 w2) ∧ agree oid (exec m1 w1) (exec m2 w2).

Definition same_locals (l1 l2 : Locals) : Prop :=
  without_event_id <$> emitted l1 = without_event_id <$> emitted l2 ∧
  current_ts l1 = current_ts l2 ∧ current_status l1 = current_status l2.

(** A generator state with given draws, for the example runs; the
    draws after the listed ones are 0. *)
Definition sample_world (r f e : list N) : World :=
  {| py_random := tape_of r; faker_random := tape_of f;
     os_entropy := tape_of e; order_items := ∅ |}.

(** Draws under which the call walks [COMPLEX_ORDER]: three items of
    different prices are added and the first one is removed. *)
Definition complex_world : World :=
  sample_world
    [7205759403792794; 0; 0; 2; 1; 2 ^ 52; 0; 4; 3; 2 ^ 51; 0; 0; 0; 1; 0;
     2 ^ 50; 0; 15; 0]%N
    [2 ^ 96; 2 ^ 97; 2 ^ 98; 0; 2 ^ 99; 1; 2 ^ 100; 0; 2 ^ 101]%N
    [].

Definition sample_words : list string := ["alpha"; "beta"].

(** A stand-in for the sequence that a seed determines *)
Definition sample_seq (seed : Z) (i : nat) : N := (Z.to_N seed * 7919 + N.of_nat i)%N.

Definition fresh_locals (base_timestamp : Z) : Locals :=
  {| emitted := []; current_ts := base_timestamp; current_status := PENDING |}.

(** ** The shape of a generated lifecycle *)

(** The variant of the payload union, as an event type *)
Definition payload_tag (p : Payload) : EventType :=
  match p with
  | OrderCreatedPayload _ _ _ => ORDER_CREATED
  | OrderUpdatedPayload _ _ => ORDER_UPDATED
  | OrderItemAddedPayload _ => ORDER_ITEM_ADDED
  | OrderItemRemovedPayload _ => ORDER_ITEM_REMOVED
  | OrderConfirmedPayload _ _ => ORDER_CONFIRMED
  | OrderCancelledPayload _ _ => ORDER_CANCELLED
  | OrderCompletedPayload _ _ => ORDER_COMPLETED
  end.

(** The ranges of [random.randint(1, 5)] and of
    [round(random.uniform(5.99, 29.99), 2)] *)
Definition item_in_range (item : Item) : Prop :=
  1 <= quantity item <= 5 ∧ 599 <= price item <= 2999.

(** The list [reasons] of the [ORDER_CANCELLED] branch *)
Definition cancellation_reasons : list (option string) :=
  [Some "Customer requested cancellation"; Some "Restaurant unavailable";
   Some "Payment failed"; Some "Item out of stock"; None]%string.

(** The number of items in the ledger after events of the given types:
    an addition appends one, a removal takes one out unless the ledger
    is empty. *)
Definition ledger_size_step (n : nat) (ty : EventType) : nat :=
  match ty with
  | ORDER_ITEM_ADDED => S n
  | ORDER_ITEM_REMOVED => pred n
  | _ => n
  end.

Definition ledger_size (types : list EventType) : nat :=
  foldl ledger_size_step 0%nat types.

(** The tracked status after events of the given types *)
Definition status_of (types : list EventType) : Status :=
  foldl (fun st ty => status_after ty st) PENDING types.

(** The payload built by [_create_payload] for type [ty], with every
    field, and the ledger before and after. *)
Definition payload_detail {zone : LocalTime} (ty : EventType) (cid rid : string)
    (st : Status) (ts : Z) (L : list Item) (p : Payload) (L' : list Item)
  : Prop :=
  match ty with
  | ORDER_CREATED => L' = L ∧ p = OrderCreatedPayload cid rid PENDING
  | ORDER_UPDATED =>
      L' = L ∧
      ∃ new, p = OrderUpdatedPayload st new ∧ (new = PENDING ∨ new = CONFIRMED)
  | ORDER_ITEM_ADDED =>
      ∃ item, p = OrderItemAddedPayload item ∧ L' = L ++ [item] ∧
              item_in_range item
  | ORDER_ITEM_REMOVED =>
      (L = [] ∧ L' = [] ∧ ∃ id, p = OrderItemRemovedPayload id) ∨
      (∃ item, item ∈ L ∧ L' = list_remove item L ∧
               p = OrderItemRemovedPayload (item_id item))
  | ORDER_CONFIRMED =>
      L' = L ∧
      ∃ by_ m, p = OrderConfirmedPayload by_
                     (timestamp_millis (ts + timedelta_minutes m)) ∧
               30 <= m <= 90
  | ORDER_CANCELLED =>
      L' = L ∧
      ∃ by_ reason, p = OrderCancelledPayload by_ reason ∧
                    reason ∈ cancellation_reasons
  | ORDER_COMPLETED =>
      L' = L ∧
      ∃ total, p = OrderCompletedPayload (timestamp_millis ts) total ∧
               (L ≠ [] → total = sum_items L) ∧
               (L = [] → 1599 <= total <= 9999)
  end.

(** What can be read off one event of a lifecycle: its payload is the
    variant of its type and its fields are in the ranges of their draws. *)
Definition event_fields_ok (e : Event) : Prop :=
  payload_tag (payload e) = event_type e ∧
  schema_version e = 1 ∧
  match payload e with
  | OrderCreatedPayload _ _ st => st = PENDING
  | OrderUpdatedPayload _ new => new = PENDING ∨ new = CONFIRMED
  | OrderItemAddedPayload item => item_in_range item
  | OrderItemRemovedPayload _ => True
  | OrderConfirmedPayload _ _ => True
  | OrderCancelledPayload _ reason => reason ∈ cancellation_reasons
  | OrderCompletedPayload cts total => cts = event_ts e ∧ 599 <= total
  end.

(** The time stamps of an event that was created at the wall-clock
    time [t]: [event_ts] is [t], and the estimated delivery of a
    confirmation is the wall-clock time 30 to 90 minutes later, both
    converted by [timestamp()]. *)
Definition event_time_ok {zone : LocalTime} (e : Event) (t : Z) : Prop :=
  event_ts e = timestamp_millis t ∧
  match payload e with
  | OrderConfirmedPayload _ ets =>
      ∃ m, 30 <= m <= 90 ∧ ets = timestamp_millis (t + timedelta_minutes m)
  | _ => True
  end.

(** The estimated delivery of a confirmation lies 30 to 90 minutes
    after the event, to the millisecond that the conversion to floats
    can add or take away. *)
Definition delivery_ok (e : Event) : Prop :=
  match payload e with
  | OrderConfirmedPayload _ ets =>
      event_ts e + 1799999 <= ets <= event_ts e + 5400001
  | _ => True
  end.

(** What an event says about the ledger [L] it was built against *)
Definition event_ledger_ok (e : Event) (L : list Item) : Prop :=
  match payload e with
  | OrderItemRemovedPayload id =>
      L = [] ∨ ∃ item, item ∈ L ∧ item_id item = id
  | OrderCompletedPayload _ total => L ≠ [] → total = sum_items L
  | _ => True
  end.

(** Every event of a sequence was built against the ledger that the
    events before it leave, and that ledger has the size that their
    types give. *)
Definition history_ok (evs : list Event) : Prop :=
  ∀ (i : nat) e, evs !! i = Some e →
    ∃ L, Remaining (take i evs) L ∧
         length L = ledger_size (event_type <$> take i evs) ∧
         Forall item_in_range L ∧
         event_ledger_ok e L.

(** Times in microseconds that advance from [prev] by gaps of 1 to 30
    seconds *)
Fixpoint gaps_ok (prev : Z) (ts : list Z) : Prop :=
  match ts with
  | [] => True
  | t :: ts' => 1000000 <= t - prev <= 30000000 ∧ gaps_ok t ts'
  end.

(** The invariant of the loop for the properties above *)
Definition shape_inv {zone : LocalTime} (oid : string) (base : Z) (l : Locals)
    (w : World) : Prop :=
  (∃ L, order_items w !! oid = Some L ∧ Forall item_in_range L ∧
        Remaining (emitted l) L ∧
        length L = ledger_size (event_type <$> emitted l)) ∧
  (∃ ts, Forall2 event_time_ok (emitted l) ts ∧
         gaps_ok base ts ∧ current_ts l = List.last ts base) ∧
  current_status l = status_of (event_type <$> emitted l) ∧
  Forall event_fields_ok (emitted l) ∧
  Forall (fun e => order_id e = oid) (emitted l) ∧
  history_ok (emitted l).

(** The pattern that a draw [r] of [random.random()] selects, by the
    cumulative weights of the catalogue *)
Definition pattern_for (r : Q) : Pattern :=
  if Qltb r (Qmake 50 100) then HAPPY_PATH
  else if Qltb r (Qmake 65 100) then EARLY_CANCEL
  else if Qltb r (Qmake 75 100) then LATE_CANCEL
  else if Qltb r (Qmake 90 100) then COMPLEX_ORDER
  else WITH_UPDATES.

(** Every event of a sequence, twice in a row *)
Definition doubled (evs : list Event) : list Event := evs ≫= fun e => [e; e].

(** ** The producer ([producer.py])

    The Kafka client, the Avro serializer and the clock are outside the
    repository.  What [run_simulation] hands to them is kept as a log
    of the messages produced; whether one call of [send_event] succeeds
    is asked of a parameter; [time.sleep] and [flush] are not
    modelled. *)

(** The decimal digits of [n], least significant first *)
Fixpoint digits_rev (fuel n : nat) : list nat :=
  match fuel with
  | O => []
  | S fuel' =>
      (n mod 10)%nat ::
      (if (n / 10 =? 0)%nat then [] else digits_rev fuel' (n / 10)%nat)
  end.

Definition digit_char (d : nat) : ascii := ascii_of_nat (48 + d).

(** [str(n)] *)
Definition str_of_nat (n : nat) : string :=
  string_of_list_ascii (digit_char <$> rev (digits_rev (S n) n)).

(** [s.zfill(width)] for a string of digits *)
Definition zfill (width : nat) (s : string) : string :=
  string_of_list_ascii (replicate (width - String.length s) "0"%char) +:+ s.

(** [f"order_{order_num:04d}"] *)
Definition order_id_of (order_num : nat) : string :=
  "order_" +:+ zfill 4 (str_of_nat order_num).

(** [int(s)] for a string of digits *)
Definition int_of_digits (s : string) : nat :=
  foldl (fun acc c => (acc * 10 + (nat_of_ascii c - 48))%nat) 0%nat
        (list_ascii_of_string s).

(** [int(order_id[6:])] *)
Definition order_num_of (order_id : string) : nat :=
  int_of_digits (string_of_list_ascii (drop 6 (list_ascii_of_string order_id))).

(** [SIMULATION_CONFIG] of [config.py]; the two delays only feed
    [time.sleep]. *)
Record SimulationConfig : Type := {
  num_orders : nat;
  config_duplicate_probability : Q;
  config_out_of_order_probability : Q;
  config_late_arrival_probability : Q
}.

Definition SIMULATION_CONFIG : SimulationConfig :=
  {| num_orders := 20;
     config_duplicate_probability := Qmake 15 100;
     config_out_of_order_probability := Qmake 20 100;
     config_late_arrival_probability := Qmake 10 100 |}.

(** The injector that [OrderProducer.__init__] builds *)
Definition producer_injector (config : SimulationConfig) : EdgeCaseInjector :=
  {| duplicate_probability := config_duplicate_probability config;
     out_of_order_probability := config_out_of_order_probability config;
     late_arrival_probability := config_late_arrival_probability config |}.

(** A message handed to [producer.produce]: the key
    [event['order_id'].encode('utf-8')] and the event that was
    serialized *)
Definition Message : Type := string * Event.

Definition message_of (event : Event) : Message := (order_id event, event).

(** The state of a run: the generator with the random sources, and the
    messages produced so far *)
Record Sim : Type := { sim_world : World; sent : list Message }.

(** A call returns or raises; the state is kept in both cases. *)
Inductive Outcome (A : Type) : Type :=
  | Returned (a : A)
  | Raised.
Arguments Returned {A} a.
Arguments Raised {A}.

Definition SimM (A : Type) : Type := Sim -> Outcome A * Sim.

Definition sim_ret {A : Type} (a : A) : SimM A := fun s => (Returned a, s).

Definition sim_bind {A B : Type} (m : SimM A) (f : A -> SimM B) : SimM B :=
  fun s =>
    match m s with
    | (Returned a, s') => f a s'
    | (Raised, s') => (Raised, s')
    end.

(** A call of the generator or the injector inside a run *)
Definition sim_lift {A : Type} (m : State World A) : SimM A :=
  fun s =>
    let (a, w) := m (sim_world s) in
    (Returned a, {| sim_world := w; sent := sent s |}).

Section Producer.

(** The time zone of the process *)
Context {zone : LocalTime}.

Variable faker_words : list string.
Variable config : SimulationConfig.

(** Whether serializing and producing an event succeeds, given the
    messages produced before *)
Variable accepts : list Message -> Event -> bool.

(** [send_event]: the message is produced, or the exception of the
    serializer or of the client is raised again. *)
Definition send_event (event : Event) : SimM unit :=
  fun s =>
    if accepts (sent s) event
    then (Returned tt,
          {| sim_world := sim_world s; sent := sent s ++ [message_of event] |})
    else (Raised, s).

(** [for event in events: self.send_event(event, ...)] *)
Fixpoint send_all (evs : list Event) : SimM unit :=
  match evs with
  | [] => sim_ret tt
  | event :: evs' => sim_bind (send_event event) (fun _ => send_all evs')
  end.

(** The body of [for order_num in range(num_orders)], which returns
    the new value of [all_late_arrivals] *)
Definition simulate_order (base_timestamp : Z) (order_num : nat)
    (all_late_arrivals : list Event) : SimM (list Event) :=
  let order_id := order_id_of order_num in
  sim_bind
    (sim_lift (generate_order_lifecycle faker_words order_id
                 (base_timestamp + timedelta_minutes (Z.of_nat order_num * 5))))
    (fun evs =>
  sim_bind
    (sim_lift (with_random (inject_edge_cases (producer_injector config) evs)))
    (fun injected =>
  let all_late_arrivals := all_late_arrivals ++ injected.2 in
  sim_bind (send_all injected.1) (fun _ => sim_ret all_late_arrivals))).

Fixpoint orders_loop (base_timestamp : Z) (order_nums : list nat)
    (all_late_arrivals : list Event) : SimM (list Event) :=
  match order_nums with
  | [] => sim_ret all_late_arrivals
  | order_num :: rest =>
      sim_bind (simulate_order base_timestamp order_num all_late_arrivals)
               (orders_loop base_timestamp rest)
  end.

(** [run_simulation], started when [datetime.now()] is the wall-clock
    time [now] *)
Definition run_simulation (now : Z) : SimM unit :=
  let base_timestamp := now - 7200000000 in
  sim_bind (orders_loop base_timestamp (seq 0 (num_orders config)) [])
           (fun all_late_arrivals => send_all all_late_arrivals).

(** The same generation without the sends: for each order, its [main]
    and its [late] sequence *)
Definition plan_order (base_timestamp : Z) (order_num : nat)
  : State World (list Event * list Event) :=
  evs <- generate_order_lifecycle faker_words (order_id_of order_num)
           (base_timestamp + timedelta_minutes (Z.of_nat order_num * 5)) ;;
  with_random (inject_edge_cases (producer_injector config) evs).

Fixpoint plan_orders (base_timestamp : Z) (order_nums : list nat)
  : State World (list (list Event * list Event)) :=
  match order_nums with
  | [] => ret []
  | order_num :: rest =>
      injected <- plan_order base_timestamp order_num ;;
      plans <- plan_orders base_timestamp rest ;;
      ret (injected :: plans)
  end.

End Producer.

(** The messages of a plan: the [main] sequences of all orders, then
    their [late] sequences *)
Definition plan_main (plans : list (list Event * list Event)) : list Event :=
  plans ≫= fst.
Definition plan_late (plans : list (list Event * list Event)) : list Event :=
  plans ≫= snd.
Definition schedule (plans : list (list Event * list Event)) : list Message :=
  message_of <$> (plan_main plans ++ plan_late plans).

(** [p] is what the injector returns on a lifecycle generated for
    order [k] of a run. *)
Definition order_plan_of {zone : LocalTime} (words : list string) (config : SimulationConfig)
    (base_timestamp : Z) (k : nat) (p : list Event * list Event) : Prop :=
  ∃ w t,
    p = run (inject_edge_cases (producer_injector config)
               (run (generate_order_lifecycle words (order_id_of k)
                       (base_timestamp + timedelta_minutes (Z.of_nat k * 5))) w))
            t.

(** The messages that a call added to the log *)
Definition produced_since (before after : Sim) : list Message :=
  drop (length (sent before)) (sent after).

(** A run of two orders with the configured probabilities, for the
    example runs *)
Definition two_orders : SimulationConfig :=
  {| num_orders := 2;
     config_duplicate_probability := Qmake 15 100;
     config_out_of_order_probability := Qmake 20 100;
     config_late_arrival_probability := Qmake 10 100 |}.

Definition fresh_sim : Sim :=
  {| sim_world := sample_world [] [] []; sent := [] |}.

Definition accept_all (l : list Message) (e : Event) : bool := true.

(** The counters of [OrderProducer] that [delivery_callback] updates *)
Record DeliveryStats : Type := { delivered_count : nat; failed_count : nat }.

(** What [delivery_callback] prints: the failure, or every tenth
    delivery with the partition and offset of the message *)
Inductive DeliveryLine : Type :=
  | DeliveryFailed (err : string)
  | DeliveryProgress (count : nat) (partition offset : Z).

(** A delivery report: the error if there is one, and the message's
    partition and offset *)
Definition DeliveryReport : Type := option string * (Z * Z).

Definition delivery_callback (report : DeliveryReport) (st : DeliveryStats)
  : DeliveryStats * list DeliveryLine :=
  match report.1 with
  | Some err =>
      ({| delivered_count := delivered_count st;
          failed_count := failed_count st + 1 |}, [DeliveryFailed err])
  | None =>
      let delivered := (delivered_count st + 1)%nat in
      ({| delivered_count := delivered; failed_count := failed_count st |},
       if (delivered mod 10 =? 0)%nat
       then [DeliveryProgress delivered report.2.1 report.2.2] else [])
  end.

(** The callbacks of a sequence of reports, in order *)
Fixpoint delivery_callbacks (reports : list DeliveryReport) (st : DeliveryStats)
  : DeliveryStats * list DeliveryLine :=
  match reports with
  | [] => (st, [])
  | report :: reports' =>
      let (st1, lines1) := delivery_callback report st in
      let (st2, lines2) := delivery_callbacks reports' st1 in
      (st2, lines1 ++ lines2)
  end.

Definition is_delivered (report : DeliveryReport) : bool :=
  match report.1 with Some _ => false | None => true end.

Definition progress_counts (lines : list DeliveryLine) : list nat :=
  lines ≫= fun line =>
    match line with
    | DeliveryProgress count _ _ => [count]
    | DeliveryFailed _ => []
    end.

(** ** The schema validator ([schemas/validate-schemas.py])

    A schema is the value that [json.load] returns.  An object is the
    list of its members in order, with distinct keys; a number stands
    for an [int] or a [float], which behave alike below. *)

#[warnings="-register-all"]
Inductive Json : Type :=
  | JNull
  | JBool (b : bool)
  | JNum (n : Z)
  | JStr (s : string)
  | JArr (items : list Json)
  | JObj (members : list (string * Json)).

(** The exceptions that the validator's expressions can raise *)
Inductive PyError : Type := KeyError | TypeError | AttributeError.

Inductive Res (A : Type) : Type :=
  | Ok (a : A)
  | Err (e : PyError).
Arguments Ok {A} a.
Arguments Err {A} e.

Definition res_bind {A B : Type} (m : Res A) (f : A -> Res B) : Res B :=
  match m with
  | Ok a => f a
  | Err e => Err e
  end.

Notation "x <~ m ;; k" := (res_bind m (fun x => k))
  (at level 100, m at next level, right associativity).

(** The value of a key in a dict *)
Fixpoint assoc {A : Type} (key : string) (d : list (string * A)) : option A :=
  match d with
  | [] => None
  | (k, v) :: d' => if decide (k = key) then Some v else assoc key d'
  end.

(** [obj.get(key, dflt)] *)
Definition py_get (obj : Json) (key : string) (dflt : Json) : Res Json :=
  match obj with
  | JObj d => Ok (default dflt (assoc key d))
  | _ => Err AttributeError
  end.

(** [obj[key]] for a string [key] *)
Definition py_getitem (obj : Json) (key : string) : Res Json :=
  match obj with
  | JObj d =>
      match assoc key d with
      | Some v => Ok v
      | None => Err KeyError
      end
  | _ => Err TypeError
  end.

(** What [for x in obj] visits: the items of a list, the keys of a
    dict, the characters of a string *)
Definition py_iter (obj : Json) : Res (list Json) :=
  match obj with
  | JArr l => Ok l
  | JObj d => Ok ((fun kv => JStr kv.1) <$> d)
  | JStr s => Ok ((fun c => JStr (String c EmptyString)) <$> list_ascii_of_string s)
  | _ => Err TypeError
  end.

(** [len(obj)] *)
Definition py_len (obj : Json) : Res nat :=
  match obj with
  | JArr l => Ok (length l)
  | JObj d => Ok (length d)
  | JStr s => Ok (String.length s)
  | _ => Err TypeError
  end.

(** [v == s] for a string literal [s] *)
Definition eq_str (v : Json) (s : string) : bool :=
  match v with
  | JStr s' => bool_decide (s' = s)
  | _ => false
  end.

Definition is_dict (v : Json) : bool :=
  match v with JObj _ => true | _ => false end.
Definition is_list (v : Json) : bool :=
  match v with JArr _ => true | _ => false end.

(** The second component of a result: the text of the message, kept as
    its parts *)
Inductive CheckMessage : Type :=
  | FieldPresent (field_name : string)
  | FieldMissing (field_name : string)
  | FieldTypeMismatch (field_name : string) (actual : Json) (expected : string)
  | CheckLabel (label : string).

(** The loop of [check_field] over the fields still to visit.  A
    [field_type] that is [None] or the empty string is not checked. *)
Fixpoint check_field_loop (fields : list Json) (field_name : string)
    (field_type : option string) : Res (bool * CheckMessage) :=
  match fields with
  | [] => Ok (false, FieldMissing field_name)
  | field :: rest =>
      name <~ py_getitem field "name" ;;
      if eq_str name field_name
      then
        match field_type with
        | Some (String c ty' as ty) =>
            actual <~ py_getitem field "type" ;;
            if negb (eq_str actual ty)
            then Ok (false, FieldTypeMismatch field_name actual ty)
            else Ok (true, FieldPresent field_name)
        | _ => Ok (true, FieldPresent field_name)
        end
      else check_field_loop rest field_name field_type
  end.

Definition check_field (schema : Json) (field_name : string)
    (field_type : option string) : Res (bool * CheckMessage) :=
  fields <~ py_get schema "fields" (JArr []) ;;
  fields <~ py_iter fields ;;
  check_field_loop fields field_name field_type.

(** [for field_name in required_fields: results.append(check_field(...))] *)
Fixpoint check_required (schema : Json) (required_fields : list string)
  : Res (list (bool * CheckMessage)) :=
  match required_fields with
  | [] => Ok []
  | field_name :: rest =>
      result <~ check_field schema field_name None ;;
      results <~ check_required schema rest ;;
      Ok (result :: results)
  end.

(** [next((f for f in fields if f['name'] == field_name), None)] *)
Fixpoint find_field (fields : list Json) (field_name : string)
  : Res (option Json) :=
  match fields with
  | [] => Ok None
  | f :: rest =>
      name <~ py_getitem f "name" ;;
      if eq_str name field_name then Ok (Some f) else find_field rest field_name
  end.

Definition next_field (schema : Json) (field_name : string) : Res (option Json) :=
  fields <~ py_getitem schema "fields" ;;
  fields <~ py_iter fields ;;
  find_field fields field_name.

Definition raw_required_fields : list string :=
  ["event_id"; "event_type"; "event_ts"; "order_id"; "payload";
   "schema_version"]%string.

(** The test that [event_type] is an enum; the count of its symbols is
    computed for the line that is printed. *)
Definition check_enum (event_type_field : option Json) : Res bool :=
  match event_type_field with
  | Some f =>
      ty <~ py_getitem f "type" ;;
      if is_dict ty
      then
        t <~ py_get ty "type" JNull ;;
        if eq_str t "enum"
        then symbols <~ py_getitem ty "symbols" ;;
             _ <~ py_len symbols ;;
             Ok true
        else Ok false
      else Ok false
  | None => Ok false
  end.

(** The test that [payload] is a union *)
Definition check_union (payload_field : option Json) : Res bool :=
  match payload_field with
  | Some f =>
      ty <~ py_getitem f "type" ;;
      if is_list ty then (_ <~ py_len ty ;; Ok true) else Ok false
  | None => Ok false
  end.

Definition validate_raw_event_schema (schema : Json) : Res bool :=
  results <~ check_required schema raw_required_fields ;;
  event_type_field <~ next_field schema "event_type" ;;
  is_enum <~ check_enum event_type_field ;;
  let results := results ++ [(is_enum, CheckLabel "event_type enum")] in
  payload_field <~ next_field schema "payload" ;;
  is_union <~ check_union payload_field ;;
  let results := results ++ [(is_union, CheckLabel "payload union")] in
  Ok (forallb fst results).

Definition curated_required_fields : list string :=
  ["order_id"; "customer_id"; "restaurant_id"; "order_status"; "items";
   "total_amount"; "created_at"; "updated_at"; "last_event_id";
   "processing_ts"]%string.

(** The test that [items] is an array *)
Definition check_array (items_field : option Json) : Res bool :=
  match items_field with
  | Some f =>
      ty <~ py_getitem f "type" ;;
      if is_dict ty
      then t <~ py_get ty "type" JNull ;; Ok (eq_str t "array")
      else Ok false
  | None => Ok false
  end.

Definition validate_curated_schema (schema : Json) : Res bool :=
  results <~ check_required schema curated_required_fields ;;
  items_field <~ next_field schema "items" ;;
  is_array <~ check_array items_field ;;
  let results := results ++ [(is_array, CheckLabel "items array")] in
  Ok (forallb fst results).

(** The exit status of [main], given what loading each file gave
    ([None] when opening or parsing raised): an exception inside a
    [try] block makes that schema invalid. *)
Definition schema_valid (validate : Json -> Res bool) (loaded : option Json)
  : bool :=
  match loaded with
  | Some schema =>
      match validate schema with
      | Ok valid => valid
      | Err _ => false
      end
  | None => false
  end.

Definition validator_main (raw_schema curated_schema : option Json) : Z :=
  let raw_valid := schema_valid validate_raw_event_schema raw_schema in
  let curated_valid := schema_valid validate_curated_schema curated_schema in
  if raw_valid && curated_valid then 0 else 1.

(** A field that is an object with a [name] *)
Definition named_field (f : Json) : Prop :=
  ∃ d name, f = JObj d ∧ assoc "name" d = Some name.

(** The fields of a schema that carry the name [field_name] *)
Definition has_name (field_name : string) (f : Json) : Prop :=
  ∃ d, f = JObj d ∧ assoc "name" d = Some (JStr field_name).

(** The first field called [field_name] is [f]: it has that name, and
    the fields before it are objects with other names. *)
Definition first_named (fields : list Json) (field_name : string) (f : Json)
  : Prop :=
  ∃ before after,
    fields = before ++ f :: after ∧ has_name field_name f ∧
    Forall (fun g => named_field g ∧ ¬ has_name field_name g) before.

(** The [type] of a field *)
Definition field_type_is (f ty : Json) : Prop :=
  ∃ d, f = JObj d ∧ assoc "type" d = Some ty.

(** An enum type: an object with [type] ["enum"] and [symbols] that
    have a length *)
Definition enum_type (ty : Json) : Prop :=
  ∃ d symbols n, ty = JObj d ∧ assoc "type" d = Some (JStr "enum") ∧
                 assoc "symbols" d = Some symbols ∧ py_len symbols = Ok n.

Definition array_type (ty : Json) : Prop :=
  ∃ d, ty = JObj d ∧ assoc "type" d = Some (JStr "array").

(** The fields of a schema object, when [fields] is a list *)
Definition schema_fields (schema : Json) (fields : list Json) : Prop :=
  ∃ d, schema = JObj d ∧ assoc "fields" d = Some (JArr fields).

(** What [validate_raw_event_schema] asks of a schema *)
Definition raw_schema_ok (schema : Json) : Prop :=
  ∃ fields,
    schema_fields schema fields ∧
    Forall (fun name => ∃ f, first_named fields name f) raw_required_fields ∧
    (∃ f ty, first_named fields "event_type" f ∧ field_type_is f ty ∧
             enum_type ty) ∧
    (∃ f alternatives, first_named fields "payload" f ∧
                       field_type_is f (JArr alternatives)).

(** What [validate_curated_schema] asks of a schema *)
Definition curated_schema_ok (schema : Json) : Prop :=
  ∃ fields,
    schema_fields schema fields ∧
    Forall (fun name => ∃ f, first_named fields name f) curated_required_fields ∧
    (∃ f ty, first_named fields "items" f ∧ field_type_is f ty ∧ array_type ty).

(** A raw event schema for the example runs *)
Definition sample_field (name : string) (ty : Json) : Json :=
  JObj [("name"%string, JStr name); ("type"%string, ty)].

Definition sample_raw_schema : Json :=
  JObj [("type"%string, JStr "record"); ("name"%string, JStr "OrderEventRaw");
        ("fields"%string,
         JArr [sample_field "event_id" (JStr "string");
               sample_field "event_type"
                 (JObj [("type"%string, JStr "enum");
                        ("name"%string, JStr "EventType");
                        ("symbols"%string,
                         JArr [JStr "ORDER_CREATED"; JStr "ORDER_COMPLETED"])]);
               sample_field "event_ts" (JStr "long");
               sample_field "order_id" (JStr "string");
               sample_field "payload" (JArr [JStr "null"; JStr "string"]);
               sample_field "schema_version" (JStr "int")])].

(** A curated schema for the example runs *)
Definition sample_curated_schema : Json :=
  JObj [("type"%string, JStr "record"); ("name"%string, JStr "OrderCurated");
        ("fields"%string,
         JArr [sample_field "order_id" (JStr "string");
               sample_field "customer_id" (JStr "string");
               sample_field "restaurant_id" (JStr "string");
               sample_field "order_status" (JStr "string");
               sample_field "items"
                 (JObj [("type"%string, JStr "array");
                        ("items"%string, JStr "string")]);
               sample_field "total_amount" (JStr "double");
               sample_field "created_at" (JStr "long");
               sample_field "updated_at" (JStr "long");
               sample_field "last_event_id" (JStr "string");
               sample_field "processing_ts" (JStr "long")])].

(** The list under [fields], and a schema with other fields *)
Definition fields_of (schema : Json) : list Json :=
  match schema with
  | JObj d =>
      match assoc "fields" d with
      | Some (JArr fields) => fields
      | _ => []
      end
  | _ => []
  end.

Definition with_fields (fields : list Json) : Json :=
  JObj [("type"%string, JStr "record"); ("fields"%string, JArr fields)].

(** What the two loops report for what [next] finds *)
Definition presence (field_name : string) (found : option Json)
  : bool * CheckMessage :=
  match found with
  | Some _ => (true, FieldPresent field_name)
  | None => (false, FieldMissing field_name)
  end.

(** * Properties *)

(** ** The state monad and the random source *)

Lemma random_eq t : PyRandom.random t = (random_val t, next t).
Proof. reflexivity. Qed.

Lemma randbelow_eq n t : PyRandom.randbelow n t = (randbelow_val n t, next t).
Proof. reflexivity. Qed.

Lemma randint_eq a b t : PyRandom.randint a b t = (randint_val a b t, next t).
Proof. reflexivity. Qed.

Lemma uniform_eq a b t :
  PyRandom.uniform a b t = ((a + (b - a) * random_val t)%Q, next t).
Proof. reflexivity. Qed.

Lemma choice_eq {A} (d : A) seq t :
  PyRandom.choice d seq t =
  (nth (N.to_nat (randbelow_val (N.of_nat (length seq)) t)) seq d, next t).
Proof. reflexivity. Qed.

Lemma random_val_range t : (0 <= random_val t)%Q ∧ (random_val t < 1)%Q.
Proof.
  unfold random_val, run, PyRandom.random, bind, ret, draw; simpl.
  set (k := cells t (cursor t)).
  assert (Hlt : (k mod 2 ^ 53 < 2 ^ 53)%N) by (apply N.mod_lt; discriminate).
  unfold Qle, Qlt; simpl.
  change (Z.pos (2 ^ 53)) with (Z.of_N (2 ^ 53)).
  generalize dependent (k mod 2 ^ 53)%N. generalize (2 ^ 53)%N. lia.
Qed.

Lemma Qltb_true a b : Qltb a b = true ↔ (a < b)%Q.
Proof.
  unfold Qltb. rewrite negb_true_iff, <- not_true_iff_false, Qle_bool_iff.
  split; [apply Qnot_le_lt | apply Qlt_not_le].
Qed.

Lemma Qltb_false a b : Qltb a b = false ↔ (b <= a)%Q.
Proof. unfold Qltb. by rewrite negb_false_iff, Qle_bool_iff. Qed.

(** A probability of at most 0 never fires, one of at least 1 always does. *)
Lemma random_never t p : (p <= 0)%Q → Qltb (random_val t) p = false.
Proof.
  intros Hp. apply Qltb_false. destruct (random_val_range t) as [H0 _].
  by apply Qle_trans with 0%Q.
Qed.

Lemma random_always t p : (1 <= p)%Q → Qltb (random_val t) p = true.
Proof.
  intros Hp. apply Qltb_true. destruct (random_val_range t) as [_ H1].
  by apply Qlt_le_trans with 1%Q.
Qed.

Lemma randbelow_val_lt n t : (0 < n)%N → (randbelow_val n t < n)%N.
Proof.
  intros Hn. unfold randbelow_val, run, PyRandom.randbelow, bind, ret, draw; simpl.
  destruct (N.eqb_spec n 0); [lia|]. apply N.mod_lt; lia.
Qed.

Lemma randint_val_range a b t : a <= b → a <= randint_val a b t <= b.
Proof.
  intros Hab.
  assert (H := randbelow_val_lt (Z.to_N (b - a + 1)) t).
  unfold randint_val, run, PyRandom.randint, bind, ret.
  rewrite randbelow_eq; simpl. lia.
Qed.

(** ** The shuffle is a permutation *)

Lemma swap_length {A} (x : list A) i j : length (PyRandom.swap x i j) = length x.
Proof.
  unfold PyRandom.swap. destruct (x !! i), (x !! j); trivial.
  by rewrite !length_insert.
Qed.

Lemma swap_Permutation {A} (x : list A) i j : PyRandom.swap x i j ≡ₚ x.
Proof.
  unfold PyRandom.swap.
  destruct (x !! i) as [xi|] eqn:Hi; [|done].
  destruct (x !! j) as [xj|] eqn:Hj; [|done].
  assert (Hli := lookup_lt_Some _ _ _ Hi). assert (Hlj := lookup_lt_Some _ _ _ Hj).
  apply Permutation_inj. split; [by rewrite !length_insert|].
  exists (fun k => if decide (k = i) then j else if decide (k = j) then i else k).
  split.
  - intros a b. repeat case_decide; intros; subst; congruence.
  - intros k. repeat case_decide; subst.
    + destruct (decide (i = j)) as [->|Hne].
      * rewrite list_lookup_insert_eq by (rewrite length_insert; lia). congruence.
      * rewrite list_lookup_insert_ne by done.
        rewrite list_lookup_insert_eq by lia. done.
    + rewrite list_lookup_insert_eq by (rewrite length_insert; lia). done.
    + rewrite !list_lookup_insert_ne by done. done.
Qed.

Lemma shuffle_loop_Permutation {A} i (x : list A) t :
  run (PyRandom.shuffle_loop i x) t ≡ₚ x.
Proof.
  revert x t. induction i as [|i IH]; intros x t; [done|].
  unfold run in *. simpl. unfold bind at 1. rewrite randbelow_eq.
  rewrite IH. apply swap_Permutation.
Qed.

Lemma shuffle_Permutation {A} (x : list A) t : run (PyRandom.shuffle x) t ≡ₚ x.
Proof. apply shuffle_loop_Permutation. Qed.

(** ** The injector *)

Lemma per_event_step_eq self i e m l t :
  per_event_step self i e (m, l) t =
  ((m ++ dup_copies self e t, l ++ late_copies self i e t), next (next t)).
Proof.
  unfold per_event_step, bind, ret, dup_copies, late_copies, deepcopy.
  rewrite !random_eq.
  destruct (Qltb (random_val t) _); rewrite <- ?app_assoc; simpl;
    destruct (Qltb (random_val (next t)) _ && _); by rewrite ?app_nil_r.
Qed.

Lemma per_event_loop_eq self i rest m l t :
  per_event_loop self i rest (m, l) t =
  ((m ++ main_of self rest t, l ++ late_of self i rest t),
   Nat.iter (2 * length rest) next t).
Proof.
  revert i m l t. induction rest as [|e rest IH]; intros i m l t.
  - simpl. by rewrite !app_nil_r.
  - cbn [per_event_loop main_of late_of]. unfold bind at 1.
    rewrite per_event_step_eq, IH, <- !app_assoc.
    f_equal. replace (2 * length (e :: rest))%nat
      with (S (S (2 * length rest)))%nat by (simpl; lia).
    by rewrite !Nat.iter_succ_r.
Qed.

Lemma per_event_loop_main self evs t :
  (run (per_event_loop self 0 evs ([], [])) t).1 = main_of self evs t.
Proof. unfold run. by rewrite per_event_loop_eq. Qed.

Lemma dup_copies_cases self e t :
  dup_copies self e t = [e] ∨ dup_copies self e t = [e; e].
Proof. unfold dup_copies. destruct (Qltb _ _); auto. Qed.

Lemma late_copies_cases self i e t :
  late_copies self i e t = [] ∨ late_copies self i e t = [e].
Proof. unfold late_copies. destruct (_ && _); auto. Qed.

Lemma late_copies_first self e t : late_copies self 0 e t = [].
Proof. unfold late_copies. by rewrite andb_false_r. Qed.

Lemma main_of_length self rest t :
  (length rest <= length (main_of self rest t) <= 2 * length rest)%nat.
Proof.
  revert t. induction rest as [|e rest IH]; intros t; simpl; [lia|].
  specialize (IH (next (next t))). rewrite length_app.
  destruct (dup_copies_cases self e t) as [-> | ->]; simpl; lia.
Qed.

Lemma main_of_elem self rest t e : e ∈ main_of self rest t ↔ e ∈ rest.
Proof.
  revert t. induction rest as [|e' rest IH]; intros t; simpl; [done|].
  rewrite elem_of_app, IH, elem_of_cons.
  destruct (dup_copies_cases self e' t) as [-> | ->];
    rewrite ?elem_of_cons, elem_of_nil; tauto.
Qed.

Lemma late_of_sublist self i rest t : late_of self i rest t `sublist_of` rest.
Proof.
  revert i t. induction rest as [|e rest IH]; intros i t; simpl; [done|].
  destruct (late_copies_cases self i e t) as [-> | ->]; simpl.
  - by apply sublist_cons.
  - by apply sublist_skip.
Qed.

Lemma late_of_first self rest t : late_of self 0 rest t `sublist_of` tail rest.
Proof.
  destruct rest as [|e rest]; simpl; [done|].
  rewrite late_copies_first. apply late_of_sublist.
Qed.

Lemma slice_assign_spec {A} (pre w : list A) (start size : nat) :
  (start + size <= length pre)%nat → length w = size →
  let main := slice_assign pre start (start + size) w in
  length main = length pre ∧
  slice main start (start + size) = w ∧
  ∀ i : nat, (i < start ∨ start + size <= i)%nat → main !! i = pre !! i.
Proof.
  intros Hle Hw main. subst main. unfold slice_assign, slice.
  assert (Hts : length (take start pre) = start) by (rewrite length_take; lia).
  repeat split.
  - rewrite !length_app, length_take, length_drop. lia.
  - replace (start + size - start)%nat with size by lia.
    rewrite drop_app_length' by done.
    by rewrite take_app_length' by done.
  - intros i [Hi | Hi].
    + rewrite lookup_app_l by lia. by rewrite lookup_take_lt by lia.
    + rewrite lookup_app_r by lia. rewrite lookup_app_r by lia.
      rewrite lookup_drop. f_equal. lia.
Qed.

Lemma out_of_order_spec self pre t :
  let main := run (out_of_order self pre) t in
  main = pre ∨
  (Qltb (random_val t) (out_of_order_probability self) = true ∧
   (2 < length pre)%nat ∧
   ∃ start size : nat, window_shuffled pre main start size).
Proof.
  intros main. remember (out_of_order self pre t) as res eqn:Hres.
  assert (Hm : main = res.1) by (subst; reflexivity). clearbody main. subst main.
  unfold out_of_order in Hres. unfold bind at 1 in Hres.
  rewrite random_eq in Hres.
  destruct (Qltb (random_val t) _) eqn:Hp; [|left; by subst].
  destruct (Nat.ltb_spec 2 (length pre)) as [Hlen|]; [|left; by subst].
  right. split; [done|]. split; [done|]. 
  change (true && true) with true in Hres. cbv beta iota in Hres.
  unfold bind at 1 in Hres. rewrite randint_eq in Hres.
  set (size := randint_val 2 _ (next t)) in Hres.
  assert (Hsize : 2 <= size <= Z.min 5 (Z.of_nat (length pre)))
    by (apply randint_val_range; lia).
  unfold bind at 1 in Hres. rewrite randint_eq in Hres.
  set (start := randint_val 0 _ (next (next t))) in Hres.
  assert (Hstart : 0 <= start <= Z.of_nat (length pre) - size)
    by (apply randint_val_range; lia).
  unfold bind at 1 in Hres.
  set (sec := slice pre (Z.to_nat start) (Z.to_nat (start + size))) in Hres.
  assert (Hperm := shuffle_Permutation sec (next (next (next t)))).
  unfold run in Hperm.
  destruct (PyRandom.shuffle sec (next (next (next t)))) as [w t'].
  simpl in Hperm. unfold ret in Hres. subst res. simpl fst.
  exists (Z.to_nat start), (Z.to_nat size).
  replace (Z.to_nat (start + size)) with (Z.to_nat start + Z.to_nat size)%nat in *
    by lia.
  assert (Hsec : length sec = Z.to_nat size).
  { subst sec. unfold slice. rewrite length_take, length_drop. lia. }
  destruct (slice_assign_spec pre w (Z.to_nat start) (Z.to_nat size))
    as (Hl & Hs & Hout); [lia | by rewrite Hperm |].
  unfold window_shuffled. rewrite Hs.
  repeat split; try lia; try done.
  rewrite Hperm. subst sec.
  by replace (Z.to_nat (start + size)) with (Z.to_nat start + Z.to_nat size)%nat
    by lia.
Qed.

Lemma inject_edge_cases_eq self events t :
  run (inject_edge_cases self events) t =
  (run (out_of_order self (main_of self events t))
     (Nat.iter (2 * length events) next t),
   late_of self 0 events t).
Proof.
  unfold run, inject_edge_cases. unfold bind at 1.
  rewrite per_event_loop_eq. simpl app. unfold bind at 1.
  by destruct (out_of_order _ _ _).
Qed.

Lemma out_of_order_Permutation self pre t : run (out_of_order self pre) t ≡ₚ pre.
Proof.
  destruct (out_of_order_spec self pre t) as [-> | (_ & _ & start & size & Hw)];
    [done|].
  destruct Hw as (_ & Hle & Hlen & Hperm & Hout).
  set (main := run (out_of_order self pre) t) in *.
  unfold slice in Hperm.
  replace (start + size - start)%nat with size in Hperm by lia.
  rewrite <- (take_drop start main), <- (take_drop start pre).
  rewrite <- (take_drop size (drop start main)), <- (take_drop size (drop start pre)).
  rewrite Hperm. rewrite !drop_drop.
  replace (take start main) with (take start pre).
  - replace (drop (start + size) main) with (drop (start + size) pre); [done|].
    apply list_eq. intros i. rewrite !lookup_drop. symmetry. apply Hout. lia.
  - apply list_eq. intros i. destruct (decide (i < start)%nat).
    + rewrite !lookup_take_lt by done. symmetry. apply Hout. lia.
    + rewrite !lookup_take_ge by lia. done.
Qed.

Lemma main_of_never self rest t :
  (duplicate_probability self <= 0)%Q → main_of self rest t = rest.
Proof.
  intros Hp. revert t. induction rest as [|e rest IH]; intros t; simpl; [done|].
  unfold dup_copies. rewrite random_never by done. simpl. by rewrite IH.
Qed.

Lemma late_of_never self i rest t :
  (late_arrival_probability self <= 0)%Q → late_of self i rest t = [].
Proof.
  intros Hp. revert i t. induction rest as [|e rest IH]; intros i t; simpl; [done|].
  unfold late_copies. rewrite random_never by done. simpl. by rewrite IH.
Qed.

Lemma out_of_order_never self pre t :
  (out_of_order_probability self <= 0)%Q → run (out_of_order self pre) t = pre.
Proof.
  intros Hp. unfold run, out_of_order. unfold bind at 1.
  rewrite random_eq, random_never by done. reflexivity.
Qed.

Lemma main_of_indexed self rest t :
  main_of self rest t =
  mjoin (imap (fun k e => dup_copies self e (Nat.iter (2 * k) next t)) rest).
Proof.
  revert t. induction rest as [|e rest IH]; intros t; [done|].
  cbn [main_of imap mjoin list_join]. simpl Nat.iter. f_equal.
  rewrite IH. f_equal. apply imap_ext. intros k e' _. simpl. f_equal.
  replace (k + S (k + 0))%nat with (S (k + (k + 0)))%nat by lia.
  by rewrite <- Nat.iter_succ, !Nat.iter_succ_r.
Qed.

Lemma tail_sublist {A} (l : list A) : tail l `sublist_of` l.
Proof. destruct l; [done|]. by apply sublist_cons. Qed.

(** C10: [inject_edge_cases] returns a [main] at least as long as its
    input and at most twice as long, and a [late] of at most
    [max(len(events) - 1, 0)] elements; on the empty input both are
    empty. *)
Theorem inject_edge_cases_lengths self (evs : list Event) t :
  let main := (run (inject_edge_cases self evs) t).1 in
  let late := (run (inject_edge_cases self evs) t).2 in
  (length evs <= length main <= 2 * length evs)%nat ∧
  0 <= Z.of_nat (length late) <= Z.max (Z.of_nat (length evs) - 1) 0 ∧
  run (inject_edge_cases self []) t = ([], []).
Proof.
  intros main late. subst main late. rewrite !inject_edge_cases_eq. simpl.
  rewrite (Permutation_length (out_of_order_Permutation _ _ _)).
  split; [apply main_of_length|]. split.
  - assert (H := sublist_length _ _ (late_of_first self evs t)).
    destruct evs; simpl in *; lia.
  - f_equal. apply Permutation_nil_r. apply (out_of_order_Permutation self []).
Qed.

(** C4: by [event_id], [late] is a sub-multiset of the input; every
    [event_id] of [late] occurs in [main]; and [late] is drawn, in
    order, from the input without its first event, so that the first
    input event is never the origin of a late copy (and, when the
    input's ids are distinct, its id is not in [late] at all). *)
Theorem inject_edge_cases_late self (evs : list Event) t :
  let main := (run (inject_edge_cases self evs) t).1 in
  let late := (run (inject_edge_cases self evs) t).2 in
  event_id <$> late ⊆+ event_id <$> evs ∧
  (∀ id, id ∈ event_id <$> late → id ∈ event_id <$> main) ∧
  late `sublist_of` tail evs ∧
  (NoDup (event_id <$> evs) →
   ∀ first, head evs = Some first → event_id first ∉ event_id <$> late).
Proof.
  intros main late. subst main late. rewrite !inject_edge_cases_eq. simpl.
  assert (Hsub := late_of_first self evs t).
  assert (Hsub' : late_of self 0 evs t `sublist_of` evs)
    by (etrans; [done | apply tail_sublist]).
  split; [by apply fmap_submseteq, sublist_submseteq|].
  split; [|split; [done|]].
  - intros id (e & -> & He)%list_elem_of_fmap. apply list_elem_of_fmap_2.
    rewrite (out_of_order_Permutation self). apply main_of_elem.
    eapply elem_of_submseteq; [done | by apply sublist_submseteq].
  - intros Hnd first Hhd Hin. destruct evs as [|e0 rest]; [done|].
    simpl in Hhd, Hsub, Hnd. injection Hhd as ->.
    apply NoDup_cons in Hnd as [Hnotin _]. apply Hnotin.
    eapply elem_of_submseteq; [done|].
    by apply fmap_submseteq, sublist_submseteq.
Qed.

(** The claim's theorem at a two-event input whose second event is
    scheduled for late arrival. *)
Lemma inject_edge_cases_late_witness :
  let e1 := {| event_id := "a"; event_type := ORDER_CREATED; event_ts := 1;
               order_id := "o"; payload := OrderItemRemovedPayload "x";
               schema_version := 1 |} in
  let e2 := {| event_id := "b"; event_type := ORDER_CANCELLED; event_ts := 2;
               order_id := "o"; payload := OrderItemRemovedPayload "y";
               schema_version := 1 |} in
  let self := {| duplicate_probability := 0%Q; out_of_order_probability := 0%Q;
                 late_arrival_probability := 1%Q |} in
  (run (inject_edge_cases self [e1; e2]) (tape_of [])).2 = [e2] ∧
  event_id e1 ∉ event_id <$> (run (inject_edge_cases self [e1; e2]) (tape_of [])).2.
Proof.
  intros e1 e2 self. split; [reflexivity|].
  apply (inject_edge_cases_late self [e1; e2] (tape_of [])) with (first := e1);
    [|reflexivity].
  apply (bool_decide_unpack _). vm_compute. exact I.
Defined.

(** C5: the loop body appends the event to [main] twice, the copy right
    after the original and equal to it in every field, when the draw of
    [random.random()] (uniform on [0, 1)) is below [p_dup], and once
    otherwise; over the whole loop, [main] is the concatenation of these
    one or two copies in input order, the event at index [k] being
    decided by draw [2k]; and for a single event with [p_dup = 1],
    [p_late = 0] and [p_oo = 0] the result is two copies of the event in
    [main] and an empty [late]. *)
Theorem duplicate_policy self :
  (∀ i event main late t,
     (run (per_event_step self i event (main, late)) t).1 =
     main ++ (if Qltb (random_val t) (duplicate_probability self)
              then [event; event] else [event])) ∧
  (∀ evs t,
     (run (per_event_loop self 0 evs ([], [])) t).1 =
     mjoin (imap (fun k event =>
                    if Qltb (random_val (Nat.iter (2 * k) next t))
                         (duplicate_probability self)
                    then [event; event] else [event]) evs)) ∧
  (∀ event t,
     run (inject_edge_cases only_duplicates [event]) t = ([event; event], [])).
Proof.
  split; [|split].
  - intros. unfold run. by rewrite per_event_step_eq.
  - intros. rewrite per_event_loop_main. apply main_of_indexed.
  - intros. rewrite inject_edge_cases_eq.
    rewrite late_of_never by done. rewrite out_of_order_never by done.
    simpl. unfold dup_copies. by rewrite random_always by done.
Qed.

(** C6: the out-of-order block is applied once, to the [main] that the
    loop built.  It leaves [main] as it is when [main] has at most 2
    elements; otherwise either nothing changes or there is one window
    [start, start + size), with [2 <= size <= min(5, len(main))] and
    [start + size <= len(main)], inside which the elements are
    permuted, while every position outside the window keeps its
    element. *)
Theorem out_of_order_window self (evs : list Event) t :
  let pre := (run (per_event_loop self 0 evs ([], [])) t).1 in
  let main := (run (inject_edge_cases self evs) t).1 in
  main = pre ∨
  ((2 < length pre)%nat ∧ ∃ start size : nat, window_shuffled pre main start size).
Proof.
  intros pre main. subst pre main.
  rewrite per_event_loop_main, inject_edge_cases_eq. simpl.
  destruct (out_of_order_spec self (main_of self evs t)
              (Nat.iter (length evs + (length evs + 0)) next t))
    as [Heq | (_ & Hlen & Hw)]; [by left | by right].
Qed.

(** C7, as the code has it: on three events with [p_dup = 0],
    [p_late = 0], [p_oo = 1] and a window of size 2 at offset 0, the
    third element of [main] stays in place and the first two are
    swapped exactly when the shuffle's own draw picks index 0; when it
    picks index 1 they stay as they were.  [late] is empty. *)
Theorem out_of_order_example (e1 e2 e3 : Event) t :
  window_forced t →
  run (inject_edge_cases only_out_of_order [e1; e2; e3]) t =
  (if (randbelow_val 2 (Nat.iter 9 next t) =? 0)%N
   then [e2; e1; e3] else [e1; e2; e3], []).
Proof.
  intros [Hsize Hstart]. rewrite inject_edge_cases_eq.
  rewrite main_of_never, late_of_never by done. f_equal.
  simpl Nat.iter in *. unfold run, out_of_order. unfold bind at 1.
  rewrite random_eq, random_always by done.
  change (length [e1; e2; e3]) with 3%nat.
  change (true && (2 <? 3)%nat) with true. cbv beta iota.
  unfold bind at 1. rewrite randint_eq.
  change (Z.min 5 (Z.of_nat 3)) with 3. rewrite Hsize.
  unfold bind at 1. rewrite randint_eq.
  change (Z.of_nat 3 - 2) with 1. rewrite Hstart.
  change (slice [e1; e2; e3] (Z.to_nat 0) (Z.to_nat (0 + 2))) with [e1; e2].
  unfold bind at 1. unfold PyRandom.shuffle.
  change (length [e1; e2] - 1)%nat with 1%nat. cbn [PyRandom.shuffle_loop].
  unfold bind at 1. rewrite randbelow_eq.
  change (N.of_nat 2) with 2%N.
  set (j := randbelow_val 2 _).
  assert (Hj : (j < 2)%N) by (apply randbelow_val_lt; lia).
  assert (Hcases : j = 0%N ∨ j = 1%N) by lia.
  destruct Hcases as [-> | ->]; reflexivity.
Qed.

Lemma out_of_order_example_witness :
  window_forced (tape_of []) ∧
  run (inject_edge_cases only_out_of_order [ev_a; ev_b; ev_c]) (tape_of []) =
  ([ev_b; ev_a; ev_c], []).
Proof.
  assert (H : window_forced (tape_of [])) by (split; vm_compute; reflexivity).
  split; [exact H|].
  exact (out_of_order_example ev_a ev_b ev_c (tape_of []) H).
Defined.

(** C7 fails as stated: with the window forced to size 2 at offset 0,
    a shuffle draw of 1 leaves the first two elements in input order. *)
Lemma out_of_order_example_not_swapped :
  let t := tape_of [0; 0; 0; 0; 0; 0; 0; 0; 0; 1]%N in
  let main := (run (inject_edge_cases only_out_of_order [ev_a; ev_b; ev_c]) t).1 in
  window_forced t ∧ main = [ev_a; ev_b; ev_c] ∧ main ≠ [ev_b; ev_a; ev_c].
Proof.
  split; [split; vm_compute; reflexivity|].
  split; [vm_compute; reflexivity|].
  vm_compute. discriminate.
Qed.

(** ** Rounding, time and money *)

Lemma round_half_even_bounds q (lo hi : Z) :
  (inject_Z lo <= q)%Q → (q <= inject_Z hi)%Q → lo <= round_half_even q <= hi.
Proof.
  intros Hlo Hhi.
  assert (Hf1 : lo <= Qfloor q)
    by (rewrite <- (Qfloor_Z lo); by apply Qfloor_resp_le).
  assert (Hf2 : Qfloor q <= hi)
    by (rewrite <- (Qfloor_Z hi); by apply Qfloor_resp_le).
  assert (Hup : (1 # 2 <= q - inject_Z (Qfloor q))%Q → Qfloor q + 1 <= hi).
  { intros Hhalf. destruct (decide (Qfloor q = hi)) as [Heq|]; [|lia].
    rewrite Heq in Hhalf. lra. }
  unfold round_half_even.
  destruct (Qcompare _ _) eqn:Hc.
  - apply Qeq_alt in Hc. destruct (Z.even _); [lia|].
    split; [lia|]. apply Hup. rewrite Hc. apply Qle_refl.
  - lia.
  - apply Qgt_alt in Hc. split; [lia|]. apply Hup. by apply Qlt_le_weak.
Qed.

Lemma uniform_range (a b r : Q) :
  (a <= b)%Q → (0 <= r)%Q → (r <= 1)%Q →
  (a <= a + (b - a) * r)%Q ∧ (a + (b - a) * r <= b)%Q.
Proof. intros. split; nra. Qed.

Lemma uniform_val_range a b t :
  (a <= b)%Q →
  (a <= (a + (b - a) * random_val t))%Q ∧ ((a + (b - a) * random_val t) <= b)%Q.
Proof.
  intros Hab. destruct (random_val_range t) as [H0 H1].
  apply uniform_range; [done | done | by apply Qlt_le_weak].
Qed.

Lemma scaled_uniform_bounds (lo hi scale : Z) a b t :
  (a <= b)%Q → 0 <= scale →
  (inject_Z lo <= a * inject_Z scale)%Q → (b * inject_Z scale <= inject_Z hi)%Q →
  lo <= round_half_even ((a + (b - a) * random_val t) * inject_Z scale) <= hi.
Proof.
  intros Hab Hs Hlo Hhi. destruct (uniform_val_range a b t Hab) as [H1 H2].
  assert (Hs' : (0 <= inject_Z scale)%Q)
    by (change 0%Q with (inject_Z 0); by rewrite <- Zle_Qle).
  apply round_half_even_bounds.
  - eapply Qle_trans; [exact Hlo|]. by apply Qmult_le_compat_r.
  - eapply Qle_trans; [|exact Hhi]. by apply Qmult_le_compat_r.
Qed.

(** *** Floats and time stamps *)

Lemma round_half_even_near q :
  (q - (1 # 2) <= inject_Z (round_half_even q))%Q ∧
  (inject_Z (round_half_even q) <= q + (1 # 2))%Q.
Proof.
  assert (Hlo := Qfloor_le q). assert (Hhi := Qlt_floor q).
  rewrite inject_Z_plus in Hhi. change (inject_Z 1) with 1%Q in Hhi.
  unfold round_half_even. destruct (Qcompare _ _) eqn:Hc.
  - apply Qeq_alt in Hc. destruct (Z.even _).
    + split; lra.
    + rewrite inject_Z_plus. change (inject_Z 1) with 1%Q. split; lra.
  - apply Qlt_alt in Hc. split; lra.
  - apply Qgt_alt in Hc. rewrite inject_Z_plus. change (inject_Z 1) with 1%Q.
    split; lra.
Qed.

Lemma Qpower2_pos e : (0 < Qpower (inject_Z 2) e)%Q.
Proof. by apply Qpower_0_lt. Qed.

Lemma Qpower2_plus a b :
  (Qpower (inject_Z 2) (a + b) == Qpower (inject_Z 2) a * Qpower (inject_Z 2) b)%Q.
Proof. by apply Qpower_plus. Qed.

Lemma Qlog2_lower q : (0 < q)%Q → (Qpower (inject_Z 2) (Qlog2 q) <= q)%Q.
Proof.
  intros Hq. unfold Qlog2.
  destruct (Qle_bool _ _) eqn:Hb.
  - apply Qle_bool_iff in Hb. rewrite Qabs_pos in Hb; [done|].
    by apply Qlt_le_weak.
  - clear Hb. destruct q as [n d]. cbn [Qnum Qden].
    assert (Hn : 0 < n) by (unfold Qlt in Hq; cbn [Qnum Qden] in Hq; lia).
    rewrite (Z.abs_eq n) by lia.
    set (ln := Z.log2 n). set (ld := Z.log2 (Z.pos d)).
    assert (Hln : 2 ^ ln <= n) by (apply Z.log2_spec; lia).
    assert (Hld : Z.pos d < 2 ^ (ld + 1)).
    { change (ld + 1) with (Z.succ ld). apply Z.log2_spec. lia. }
    assert (H0ln : 0 <= ln) by apply Z.log2_nonneg.
    assert (H0ld : 0 <= ld) by apply Z.log2_nonneg.
    rewrite (Qmake_Qdiv n d). apply Qle_shift_div_l.
    { change 0%Q with (inject_Z 0). rewrite <- Zlt_Qlt. lia. }
    apply Qle_trans with (Qpower (inject_Z 2) (ln - ld - 1) *
                          Qpower (inject_Z 2) (ld + 1))%Q.
    + apply Qmult_le_l; [apply Qpower2_pos|].
      rewrite <- Zpower_Qpower by lia. rewrite <- Zle_Qle. lia.
    + rewrite <- Qpower2_plus. replace (ln - ld - 1 + (ld + 1)) with ln by lia.
      rewrite <- Zpower_Qpower by lia. by rewrite <- Zle_Qle.
Qed.

(** One rounding moves a positive number by at most [2^-53] of it. *)
Lemma float_of_Q_bounds q :
  (0 <= q)%Q →
  (q * (1 - float_eps) <= float_of_Q q)%Q ∧ (float_of_Q q <= q * (1 + float_eps))%Q.
Proof.
  intros Hq. unfold float_of_Q. destruct (Qeq_bool _ _) eqn:Hz.
  - apply Qeq_bool_iff in Hz. change (inject_Z 0) with 0%Q in *.
    unfold float_eps. split; lra.
  - apply Qeq_bool_neq in Hz. change (inject_Z 0) with 0%Q in Hz.
    assert (Hpos : (0 < q)%Q).
    { destruct (Qlt_le_dec 0 q) as [|Hle]; [done|]. destruct Hz. lra. }
    rewrite Qred_correct.
    set (quantum := Qpower (inject_Z 2) (Qlog2 q - 52)).
    assert (Hquantum : (0 < quantum)%Q) by apply Qpower2_pos.
    assert (Hlow : (quantum * inject_Z (2 ^ 52) <= q)%Q).
    { eapply Qle_trans; [|by apply Qlog2_lower].
      rewrite Zpower_Qpower by lia. unfold quantum. rewrite <- Qpower2_plus.
      replace (Qlog2 q - 52 + 52) with (Qlog2 q) by lia. apply Qle_refl. }
    destruct (round_half_even_near (q / quantum)) as [Hn1 Hn2].
    assert (Hy : (q / quantum * quantum == q)%Q).
    { field. lra. }
    set (y := (q / quantum)%Q) in *.
    set (R := inject_Z (round_half_even y)) in *.
    change (inject_Z (2 ^ 52)) with (Qmake 4503599627370496 1) in Hlow.
    unfold float_eps.
    split; nra.
Qed.

Lemma int_of_float_bounds x :
  (0 <= x)%Q →
  (inject_Z (int_of_float x) <= x)%Q ∧ (x < inject_Z (int_of_float x) + 1)%Q.
Proof.
  intros Hx. assert (Heq : int_of_float x = Qfloor x).
  { destruct x as [n d]. unfold int_of_float, Qfloor. cbn [Qnum Qden].
    apply Z.quot_div_nonneg; [|lia]. unfold Qle in Hx. simpl in Hx. lia. }
  rewrite Heq. split; [apply Qfloor_le|].
  assert (H := Qlt_floor x). rewrite inject_Z_plus in H. exact H.
Qed.

Lemma local_to_seconds_steady {zone : LocalTime} off dt t :
  steady off dt →
  dt `div` 1000000 - 43201 <= t <= dt `div` 1000000 + 43201 →
  local_to_seconds t = t - off.
Proof.
  intros (Hoff & Hrange & Hzone) Ht. unfold local_to_seconds, max_fold_seconds.
  assert (H1 : localtime t = t + off) by (apply Hzone; lia).
  assert (H2 : localtime (t - off) = t).
  { rewrite Hzone by lia. lia. }
  assert (H3 : localtime (t - off - 24 * 3600) = t - 24 * 3600).
  { rewrite Hzone by lia. lia. }
  rewrite H1. replace (t + off - t) with off by lia.
  cbv zeta. rewrite H2, H3, Z.eqb_refl.
  replace (t - 24 * 3600 - (t - off - 24 * 3600)) with off by lia.
  by rewrite Z.eqb_refl.
Qed.

(** Where the zone is steady, the time stamp in milliseconds is the
    UTC time within a millisecond and an eighth. *)
Lemma timestamp_millis_steady {zone : LocalTime} off dt t :
  steady off dt →
  dt - 43200000000 <= t <= dt + 43200000000 →
  t - off * 1000000 - 1125 < 1000 * timestamp_millis t <= t - off * 1000000 + 125.
Proof.
  intros Hsteady Ht. unfold timestamp_millis, datetime_timestamp.
  assert (Hs : dt `div` 1000000 - 43201 <= t `div` 1000000
               <= dt `div` 1000000 + 43201).
  { Z.div_mod_to_equations. lia. }
  rewrite (local_to_seconds_steady off dt) by done.
  destruct Hsteady as (Hoff & Hrange & _).
  assert (Hus : 0 <= t `mod` 1000000 < 1000000) by (apply Z.mod_pos_bound; lia).
  assert (Ht' : t = 1000000 * (t `div` 1000000) + t `mod` 1000000)
    by (apply Z.div_mod; lia).
  set (s := t `div` 1000000) in *. set (us := t `mod` 1000000) in *.
  assert (Hs0 : 0 <= s - off < 2 ^ 38) by lia.
  assert (HS0 : (0 <= inject_Z (s - off))%Q).
  { change 0%Q with (inject_Z 0). rewrite <- Zle_Qle. lia. }
  assert (HS1 : (inject_Z (s - off) <= inject_Z (2 ^ 38))%Q).
  { rewrite <- Zle_Qle. lia. }
  assert (HU0 : (0 <= inject_Z us)%Q).
  { change 0%Q with (inject_Z 0). rewrite <- Zle_Qle. lia. }
  assert (HU1 : (inject_Z us <= inject_Z 1000000)%Q).
  { rewrite <- Zle_Qle. lia. }
  change (inject_Z (2 ^ 38)) with (Qmake 274877906944 1) in HS1.
  change (inject_Z 1000000) with (Qmake 1000000 1) in *.
  change (inject_Z 1000) with (Qmake 1000 1).
  set (S := inject_Z (s - off)) in *. set (U := inject_Z us) in *.
  assert (Hc : (U / (1000000 # 1) == U * (1 # 1000000))%Q) by field.
  set (c := (U / (1000000 # 1))%Q) in *.
  destruct (float_of_Q_bounds c) as [Ha1 Ha2]; [lra|].
  set (x1 := float_of_Q c) in *.
  unfold float_eps in *.
  destruct (float_of_Q_bounds (S + x1)) as [Hb1 Hb2]; [lra|].
  set (x2 := float_of_Q (S + x1)) in *.
  unfold float_eps in *.
  destruct (float_of_Q_bounds (x2 * (1000 # 1))) as [Hc1 Hc2]; [lra|].
  set (x3 := float_of_Q (x2 * (1000 # 1))) in *.
  unfold float_eps in *.
  destruct (int_of_float_bounds x3) as [Hi1 Hi2]; [lra|].
  set (ms := int_of_float x3) in *.
  assert (HQ : (inject_Z (t - off * 1000000) ==
                (1000000 # 1) * S + U)%Q).
  { unfold S, U. rewrite <- (inject_Z_mult 1000000), <- inject_Z_plus.
    apply inject_Z_injective. lia. }
  split.
  - cut (t - off * 1000000 < 1000 * ms + 1125); [lia|].
    rewrite Zlt_Qlt, inject_Z_plus, inject_Z_mult, HQ.
    change (inject_Z 1125) with (Qmake 1125 1).
    change (inject_Z 1000) with (Qmake 1000 1). lra.
  - rewrite Zle_Qle, inject_Z_plus, inject_Z_mult, HQ.
    change (inject_Z 125) with (Qmake 125 1).
    change (inject_Z 1000) with (Qmake 1000 1). lra.
Qed.

(** ** The generator: what one payload construction does *)

Lemma sum_items_pos L : Forall item_pos L → L ≠ [] → 0 < sum_items L.
Proof.
  intros Hpos. induction Hpos as [|item L [Hp Hq] _ IH]; [done|]. intros _.
  simpl. assert (0 <= sum_items L).
  { destruct L; [simpl; lia|]. assert (0 < sum_items (i :: L)) by by apply IH. lia. }
  nia.
Qed.

Lemma list_remove_split (x : Item) (l : list Item) :
  x ∈ l → ∃ L1 L2, l = L1 ++ x :: L2 ∧ list_remove x l = L1 ++ L2.
Proof.
  induction l as [|y l IH]; [by intros ?%elem_of_nil|].
  intros Hin. simpl. destruct (decide (y = x)) as [->|Hne].
  - by exists [], l.
  - apply elem_of_cons in Hin as [->|Hin]; [done|].
    destruct (IH Hin) as (L1 & L2 & -> & ->). by exists (y :: L1), L2.
Qed.

Lemma nth_elem_of {A} (j : nat) (first : A) (rest : list A) :
  nth j (first :: rest) first ∈ first :: rest.
Proof.
  destruct (nth_in_or_default j (first :: rest) first) as [Hin | ->].
  - by apply list_elem_of_In.
  - apply list_elem_of_here.
Qed.

Lemma price_bounds t :
  599 <= round2 ((Qmake 599 100) + ((Qmake 2999 100) - (Qmake 599 100)) * random_val t)
      <= 2999.
Proof. apply scaled_uniform_bounds; unfold Qle; simpl; lia. Qed.

Lemma fallback_bounds t :
  1599 <= round2 ((Qmake 1599 100) + ((Qmake 9999 100) - (Qmake 1599 100)) * random_val t)
       <= 9999.
Proof. apply scaled_uniform_bounds; unfold Qle; simpl; lia. Qed.

Lemma gap_bounds t :
  1000000 <= timedelta_seconds (inject_Z 1 + (inject_Z 30 - inject_Z 1) * random_val t)
          <= 30000000.
Proof. apply scaled_uniform_bounds; unfold Qle; simpl; lia. Qed.

Ltac run_payload :=
  unfold _create_payload, faker_uuid4, faker_word, with_random, with_faker,
    get_items, set_items;
  repeat (unfold bind at 1;
          rewrite ?choice_eq, ?randint_eq, ?uniform_eq;
          unfold draw, ret; cbv beta iota;
          cbn [py_random faker_random os_entropy order_items]).

Lemma create_payload_spec {zone : LocalTime} words ty oid cid rid st ts w L :
  order_items w !! oid = Some L → Forall item_pos L →
  ∃ p w' L', _create_payload words ty oid cid rid st ts w = (p, w') ∧
    os_entropy w' = os_entropy w ∧
    delete oid (order_items w') = delete oid (order_items w) ∧
    order_items w' !! oid = Some L' ∧ Forall item_pos L' ∧
    payload_step ty st ts L p L'.
Proof.
  intros HL Hpos. destruct ty.
  - (* ORDER_CREATED *)
    run_payload. eexists _, _, L. repeat split; eauto.
  - (* ORDER_ITEM_ADDED *)
    run_payload. rewrite HL. cbn [default id].
    eexists _, _, _. split; [reflexivity|]. cbn [os_entropy order_items].
    assert (Hitem : ∀ i n, 1 <= randint_val 1 5 (next (py_random w)) →
      item_pos {| item_id := i; item_name := n;
                  quantity := randint_val 1 5 (next (py_random w));
                  price := round2 (Qmake 599 100 + (Qmake 2999 100 - Qmake 599 100)
                             * random_val (next (next (py_random w)))) |}).
    { intros. split; simpl; [apply price_bounds | done]. }
    assert (Hq := randint_val_range 1 5 (next (py_random w)) ltac:(lia)).
    split; [done|]. split; [by rewrite delete_insert_eq|].
    split; [by rewrite lookup_insert_eq|].
    split.
    + apply Forall_app. split; [done|]. apply Forall_singleton, Hitem. lia.
    + eexists. split; [reflexivity|]. split; [reflexivity|]. apply Hitem. lia.
  - (* ORDER_ITEM_REMOVED *)
    run_payload. rewrite HL. cbn [default id].
    destruct L as [|first rest].
    + eexists _, _, []. split; [reflexivity|]. cbn [os_entropy order_items].
      repeat split; eauto. left. eauto.
    + rewrite choice_eq. cbv beta iota.
      cbn [py_random faker_random os_entropy order_items].
      set (removed := nth _ (first :: rest) first).
      destruct (list_remove_split removed (first :: rest)) as (L1 & L2 & HL12 & Hrm);
        [apply nth_elem_of|].
      eexists _, _, (L1 ++ L2). split; [reflexivity|].
      cbn [os_entropy order_items]. rewrite Hrm.
      split; [done|]. split; [by rewrite delete_insert_eq|].
      split; [by rewrite lookup_insert_eq|]. split.
      * rewrite HL12 in Hpos. apply Forall_app in Hpos as [H1 H2].
        apply Forall_cons in H2 as [_ H2]. by apply Forall_app.
      * right. by exists L1, removed, L2.
  - (* ORDER_UPDATED *)
    run_payload. eexists _, _, L. split; [reflexivity|].
    repeat split; eauto. eexists. split; [reflexivity|].
    destruct (N.to_nat _) as [|[|[|?]]]; simpl; auto.
  - (* ORDER_CONFIRMED *)
    run_payload. eexists _, _, L. repeat split; eauto.
  - (* ORDER_CANCELLED *)
    run_payload. eexists _, _, L. repeat split; eauto.
  - (* ORDER_COMPLETED *)
    run_payload. rewrite HL. cbn [default id].
    destruct (Z.eqb_spec (sum_items L) 0) as [Hz|Hnz].
    + rewrite uniform_eq. cbv beta iota.
      eexists _, _, L. split; [reflexivity|].
      cbn [os_entropy order_items]. repeat split; eauto.
      eexists. split; [reflexivity|]. split.
      * intros Hne. assert (0 < sum_items L) by by apply sum_items_pos. lia.
      * intros _. apply fallback_bounds.
    + eexists _, _, L. split; [reflexivity|]. repeat split; eauto.
      eexists. split; [reflexivity|]. split; [done|].
      intros ->. by simpl in Hnz.
Qed.

(** ** The ledger read off the events *)

Lemma added_ids_snoc evs e :
  added_ids (evs ++ [e]) =
  added_ids evs ++ match payload e with
                   | OrderItemAddedPayload item => [item_id item]
                   | _ => []
                   end.
Proof. unfold added_ids. rewrite bind_app. simpl. by rewrite app_nil_r. Qed.

Lemma Remaining_added_ids evs L :
  Remaining evs L → item_id <$> L ⊆+ added_ids evs.
Proof.
  induction 1 as [|evs e item L _ IH Hp|evs e L1 item L2 _ IH Hp
                  |evs e id L _ IH Hp _|evs e L _ IH Hadd Hrem];
    rewrite ?added_ids_snoc.
  - done.
  - rewrite Hp, fmap_app. by apply submseteq_app.
  - rewrite Hp, app_nil_r. etrans; [|exact IH].
    rewrite !fmap_app, fmap_cons. apply submseteq_app; [done|].
    by apply submseteq_cons.
  - by rewrite Hp, app_nil_r.
  - etrans; [exact IH|]. by apply submseteq_inserts_r.
Qed.

Lemma NoDup_of_submseteq {A} (l k : list A) : l ⊆+ k → NoDup k → NoDup l.
Proof.
  intros (k' & Hk)%submseteq_Permutation Hnd. rewrite Hk in Hnd.
  by apply NoDup_app in Hnd as (? & _ & _).
Qed.

Lemma remove_by_id_absent id L :
  (∀ item, item ∈ L → item_id item ≠ id) → remove_by_id id L = L.
Proof.
  induction L as [|x L IH]; intros Habs; [done|]. simpl.
  destruct (decide (item_id x = id)) as [Heq|_].
  - exfalso. by apply (Habs x); [apply list_elem_of_here|].
  - f_equal. apply IH. intros item Hin. apply Habs. by apply list_elem_of_further.
Qed.

Lemma remove_by_id_middle L1 item L2 :
  NoDup (item_id <$> (L1 ++ item :: L2)) →
  remove_by_id (item_id item) (L1 ++ item :: L2) = L1 ++ L2.
Proof.
  induction L1 as [|x L1 IH]; simpl; intros Hnd.
  - by rewrite decide_True.
  - apply NoDup_cons in Hnd as [Hx Hnd].
    rewrite decide_False; [by rewrite IH|].
    intros Heq. apply Hx. rewrite Heq.
    apply list_elem_of_fmap_2, elem_of_app. right. apply list_elem_of_here.
Qed.

Lemma Remaining_unique evs L :
  NoDup (added_ids evs) → Remaining evs L → L = remaining evs.
Proof.
  intros Hnd Hrem. unfold remaining.
  induction Hrem as [|evs e item L Hrem IH Hp|evs e L1 item L2 Hrem IH Hp
                     |evs e id L Hrem IH Hp Habs|evs e L Hrem IH Hadd Hrm];
    [done|..]; rewrite foldl_snoc; unfold ledger_step at 1;
    rewrite added_ids_snoc in Hnd; apply NoDup_app in Hnd as (Hnd & _ & _).
  - by rewrite Hp, <- IH.
  - rewrite Hp, <- IH by done. symmetry. apply remove_by_id_middle.
    eapply NoDup_of_submseteq; [by apply Remaining_added_ids|done].
  - rewrite Hp, <- IH by done. symmetry. by apply remove_by_id_absent.
  - rewrite <- IH by done.
    destruct (payload e) eqn:Hpe; try done; [by destruct (Hadd item)|].
    by destruct (Hrm removed_item_id).
Qed.

(** ** The generator: one iteration of the loop *)

Lemma lifecycle_step_spec {zone : LocalTime} words oid cid rid ty l w L :
  order_items w !! oid = Some L → Forall item_pos L →
  ∃ p gap w' L',
    lifecycle_step words oid cid rid ty l w =
      ({| emitted :=
            emitted l ++
            [{| event_id := uuid_str (cells (os_entropy w) (cursor (os_entropy w)));
                event_type := ty;
                event_ts := timestamp_millis (current_ts l + gap);
                order_id := oid; payload := p; schema_version := 1 |}];
          current_ts := current_ts l + gap;
          current_status := status_after ty (current_status l) |}, w') ∧
    1000000 <= gap <= 30000000 ∧
    os_entropy w' = next (os_entropy w) ∧
    delete oid (order_items w') = delete oid (order_items w) ∧
    order_items w' !! oid = Some L' ∧ Forall item_pos L' ∧
    payload_step ty (current_status l) (current_ts l + gap) L p L'.
Proof.
  intros HL Hpos. unfold lifecycle_step. unfold bind at 1.
  unfold with_random. rewrite uniform_eq. cbv beta iota.
  set (gap := timedelta_seconds _).
  set (w1 := {| py_random := next (py_random w); faker_random := faker_random w;
                os_entropy := os_entropy w; order_items := order_items w |}).
  unfold bind at 1. unfold _create_event. unfold bind at 1.
  unfold uuid4, with_entropy. unfold bind at 1. unfold draw, ret. cbv beta iota.
  cbn [py_random faker_random os_entropy order_items].
  set (w2 := {| py_random := py_random w1; faker_random := faker_random w1;
                os_entropy := _; order_items := order_items w1 |}).
  destruct (create_payload_spec words ty oid cid rid (current_status l)
              (current_ts l + gap) w2 L HL Hpos)
    as (p & w' & L' & Heq & Hent & Hdel & HL' & Hpos' & Hstep).
  unfold bind at 1. rewrite Heq.
  exists p, gap, w', L'. split.
  - reflexivity.
  - split; [apply gap_bounds|]. by rewrite Hent, Hdel.
Qed.

Lemma Remaining_step {zone : LocalTime} evs e ty st ts L L' :
  Remaining evs L → payload_step ty st ts L (payload e) L' →
  Remaining (evs ++ [e]) L'.
Proof.
  intros Hrem Hstep. destruct ty; simpl in Hstep.
  - destruct Hstep as (-> & c & r & Hp).
    apply Remaining_other; [done | |]; intros ?; by rewrite Hp.
  - destruct Hstep as (item & Hp & -> & _). by apply Remaining_added.
  - destruct Hstep as [(-> & -> & id & Hp) | (L1 & item & L2 & -> & -> & Hp)].
    + apply Remaining_absent with id; [done | done |]. by intros item ?%elem_of_nil.
    + by apply Remaining_removed with item.
  - destruct Hstep as (-> & new & Hp & _).
    apply Remaining_other; [done | |]; intros ?; by rewrite Hp.
  - destruct Hstep as (-> & by_ & ets & Hp).
    apply Remaining_other; [done | |]; intros ?; by rewrite Hp.
  - destruct Hstep as (-> & by_ & reason & Hp).
    apply Remaining_other; [done | |]; intros ?; by rewrite Hp.
  - destruct Hstep as (-> & total & Hp & _).
    apply Remaining_other; [done | |]; intros ?; by rewrite Hp.
Qed.

Lemma payload_step_completed {zone : LocalTime} ty st ts L p L' cts total :
  payload_step ty st ts L p L' → p = OrderCompletedPayload cts total →
  ty = ORDER_COMPLETED.
Proof.
  intros Hstep ->. destruct ty; simpl in Hstep; [| | | | | |reflexivity];
    repeat match goal with
           | H : _ ∧ _ |- _ => destruct H
           | H : ∃ _, _ |- _ => destruct H
           | H : _ ∨ _ |- _ => destruct H
           end; discriminate.
Qed.

Lemma lifecycle_loop_cons {zone : LocalTime} words oid cid rid ty steps l w :
  lifecycle_loop words oid cid rid (ty :: steps) l w =
  lifecycle_loop words oid cid rid steps
    (run (lifecycle_step words oid cid rid ty l) w)
    (exec (lifecycle_step words oid cid rid ty l) w).
Proof.
  cbn [lifecycle_loop]. unfold bind at 1. unfold run, exec.
  by destruct (lifecycle_step words oid cid rid ty l w).
Qed.

(** An invariant of the loop body is an invariant of the loop. *)
Lemma lifecycle_loop_ind {zone : LocalTime} words oid cid rid (P : Locals → World → Prop) :
  (∀ ty l w, P l w →
     P (run (lifecycle_step words oid cid rid ty l) w)
       (exec (lifecycle_step words oid cid rid ty l) w)) →
  ∀ steps l w, P l w →
    P (run (lifecycle_loop words oid cid rid steps l) w)
      (exec (lifecycle_loop words oid cid rid steps l) w).
Proof.
  intros Hstep steps. induction steps as [|ty steps IH]; intros l w HP; [done|].
  unfold run, exec. rewrite lifecycle_loop_cons. by apply IH, Hstep.
Qed.

Lemma choices_elem {A} (d : A) population weights t :
  d ∈ population → run (PyRandom.choices d population weights) t ∈ population.
Proof.
  intros Hd. unfold run, PyRandom.choices. unfold bind at 1.
  rewrite random_eq. unfold ret. cbn [fst].
  match goal with |- nth ?n _ _ ∈ _ =>
    destruct (nth_in_or_default n population d) as [Hin | ->] end.
  - by apply list_elem_of_In.
  - done.
Qed.

(** The prologue of [generate_order_lifecycle], before the loop *)
Lemma generate_order_lifecycle_eq {zone : LocalTime} words oid base w :
  ∃ pattern cid rid w1,
    pattern ∈ ORDER_PATTERNS ∧
    os_entropy w1 = os_entropy w ∧
    order_items w1 = <[oid := []]> (order_items w) ∧
    generate_order_lifecycle words oid base w =
    (emitted (run (lifecycle_loop words oid cid rid (events pattern)
                     {| emitted := []; current_ts := base;
                        current_status := PENDING |}) w1),
     exec (lifecycle_loop words oid cid rid (events pattern)
             {| emitted := []; current_ts := base;
                current_status := PENDING |}) w1).
Proof.
  unfold generate_order_lifecycle. unfold bind at 1.
  unfold with_random.
  destruct (PyRandom.choices _ _ _ _) as [pattern t1] eqn:Hch.
  assert (Hin : pattern ∈ ORDER_PATTERNS).
  { change pattern with (pattern, t1).1. rewrite <- Hch.
    apply choices_elem, list_elem_of_here. }
  unfold set_items, faker_uuid4, with_faker.
  repeat (unfold bind at 1; unfold draw, ret; cbv beta iota;
          cbn [py_random faker_random os_entropy order_items]).
  eexists pattern, _, _, _. split; [done|].
  split; [|split].
  3: { unfold run, exec.
       rewrite (surjective_pairing (lifecycle_loop _ _ _ _ _ _ _)). reflexivity. }
  all: reflexivity.
Qed.

(** ** The generator: the invariant of the loop *)

Lemma iter_next_cells n t : cells (Nat.iter n next t) = cells t.
Proof. induction n as [|n IH]; [done|]. simpl. exact IH. Qed.

Lemma iter_next_cursor n t : cursor (Nat.iter n next t) = (cursor t + n)%nat.
Proof.
  induction n as [|n IH]; simpl; [lia|]. rewrite IH. lia.
Qed.

Lemma completed_ok_snoc {zone : LocalTime} evs e ty st ts L L' :
  completed_ok evs → Remaining evs L → Forall item_pos L →
  payload_step ty st ts L (payload e) L' →
  completed_ok (evs ++ [e]).
Proof.
  intros Hok Hrem Hpos Hstep i e' cts total Hi Hp.
  destruct (decide (i < length evs)%nat) as [Hlt|Hge].
  - rewrite lookup_app_l in Hi by done.
    rewrite take_app_le by lia. by apply (Hok i e' cts total).
  - assert (i = length evs) as ->.
    { apply lookup_lt_Some in Hi. rewrite length_app in Hi. simpl in Hi. lia. }
    rewrite list_lookup_middle in Hi by done. injection Hi as <-.
    rewrite take_app_length.
    assert (ty = ORDER_COMPLETED) as -> by by eapply payload_step_completed.
    simpl in Hstep. destruct Hstep as (-> & total' & Hp' & Hsum & Hfb).
    rewrite Hp in Hp'. injection Hp' as -> <-.
    split; [|by exists L].
    destruct L as [|item L]; [specialize (Hfb eq_refl); lia|].
    rewrite Hsum by done. by apply sum_items_pos.
Qed.

Lemma lifecycle_step_inv {zone : LocalTime} words oid cid rid items0 ent0 ty l w :
  lifecycle_inv oid items0 ent0 l w →
  lifecycle_inv oid items0 ent0
    (run (lifecycle_step words oid cid rid ty l) w)
    (exec (lifecycle_step words oid cid rid ty l) w).
Proof.
  intros ((L & HL & Hpos & Hrem) & Hdel & Hent & Hids & Hoid & Hok).
  destruct (lifecycle_step_spec words oid cid rid ty l w L HL Hpos)
    as (p & gap & w' & L' & Heq & Hgap & Hent' & Hdel' & HL' & Hpos' & Hstep).
  unfold run, exec. rewrite Heq. unfold lifecycle_inv.
  cbn [fst snd emitted current_ts].
  set (e := {| event_id := _; payload := p |}).
  split; [|split; [|split; [|split; [|split]]]].
  - exists L'. split; [done|]. split; [done|].
    by apply (Remaining_step _ e ty (current_status l) (current_ts l + gap) L).
  - by rewrite Hdel'.
  - rewrite Hent', Hent, length_app. simpl.
    by rewrite Nat.add_1_r.
  - rewrite fmap_app, length_app, seq_app, fmap_app, Hids. simpl. f_equal.
    subst e. simpl. rewrite Hent, iter_next_cells, iter_next_cursor. done.
  - apply Forall_app. split; [done|]. by apply Forall_singleton.
  - by apply (completed_ok_snoc _ e ty (current_status l) (current_ts l + gap) L L').
Qed.

Lemma generate_order_lifecycle_inv {zone : LocalTime} words oid base w :
  ∃ l, run (generate_order_lifecycle words oid base) w = emitted l ∧
       lifecycle_inv oid (order_items w) (os_entropy w) l
         (exec (generate_order_lifecycle words oid base) w).
Proof.
  destruct (generate_order_lifecycle_eq words oid base w)
    as (pattern & cid & rid & w1 & _ & Hent & Hitems & Heq).
  unfold run, exec. rewrite Heq. cbn [fst snd]. eexists. split; [reflexivity|].
  apply (lifecycle_loop_ind words oid cid rid
           (lifecycle_inv oid (order_items w) (os_entropy w))).
  - intros. by apply lifecycle_step_inv.
  - unfold lifecycle_inv. cbn [emitted current_ts]. rewrite Hitems, Hent.
    repeat split; try done; try constructor.
    + exists []. rewrite lookup_insert_eq. repeat split; constructor.
    + by rewrite delete_insert_eq.
Qed.

(** ** The generator: what the seed determines *)

Section Related.

Context {zone : LocalTime}.
Variable oid : string.

Lemma related_ret {A B} (R : A → B → Prop) a b :
  R a b → related oid R (ret a) (ret b).
Proof. intros HR w1 w2 Hw. by split. Qed.

Lemma related_bind {A1 A2 B1 B2} (R : A1 → A2 → Prop) (R' : B1 → B2 → Prop)
    m1 m2 (f1 : A1 → State World B1) (f2 : A2 → State World B2) :
  related oid R m1 m2 →
  (∀ a1 a2, R a1 a2 → related oid R' (f1 a1) (f2 a2)) →
  related oid R' (bind m1 f1) (bind m2 f2).
Proof.
  intros Hm Hf w1 w2 Hw. destruct (Hm w1 w2 Hw) as [HR Hw'].
  unfold run, exec, bind in *.
  destruct (m1 w1) as [a1 w1'], (m2 w2) as [a2 w2']. by apply Hf.
Qed.

Lemma related_bind_eq {A B1 B2} (R' : B1 → B2 → Prop)
    m (f1 : A → State World B1) (f2 : A → State World B2) :
  related oid eq m m →
  (∀ a, related oid R' (f1 a) (f2 a)) →
  related oid R' (bind m f1) (bind m f2).
Proof. intros Hm Hf. eapply related_bind; [exact Hm|]. intros a ? <-. apply Hf. Qed.

Lemma related_with_random {A} (m : State Tape A) :
  related oid eq (with_random m) (with_random m).
Proof.
  intros w1 w2 (Hr & Hf & Hi). unfold run, exec, with_random. rewrite Hr.
  destruct (m (py_random w2)) as [a t]. by repeat split.
Qed.

Lemma related_with_faker {A} (m : State Tape A) :
  related oid eq (with_faker m) (with_faker m).
Proof.
  intros w1 w2 (Hr & Hf & Hi). unfold run, exec, with_faker. rewrite Hf.
  destruct (m (faker_random w2)) as [a t]. by repeat split.
Qed.

Lemma related_uuid4 : related oid (fun _ _ => True) uuid4 uuid4.
Proof. intros w1 w2 (Hr & Hf & Hi). by repeat split. Qed.

Lemma related_get_items : related oid eq (get_items oid) (get_items oid).
Proof.
  intros w1 w2 (Hr & Hf & Hi). unfold run, exec, get_items. simpl.
  rewrite Hi. by repeat split.
Qed.

Lemma related_set_items items :
  related oid eq (set_items oid items) (set_items oid items).
Proof.
  intros w1 w2 (Hr & Hf & Hi). unfold run, exec, set_items, agree.
  cbn [fst snd py_random faker_random order_items].
  repeat split; try done. by rewrite !lookup_insert_eq.
Qed.

Ltac related_prim :=
  first [ apply related_with_random | apply related_with_faker
        | apply related_get_items | apply related_set_items ].

Ltac related_auto :=
  repeat first [ apply related_ret; reflexivity
               | apply related_bind_eq; [related_prim | intros ?] ].

Lemma related_create_payload words ty cid rid st ts :
  related oid eq (_create_payload words ty oid cid rid st ts)
                 (_create_payload words ty oid cid rid st ts).
Proof.
  destruct ty; unfold _create_payload, faker_uuid4, faker_word; related_auto.
  - destruct a as [|first rest]; related_auto.
  - apply related_bind_eq; [|intros ?; related_auto].
    destruct (_ =? 0); related_auto.
Qed.

Lemma related_create_event words ty ts cid rid st :
  related oid (fun e1 e2 => without_event_id e1 = without_event_id e2)
    (_create_event words oid ty ts cid rid st)
    (_create_event words oid ty ts cid rid st).
Proof.
  unfold _create_event.
  eapply related_bind; [apply related_uuid4|]. intros id1 id2 _.
  apply related_bind_eq; [apply related_create_payload|]. intros p.
  by apply related_ret.
Qed.

Lemma related_lifecycle_step words cid rid ty l1 l2 :
  same_locals l1 l2 →
  related oid same_locals (lifecycle_step words oid cid rid ty l1)
                          (lifecycle_step words oid cid rid ty l2).
Proof.
  intros (Hev & Hts & Hst). unfold lifecycle_step. rewrite Hts, Hst.
  apply related_bind_eq; [related_prim|]. intros gap.
  eapply related_bind; [apply related_create_event|]. intros e1 e2 He.
  apply related_ret. unfold same_locals. cbn [emitted current_ts current_status].
  rewrite !fmap_app, Hev. cbn [fmap list_fmap]. by rewrite He.
Qed.

Lemma related_lifecycle_loop words cid rid steps l1 l2 :
  same_locals l1 l2 →
  related oid same_locals (lifecycle_loop words oid cid rid steps l1)
                          (lifecycle_loop words oid cid rid steps l2).
Proof.
  revert l1 l2. induction steps as [|ty steps IH]; intros l1 l2 Hl.
  - by apply related_ret.
  - cbn [lifecycle_loop].
    eapply related_bind; [by apply related_lifecycle_step|]. apply IH.
Qed.

Lemma related_generate words base :
  related oid
    (fun evs1 evs2 => without_event_id <$> evs1 = without_event_id <$> evs2)
    (generate_order_lifecycle words oid base)
    (generate_order_lifecycle words oid base).
Proof.
  unfold generate_order_lifecycle, faker_uuid4.
  apply related_bind_eq; [related_prim|]. intros pattern.
  apply related_bind_eq; [related_prim|]. intros _.
  apply related_bind_eq; [related_prim|]. intros u1.
  apply related_bind_eq; [related_prim|]. intros u2.
  eapply related_bind; [by apply related_lifecycle_loop|].
  intros l1 l2 (Hev & _). by apply related_ret.
Qed.

End Related.

(** The call starts by resetting the ledger of its order, so what was
    in [order_items] for that order before the call plays no role. *)
Lemma generate_order_lifecycle_reset {zone : LocalTime} words oid base w :
  generate_order_lifecycle words oid base w =
  generate_order_lifecycle words oid base
    {| py_random := py_random w; faker_random := faker_random w;
       os_entropy := os_entropy w;
       order_items := <[oid := []]> (order_items w) |}.
Proof.
  unfold generate_order_lifecycle, bind, with_random, set_items.
  cbn [py_random faker_random os_entropy order_items].
  destruct (PyRandom.choices _ _ _ _) as [pattern t1].
  cbn [py_random faker_random os_entropy order_items].
  by rewrite insert_insert_eq.
Qed.

Lemma event_eq (e1 e2 : Event) :
  event_id e1 = event_id e2 → without_event_id e1 = without_event_id e2 → e1 = e2.
Proof.
  destruct e1, e2. unfold without_event_id. simpl. intros -> Heq.
  by injection Heq as -> -> -> -> ->.
Qed.

Lemma events_eq (evs1 evs2 : list Event) :
  event_id <$> evs1 = event_id <$> evs2 →
  without_event_id <$> evs1 = without_event_id <$> evs2 → evs1 = evs2.
Proof.
  revert evs2. induction evs1 as [|e1 evs1 IH]; intros [|e2 evs2]; try done.
  rewrite !fmap_cons. intros [Hid Hids]%(inj2 cons) [Hr Hrs]%(inj2 cons).
  f_equal; [by apply event_eq | by apply IH].
Qed.

Lemma generate_order_lifecycle_same {zone : LocalTime} words oid base (r f : Tape) ent1 ent2
    (items1 items2 : gmap string (list Item)) :
  without_event_id <$>
    run (generate_order_lifecycle words oid base)
      {| py_random := r; faker_random := f; os_entropy := ent1;
         order_items := items1 |} =
  without_event_id <$>
    run (generate_order_lifecycle words oid base)
      {| py_random := r; faker_random := f; os_entropy := ent2;
         order_items := items2 |}.
Proof.
  unfold run.
  rewrite (generate_order_lifecycle_reset words oid base {| order_items := items1 |}).
  rewrite (generate_order_lifecycle_reset words oid base {| order_items := items2 |}).
  cbn [py_random faker_random os_entropy order_items].
  apply (related_generate oid words base). unfold agree.
  cbn [py_random faker_random order_items]. by rewrite !lookup_insert_eq.
Qed.

Lemma generate_order_lifecycle_ids {zone : LocalTime} words oid base w :
  event_id <$> run (generate_order_lifecycle words oid base) w =
  (fun k => uuid_str (cells (os_entropy w) (cursor (os_entropy w) + k)))
    <$> seq 0 (length (run (generate_order_lifecycle words oid base) w)).
Proof.
  destruct (generate_order_lifecycle_inv words oid base w) as (l & -> & Hinv).
  apply Hinv.
Qed.

(** ** The claims about the generator *)

(** C1, as the code has it: two generators in the same seeded state
    (the same position in the sequences of [random] and of [Faker])
    return, for the same [order_id] and [base_timestamp], sequences
    that are equal in every field but [event_id], whatever the entropy
    of the operating system and whatever [order_items] held before;
    the [event_id] of the k-th event is the k-th draw of [uuid.uuid4()]
    from that entropy, which no seed determines. *)
Theorem generate_order_lifecycle_seeded {zone : LocalTime} words oid base (r f : Tape)
    (ent1 ent2 : Tape) (items1 items2 : gmap string (list Item)) :
  let evs1 := run (generate_order_lifecycle words oid base)
                {| py_random := r; faker_random := f; os_entropy := ent1;
                   order_items := items1 |} in
  let evs2 := run (generate_order_lifecycle words oid base)
                {| py_random := r; faker_random := f; os_entropy := ent2;
                   order_items := items2 |} in
  without_event_id <$> evs1 = without_event_id <$> evs2 ∧
  event_id <$> evs1 =
    (fun k => uuid_str (cells ent1 (cursor ent1 + k))) <$> seq 0 (length evs1) ∧
  event_id <$> evs2 =
    (fun k => uuid_str (cells ent2 (cursor ent2 + k))) <$> seq 0 (length evs2).
Proof.
  intros evs1 evs2. split; [apply generate_order_lifecycle_same|].
  split; apply generate_order_lifecycle_ids.
Qed.

(** C1 fails as stated: two generators constructed with the same seed
    return sequences that differ (in [event_id]) when the entropy read
    by [uuid.uuid4()] differs. *)
Lemma same_seed_different_events :
  let g1 := EventGenerator_init sample_seq sample_seq 42 (tape_of [1%N]) in
  let g2 := EventGenerator_init sample_seq sample_seq 42 (tape_of [2%N]) in
  run (generate_order_lifecycle (zone := utc) sample_words "order_0000" 0) g1 ≠
  run (generate_order_lifecycle (zone := utc) sample_words "order_0000" 0) g2.
Proof.
  intros g1 g2 Heq. apply (f_equal (fun evs => event_id <$> take 1 evs)) in Heq.
  vm_compute in Heq. discriminate.
Qed.

(** C2, where the code breaks it: a process in New York on 8 March
    2026, where the wall clock goes from 01:59:59 to 03:00:00, and a
    lifecycle that starts at 02:59:58 on the wall clock, as
    [run_simulation] starts its first order when it is run at
    04:59:58.  The first event is created at 02:59:59, a time that the
    wall clock skipped and that [timestamp()] reads with the offset
    of the winter; the second at 03:00:00, read with the offset of the
    summer, 59 minutes and 59 seconds earlier. *)
Theorem event_ts_decreases_in_dst_gap :
  let evs := run (generate_order_lifecycle (zone := new_york) sample_words
                    "order_0000" 1772938798000000)
               (sample_world [] [] []) in
  event_ts <$> evs =
    [1772956799000; 1772953200000; 1772953201000; 1772953202000;
     1772953203000] ∧
  ¬ StronglySorted Z.lt (event_ts <$> evs).
Proof.
  intros evs.
  assert (Hts : event_ts <$> evs =
                [1772956799000; 1772953200000; 1772953201000; 1772953202000;
                 1772953203000]) by (vm_compute; reflexivity).
  split; [done|]. rewrite Hts. intros Hsorted.
  inversion Hsorted as [|first rest _ Hall]. inversion Hall as [|second ? Hlt _].
  lia.
Qed.

(** C3: in every returned sequence, an [ORDER_COMPLETED] event carries
    a strictly positive [total_amount]: the sum of [price * quantity]
    over the items that the events before it added and did not remove
    or, when no such item remains, a fallback drawn between 15.99 and
    99.99 (amounts in cents).  The items that remain are given by
    [Remaining]; when the added items have distinct ids they are
    [remaining] of the events before. *)
Theorem order_completed_total {zone : LocalTime} words oid base w (i : nat) e cts total :
  run (generate_order_lifecycle words oid base) w !! i = Some e →
  payload e = OrderCompletedPayload cts total →
  let before := take i (run (generate_order_lifecycle words oid base) w) in
  0 < total ∧
  ∃ L, Remaining before L ∧
       (NoDup (added_ids before) → L = remaining before) ∧
       (L ≠ [] → total = sum_items L) ∧ (L = [] → 1599 <= total <= 9999).
Proof.
  intros Hi Hp before. subst before.
  destruct (generate_order_lifecycle_inv words oid base w) as (l & Hl & Hinv).
  rewrite Hl in *.
  destruct Hinv as (_ & _ & _ & _ & _ & Hok).
  destruct (Hok i e cts total Hi Hp) as (Hpos & L & Hrem & Hsum & Hfb).
  split; [done|]. exists L. split; [done|]. split; [|done].
  intros Hnd. by apply Remaining_unique.
Qed.

Lemma order_completed_total_witness :
  let evs := run (generate_order_lifecycle (zone := utc) sample_words "order_0000" 0)
               complex_world in
  ∃ e, evs !! 6%nat = Some e ∧
       payload e = OrderCompletedPayload 7000 5695 ∧
       sum_items (remaining (take 6 evs)) = 5695 ∧
       0 < 5695 ∧
       ∃ L, Remaining (take 6 evs) L ∧
            (NoDup (added_ids (take 6 evs)) → L = remaining (take 6 evs)) ∧
            (L ≠ [] → 5695 = sum_items L) ∧ (L = [] → 1599 <= 5695 <= 9999).
Proof.
  intros evs. eexists. split; [vm_compute; reflexivity|].
  split; [reflexivity|]. split; [vm_compute; reflexivity|].
  eapply (order_completed_total (zone := utc) sample_words "order_0000" 0 complex_world 6);
    vm_compute; reflexivity.
Defined.

(** C8, as the code has it: the tracked status changes at
    [ORDER_CONFIRMED], [ORDER_CANCELLED] and [ORDER_COMPLETED] only; an
    [ORDER_UPDATED] event carries the tracked status as [old_status]
    and a drawn [new_status], and leaves the tracked status as it was. *)
Theorem order_updated_status {zone : LocalTime} words oid cid rid l w :
  (∀ ty, current_status (run (lifecycle_step words oid cid rid ty l) w) =
         status_after ty (current_status l)) ∧
  let l' := run (lifecycle_step words oid cid rid ORDER_UPDATED l) w in
  current_status l' = current_status l ∧
  ∃ e new_status,
    emitted l' = emitted l ++ [e] ∧
    payload e = OrderUpdatedPayload (current_status l) new_status ∧
    (new_status = PENDING ∨ new_status = CONFIRMED).
Proof.
  split.
  - intros ty. unfold run, lifecycle_step. unfold bind at 1.
    destruct (with_random _ w) as [gap w1]. unfold bind at 1.
    destruct (_create_event _ _ _ _ _ _ _ _) as [e w2]. by destruct ty.
  - unfold run, lifecycle_step. unfold bind at 1.
    destruct (with_random _ w) as [gap w1]. unfold bind at 1.
    unfold _create_event. unfold bind at 1.
    destruct (uuid4 w1) as [id w2]. unfold bind at 1.
    run_payload. cbn [fst emitted current_status]. split; [done|].
    eexists _, _. split; [reflexivity|]. split; [reflexivity|].
    destruct (N.to_nat _) as [|[|[|?]]]; simpl; auto.
Qed.

(** C8 fails as stated: in a [WITH_UPDATES] lifecycle, after the
    [ORDER_UPDATED] event with [new_status = CONFIRMED] the tracked
    status is still [PENDING]; and a second [ORDER_UPDATED] would carry
    [old_status = PENDING]. *)
Lemma order_updated_status_not_recorded :
  let w := sample_world [0; 0; 0; 0; 0; 0; 1]%N [] [] in
  let l := run (lifecycle_loop (zone := utc) sample_words "order_0000" "cust_0" "rest_0"
                  (take 3 (events WITH_UPDATES)) (fresh_locals 0)) w in
  let l2 := run (lifecycle_loop (zone := utc) sample_words "order_0000" "cust_0" "rest_0"
                   (take 3 (events WITH_UPDATES) ++ [ORDER_UPDATED])
                   (fresh_locals 0)) w in
  payload <$> last (emitted l) = Some (OrderUpdatedPayload PENDING CONFIRMED) ∧
  current_status l = PENDING ∧
  payload <$> last (emitted l2) = Some (OrderUpdatedPayload PENDING PENDING).
Proof. vm_compute. repeat split; reflexivity. Qed.

(** C9, as the code has it: the ledger of an order is an entry of the
    attribute [order_items] of the generator.  A call resets the entry
    of its own order at the start, so that its result does not depend
    on what [order_items] held, and leaves the entries of all other
    orders as they were; when it returns, the entry of its order is
    still there and holds the items added and not removed. *)
Theorem order_items_after_call {zone : LocalTime} words oid base w :
  let evs := run (generate_order_lifecycle words oid base) w in
  let w' := exec (generate_order_lifecycle words oid base) w in
  (∃ L, order_items w' !! oid = Some L ∧ Remaining evs L) ∧
  delete oid (order_items w') = delete oid (order_items w) ∧
  ∀ items0 : gmap string (list Item),
    run (generate_order_lifecycle words oid base)
      {| py_random := py_random w; faker_random := faker_random w;
         os_entropy := os_entropy w; order_items := items0 |} = evs.
Proof.
  intros evs w'. subst evs w'.
  destruct (generate_order_lifecycle_inv words oid base w) as (l & Hl & Hinv).
  destruct Hinv as ((L & HL & _ & Hrem) & Hdel & _).
  split; [exists L; by rewrite Hl|]. split; [done|].
  intros items0.
  assert (Hsame := generate_order_lifecycle_same words oid base (py_random w)
                     (faker_random w) (os_entropy w) (os_entropy w) items0
                     (order_items w)).
  replace {| py_random := py_random w; faker_random := faker_random w;
             os_entropy := os_entropy w; order_items := order_items w |}
    with w in Hsame by by destruct w.
  apply events_eq; [|done].
  rewrite !generate_order_lifecycle_ids. cbn [os_entropy].
  apply (f_equal length) in Hsame. rewrite !length_fmap in Hsame.
  by rewrite Hsame.
Qed.

(** C9 fails as stated: after the call has returned, the generator
    still holds the two items of the order in [order_items]. *)
Lemma order_items_retained :
  let w := sample_world [] [] [] in
  let w' := exec (generate_order_lifecycle (zone := utc) sample_words "order_0000" 0) w in
  order_items w !! "order_0000" = None ∧
  order_items w' !! "order_0000" =
    Some [ {| item_id := "item_00000000"; item_name := "Alpha Burger";
              quantity := 1; price := 599 |};
           {| item_id := "item_00000000"; item_name := "Alpha Burger";
              quantity := 1; price := 599 |} ].
Proof. split; vm_compute; reflexivity. Qed.

(** * Further properties *)

(** ** The generator: every field of a payload *)

Lemma item_in_range_pos item : item_in_range item → item_pos item.
Proof. intros [Hq Hp]. split; lia. Qed.

Lemma create_payload_detail {zone : LocalTime} words ty oid cid rid st ts w L :
  order_items w !! oid = Some L → Forall item_in_range L →
  ∃ p w' L', _create_payload words ty oid cid rid st ts w = (p, w') ∧
    order_items w' !! oid = Some L' ∧ Forall item_in_range L' ∧
    payload_detail ty cid rid st ts L p L'.
Proof.
  intros HL Hin. destruct ty.
  - run_payload. eexists _, _, L. repeat split; eauto.
  - run_payload. rewrite HL. cbn [default id].
    eexists _, _, _. split; [reflexivity|]. cbn [order_items].
    assert (Hq := randint_val_range 1 5 (next (py_random w)) ltac:(lia)).
    assert (Hp := price_bounds (next (next (py_random w)))).
    split; [by rewrite lookup_insert_eq|]. split.
    + apply Forall_app. split; [done|]. apply Forall_singleton. by split.
    + eexists. split; [reflexivity|]. split; [reflexivity|]. by split.
  - run_payload. rewrite HL. cbn [default id].
    destruct L as [|first rest].
    + eexists _, _, []. split; [reflexivity|]. cbn [order_items].
      repeat split; eauto. left. eauto.
    + rewrite choice_eq. cbv beta iota.
      cbn [py_random faker_random os_entropy order_items].
      set (removed := nth _ (first :: rest) first).
      assert (Hrm : removed ∈ first :: rest) by apply nth_elem_of.
      destruct (list_remove_split removed (first :: rest) Hrm)
        as (L1 & L2 & HL12 & Heq).
      eexists _, _, _. split; [reflexivity|]. cbn [order_items].
      split; [by rewrite lookup_insert_eq|]. split.
      * rewrite Heq. rewrite HL12 in Hin. apply Forall_app in Hin as [H1 H2].
        apply Forall_cons in H2 as [_ H2]. by apply Forall_app.
      * right. by exists removed.
  - run_payload. eexists _, _, L. split; [reflexivity|].
    repeat split; eauto. eexists. split; [reflexivity|].
    destruct (N.to_nat _) as [|[|[|?]]]; simpl; auto.
  - run_payload. eexists _, _, L. split; [reflexivity|].
    repeat split; eauto. eexists _, _. split; [reflexivity|].
    apply (randint_val_range 30 90). lia.
  - run_payload. eexists _, _, L. split; [reflexivity|].
    repeat split; eauto. eexists _, _. split; [reflexivity|].
    change (length _) with 5%nat.
    assert (Hj := randbelow_val_lt (N.of_nat 5) (py_random w) ltac:(lia)).
    unfold cancellation_reasons.
    destruct (N.to_nat _) as [|[|[|[|[|?]]]]] eqn:Hn; simpl;
      rewrite !elem_of_cons; auto 10. lia.
  - run_payload. rewrite HL. cbn [default id].
    destruct (Z.eqb_spec (sum_items L) 0) as [Hz|Hnz].
    + rewrite uniform_eq. cbv beta iota.
      eexists _, _, L. split; [reflexivity|].
      cbn [order_items]. repeat split; eauto.
      eexists. split; [reflexivity|]. split.
      * intros Hne. assert (0 < sum_items L).
        { apply sum_items_pos; [|done].
          eapply Forall_impl; [exact Hin|]. apply item_in_range_pos. }
        lia.
      * intros _. apply fallback_bounds.
    + eexists _, _, L. split; [reflexivity|]. repeat split; eauto.
      eexists. split; [reflexivity|]. split; [done|].
      intros ->. by simpl in Hnz.
Qed.

Lemma lifecycle_step_detail {zone : LocalTime} words oid cid rid ty l w L :
  order_items w !! oid = Some L → Forall item_in_range L →
  ∃ p gap w' L',
    lifecycle_step words oid cid rid ty l w =
      ({| emitted :=
            emitted l ++
            [{| event_id := uuid_str (cells (os_entropy w) (cursor (os_entropy w)));
                event_type := ty;
                event_ts := timestamp_millis (current_ts l + gap);
                order_id := oid; payload := p; schema_version := 1 |}];
          current_ts := current_ts l + gap;
          current_status := status_after ty (current_status l) |}, w') ∧
    1000000 <= gap <= 30000000 ∧
    order_items w' !! oid = Some L' ∧ Forall item_in_range L' ∧
    payload_detail ty cid rid (current_status l) (current_ts l + gap) L p L'.
Proof.
  intros HL Hin. unfold lifecycle_step. unfold bind at 1.
  unfold with_random. rewrite uniform_eq. cbv beta iota.
  set (gap := timedelta_seconds _).
  set (w1 := {| py_random := next (py_random w); faker_random := faker_random w;
                os_entropy := os_entropy w; order_items := order_items w |}).
  unfold bind at 1. unfold _create_event. unfold bind at 1.
  unfold uuid4, with_entropy. unfold bind at 1. unfold draw, ret. cbv beta iota.
  cbn [py_random faker_random os_entropy order_items].
  set (w2 := {| py_random := py_random w1; faker_random := faker_random w1;
                os_entropy := _; order_items := order_items w1 |}).
  destruct (create_payload_detail words ty oid cid rid (current_status l)
              (current_ts l + gap) w2 L HL Hin)
    as (p & w' & L' & Heq & HL' & Hin' & Hstep).
  unfold bind at 1. rewrite Heq.
  exists p, gap, w', L'. split; [reflexivity|].
  split; [apply gap_bounds|]. done.
Qed.

(** ** The generator: the shape invariant *)

Lemma ledger_size_snoc types ty :
  ledger_size (types ++ [ty]) = ledger_size_step (ledger_size types) ty.
Proof. unfold ledger_size. by rewrite foldl_snoc. Qed.

Lemma status_of_snoc types ty :
  status_of (types ++ [ty]) = status_after ty (status_of types).
Proof. unfold status_of. by rewrite foldl_snoc. Qed.

Lemma last_cons_default {A} (x : A) l d d' :
  List.last (x :: l) d = List.last (x :: l) d'.
Proof. revert x. induction l as [|y l IH]; intros x; [done|]. apply (IH y). Qed.

Lemma gaps_ok_snoc base ts t :
  gaps_ok base ts → 1000000 <= t - List.last ts base <= 30000000 →
  gaps_ok base (ts ++ [t]).
Proof.
  revert base. induction ts as [|t0 ts IH]; intros base Hg Ht; simpl in *.
  - done.
  - destruct Hg as [Hg0 Hg]. split; [done|]. apply IH; [done|].
    destruct ts; [done|]. by rewrite (last_cons_default _ _ _ base).
Qed.

Lemma gaps_ok_bounds base ts (i : nat) t :
  gaps_ok base ts → ts !! i = Some t →
  base + 1000000 * (Z.of_nat i + 1) <= t <= base + 30000000 * (Z.of_nat i + 1).
Proof.
  revert base i. induction ts as [|t0 ts IH]; intros base i Hg Hi; [done|].
  destruct Hg as [Hg0 Hg]. destruct i as [|i]; simpl in Hi.
  - injection Hi as <-. lia.
  - specialize (IH t0 i Hg Hi). lia.
Qed.

Lemma Remaining_detail {zone : LocalTime} evs e ty cid rid st ts L L' :
  Remaining evs L → payload_detail ty cid rid st ts L (payload e) L' →
  Remaining (evs ++ [e]) L'.
Proof.
  intros Hrem Hstep. destruct ty; simpl in Hstep.
  - destruct Hstep as (-> & Hp).
    apply Remaining_other; [done | |]; intros ?; by rewrite Hp.
  - destruct Hstep as (item & Hp & -> & _). by apply Remaining_added.
  - destruct Hstep as [(-> & -> & id & Hp) | (item & Hin & -> & Hp)].
    + apply Remaining_absent with id; [done | done |]. by intros item ?%elem_of_nil.
    + destruct (list_remove_split item L Hin) as (L1 & L2 & -> & ->).
      by apply Remaining_removed with item.
  - destruct Hstep as (-> & new & Hp & _).
    apply Remaining_other; [done | |]; intros ?; by rewrite Hp.
  - destruct Hstep as (-> & by_ & m & Hp & _).
    apply Remaining_other; [done | |]; intros ?; by rewrite Hp.
  - destruct Hstep as (-> & by_ & reason & Hp & _).
    apply Remaining_other; [done | |]; intros ?; by rewrite Hp.
  - destruct Hstep as (-> & total & Hp & _).
    apply Remaining_other; [done | |]; intros ?; by rewrite Hp.
Qed.

Lemma payload_detail_length {zone : LocalTime} ty cid rid st ts L p L' :
  payload_detail ty cid rid st ts L p L' →
  length L' = ledger_size_step (length L) ty.
Proof.
  intros Hstep. destruct ty; simpl in Hstep; simpl.
  - by destruct Hstep as (-> & _).
  - destruct Hstep as (item & _ & -> & _). rewrite length_app. simpl. lia.
  - destruct Hstep as [(-> & -> & _) | (item & Hin & -> & _)]; [done|].
    destruct (list_remove_split item L Hin) as (L1 & L2 & -> & ->).
    rewrite !length_app. simpl. lia.
  - by destruct Hstep as (-> & _).
  - by destruct Hstep as (-> & _).
  - by destruct Hstep as (-> & _).
  - by destruct Hstep as (-> & _).
Qed.

Lemma payload_detail_tag {zone : LocalTime} ty cid rid st ts L p L' :
  payload_detail ty cid rid st ts L p L' → payload_tag p = ty.
Proof.
  intros Hstep. destruct ty; simpl in Hstep;
    repeat match goal with
           | H : _ ∧ _ |- _ => destruct H
           | H : ∃ _, _ |- _ => destruct H
           | H : _ ∨ _ |- _ => destruct H
           end; by subst.
Qed.

Lemma payload_detail_time {zone : LocalTime} ty cid rid st ts L p L' eid oid :
  payload_detail ty cid rid st ts L p L' →
  event_time_ok {| event_id := eid; event_type := ty;
                   event_ts := timestamp_millis ts; order_id := oid;
                   payload := p; schema_version := 1 |} ts.
Proof.
  intros Hstep. unfold event_time_ok. cbn [payload event_ts].
  split; [done|]. destruct ty; simpl in Hstep.
  - by destruct Hstep as (_ & ->).
  - by destruct Hstep as (item & -> & _).
  - by destruct Hstep as [(_ & _ & id & ->) | (item & _ & _ & ->)].
  - by destruct Hstep as (_ & new & -> & _).
  - destruct Hstep as (_ & by_ & m & -> & Hm). by exists m.
  - by destruct Hstep as (_ & by_ & reason & -> & _).
  - by destruct Hstep as (_ & total & -> & _).
Qed.

Lemma sum_items_lower L :
  Forall item_in_range L → L ≠ [] → 599 <= sum_items L.
Proof.
  intros Hin. induction Hin as [|item L [Hq Hp] Hin IH]; [done|]. intros _.
  simpl. assert (0 <= sum_items L).
  { destruct L; [simpl; lia|]. assert (599 <= sum_items (i :: L)) by by apply IH.
    lia. }
  nia.
Qed.

Lemma payload_detail_fields {zone : LocalTime} ty cid rid st ts L p L' eid oid :
  Forall item_in_range L →
  payload_detail ty cid rid st ts L p L' →
  event_fields_ok {| event_id := eid; event_type := ty;
                     event_ts := timestamp_millis ts; order_id := oid;
                     payload := p; schema_version := 1 |}.
Proof.
  intros Hin Hstep. unfold event_fields_ok. cbn [payload event_type schema_version event_ts].
  split; [by eapply payload_detail_tag|]. split; [done|].
  destruct ty; simpl in Hstep.
  - by destruct Hstep as (_ & ->).
  - by destruct Hstep as (item & -> & _ & ?).
  - by destruct Hstep as [(_ & _ & id & ->) | (item & _ & _ & ->)].
  - by destruct Hstep as (_ & new & -> & ?).
  - by destruct Hstep as (_ & by_ & m & -> & Hm).
  - by destruct Hstep as (_ & by_ & reason & -> & ?).
  - destruct Hstep as (_ & total & -> & Hsum & Hfb). split; [done|].
    destruct L as [|item L]; [specialize (Hfb eq_refl); lia|].
    rewrite Hsum by done. by apply sum_items_lower.
Qed.

Lemma payload_detail_ledger {zone : LocalTime} ty cid rid st ts L p L' eid oid :
  payload_detail ty cid rid st ts L p L' →
  event_ledger_ok {| event_id := eid; event_type := ty;
                     event_ts := timestamp_millis ts; order_id := oid;
                     payload := p; schema_version := 1 |} L.
Proof.
  intros Hstep. unfold event_ledger_ok. cbn [payload].
  destruct ty; simpl in Hstep.
  - by destruct Hstep as (_ & ->).
  - by destruct Hstep as (item & -> & _).
  - destruct Hstep as [(-> & _ & id & ->) | (item & Hin & _ & ->)]; [by left|].
    right. by exists item.
  - by destruct Hstep as (_ & new & -> & _).
  - by destruct Hstep as (_ & by_ & m & -> & _).
  - by destruct Hstep as (_ & by_ & reason & -> & _).
  - by destruct Hstep as (_ & total & -> & Hsum & _).
Qed.

Lemma history_ok_snoc evs e L :
  history_ok evs → Remaining evs L →
  length L = ledger_size (event_type <$> evs) → Forall item_in_range L →
  event_ledger_ok e L → history_ok (evs ++ [e]).
Proof.
  intros Hok Hrem Hlen Hin He i e' Hi.
  destruct (decide (i < length evs)%nat) as [Hlt|Hge].
  - rewrite lookup_app_l in Hi by done.
    rewrite take_app_le by lia. by apply Hok.
  - assert (i = length evs) as ->.
    { apply lookup_lt_Some in Hi. rewrite length_app in Hi. simpl in Hi. lia. }
    rewrite list_lookup_middle in Hi by done. injection Hi as <-.
    rewrite take_app_length. by exists L.
Qed.

Lemma lifecycle_step_shape {zone : LocalTime} words oid cid rid base ty l w :
  shape_inv oid base l w →
  shape_inv oid base
    (run (lifecycle_step words oid cid rid ty l) w)
    (exec (lifecycle_step words oid cid rid ty l) w).
Proof.
  intros ((L & HL & Hin & Hrem & Hlen) & (ts & Hts & Hgaps & Hcur) & Hst
          & Hfields & Hoid & Hhist).
  destruct (lifecycle_step_detail words oid cid rid ty l w L HL Hin)
    as (p & gap & w' & L' & Heq & Hgap & HL' & Hin' & Hstep).
  unfold run, exec. rewrite Heq. unfold shape_inv.
  cbn [fst snd emitted current_ts current_status].
  set (e := {| event_id := _; payload := p |}).
  rewrite !fmap_app. cbn [fmap list_fmap]. cbn [event_type event_ts e].
  split; [|split; [|split; [|split; [|split]]]].
  - exists L'. split; [done|]. split; [done|]. split.
    + by apply (Remaining_detail _ e ty cid rid (current_status l)
                  (current_ts l + gap) L).
    + rewrite ledger_size_snoc, <- Hlen. by eapply payload_detail_length.
  - exists (ts ++ [current_ts l + gap]). split.
    { apply Forall2_app; [done|]. constructor; [|constructor].
      subst e. by apply (payload_detail_time ty cid rid (current_status l)
                           (current_ts l + gap) L p L'). }
    split; [apply gaps_ok_snoc; [done|]; rewrite <- Hcur; lia|].
    by rewrite List.last_last.
  - by rewrite status_of_snoc, Hst.
  - apply Forall_app. split; [done|]. apply Forall_singleton.
    subst e. by apply (payload_detail_fields ty cid rid (current_status l)
                         (current_ts l + gap) L p L').
  - apply Forall_app. split; [done|]. by apply Forall_singleton.
  - apply (history_ok_snoc _ e L); try done.
    subst e. by apply (payload_detail_ledger ty cid rid (current_status l)
                         (current_ts l + gap) L p L').
Qed.

Lemma lifecycle_step_emitted {zone : LocalTime} words oid cid rid ty l w :
  event_type <$> emitted (run (lifecycle_step words oid cid rid ty l) w) =
  (event_type <$> emitted l) ++ [ty].
Proof.
  unfold run, lifecycle_step. unfold bind at 1.
  destruct (with_random _ w) as [gap w1]. unfold bind at 1.
  unfold _create_event. unfold bind at 1.
  destruct (uuid4 w1) as [id w2]. unfold bind at 1.
  destruct (_create_payload _ _ _ _ _ _ _ _) as [p w3].
  unfold ret. cbn [fst emitted]. by rewrite fmap_app.
Qed.

Lemma lifecycle_loop_emitted {zone : LocalTime} words oid cid rid steps l w :
  event_type <$> emitted (run (lifecycle_loop words oid cid rid steps l) w) =
  (event_type <$> emitted l) ++ steps.
Proof.
  revert l w. induction steps as [|ty steps IH]; intros l w.
  - by rewrite app_nil_r.
  - unfold run. rewrite lifecycle_loop_cons. fold (run (lifecycle_loop words
      oid cid rid steps (run (lifecycle_step words oid cid rid ty l) w))
      (exec (lifecycle_step words oid cid rid ty l) w)).
    rewrite IH, lifecycle_step_emitted, <- app_assoc. done.
Qed.

(** The pattern that [random.choices] returns is the one that the draw
    selects by the cumulative weights. *)
Lemma choices_pattern_for t :
  run (PyRandom.choices HAPPY_PATH ORDER_PATTERNS (map weight ORDER_PATTERNS)) t =
  pattern_for (random_val t).
Proof.
  unfold run, PyRandom.choices. unfold bind at 1. rewrite random_eq.
  unfold ret. cbn [fst]. destruct (random_val_range t) as [H0 H1].
  set (r := random_val t) in *. unfold pattern_for.
  cbn [map ORDER_PATTERNS weight HAPPY_PATH EARLY_CANCEL LATE_CANCEL
       COMPLEX_ORDER WITH_UPDATES PyRandom.accumulate List.last length Nat.sub
       PyRandom.bisect].
  repeat match goal with
         | |- context [Qle_bool ?a ?b] =>
             let H := fresh "Hle" in
             destruct (Qle_bool a b) eqn:H;
             [apply Qle_bool_iff in H
             |apply not_true_iff_false in H; rewrite Qle_bool_iff in H;
              apply Qnot_le_lt in H]
         | |- context [Qltb ?a ?b] =>
             let H := fresh "Hlt" in
             destruct (Qltb a b) eqn:H;
             [apply Qltb_true in H | apply Qltb_false in H]
         end; try reflexivity; exfalso; lra.
Qed.

Lemma choices_eq {A} (d : A) population weights t :
  PyRandom.choices d population weights t =
  (run (PyRandom.choices d population weights) t, next t).
Proof. reflexivity. Qed.

Lemma generate_order_lifecycle_prologue {zone : LocalTime} words oid base w :
  let f := faker_random w in
  let pattern := pattern_for (random_val (py_random w)) in
  let cid := "cust_" +:+ substring 0 8 (uuid_str (cells f (cursor f))) in
  let rid := "rest_" +:+ substring 0 8 (uuid_str (cells f (S (cursor f)))) in
  let w1 := {| py_random := next (py_random w);
               faker_random := next (next f);
               os_entropy := os_entropy w;
               order_items := <[oid := []]> (order_items w) |} in
  generate_order_lifecycle words oid base w =
  (emitted (run (lifecycle_loop words oid cid rid (events pattern)
                   (fresh_locals base)) w1),
   exec (lifecycle_loop words oid cid rid (events pattern)
           (fresh_locals base)) w1).
Proof.
  intros f pattern cid rid w1.
  unfold generate_order_lifecycle. unfold bind at 1.
  unfold with_random. rewrite choices_eq, choices_pattern_for.
  fold pattern. unfold set_items, faker_uuid4, with_faker.
  repeat (unfold bind at 1; unfold draw, ret; cbv beta iota;
          cbn [py_random faker_random os_entropy order_items]).
  unfold run, exec.
  rewrite (surjective_pairing (lifecycle_loop _ _ _ _ _ _ _)). reflexivity.
Qed.

Lemma generate_order_lifecycle_shape {zone : LocalTime} words oid base w :
  ∃ l, run (generate_order_lifecycle words oid base) w = emitted l ∧
       event_type <$> emitted l =
         events (pattern_for (random_val (py_random w))) ∧
       shape_inv oid base l (exec (generate_order_lifecycle words oid base) w).
Proof.
  unfold run, exec. rewrite generate_order_lifecycle_prologue. cbn [fst snd].
  eexists. split; [reflexivity|]. split.
  - by rewrite lifecycle_loop_emitted.
  - apply (lifecycle_loop_ind words oid _ _ (shape_inv oid base)).
    + intros. by apply lifecycle_step_shape.
    + unfold shape_inv, fresh_locals. cbn [emitted current_ts current_status].
      cbn [order_items].
      split; [|split; [|split; [|split; [|split]]]]; try done.
      * exists []. rewrite lookup_insert_eq. repeat split; constructor.
      * exists []. repeat split; constructor.
Qed.

Lemma pattern_for_catalogue r : pattern_for r ∈ ORDER_PATTERNS.
Proof.
  unfold pattern_for, ORDER_PATTERNS.
  repeat destruct (Qltb _ _); rewrite !elem_of_cons; auto 10.
Qed.

(** ** The catalogue *)

Lemma catalogue_shape p :
  p ∈ ORDER_PATTERNS →
  (3 <= length (events p) <= 7)%nat ∧
  head (events p) = Some ORDER_CREATED ∧
  (last (events p) = Some ORDER_CANCELLED ∨ last (events p) = Some ORDER_COMPLETED).
Proof.
  unfold ORDER_PATTERNS. rewrite !elem_of_cons, elem_of_nil.
  intros [->|[->|[->|[->|[->|[]]]]]]; simpl; repeat split; auto; lia.
Qed.

(** In every pattern the ledger holds one or two items when an item is
    removed and when the order completes. *)
Lemma catalogue_ledger p (i : nat) ty :
  p ∈ ORDER_PATTERNS → events p !! i = Some ty →
  ty = ORDER_ITEM_REMOVED ∨ ty = ORDER_COMPLETED →
  (1 <= ledger_size (take i (events p)) <= 2)%nat.
Proof.
  unfold ORDER_PATTERNS. rewrite !elem_of_cons, elem_of_nil.
  intros [->|[->|[->|[->|[->|[]]]]]] Hi Hty;
    do 8 (try (destruct i as [|i]; simpl in Hi;
               [first [ discriminate Hi
                      | injection Hi as <-;
                        first [ by destruct Hty | vm_compute; lia ] ]
               | try discriminate Hi])).
Qed.

Lemma sum_items_upper L :
  Forall item_in_range L → sum_items L <= 14995 * Z.of_nat (length L).
Proof.
  intros Hin. induction Hin as [|item L [Hq Hp] Hin IH]; [simpl; lia|].
  cbn [sum_items foldr length]. fold (sum_items L). nia.
Qed.

(** ** The generator: further properties of the returned sequence *)

(** X1: the event types of the returned sequence are, in order, the
    steps of one pattern of the catalogue: the one that the first draw
    [r] of [random.random()] selects by the cumulative weights
    ([HAPPY_PATH] for r < 0.5, [EARLY_CANCEL] up to 0.65, [LATE_CANCEL]
    up to 0.75, [COMPLEX_ORDER] up to 0.9, [WITH_UPDATES] above). *)
Theorem lifecycle_follows_pattern {zone : LocalTime} words oid base w :
  event_type <$> run (generate_order_lifecycle words oid base) w =
  events (pattern_for (random_val (py_random w))) ∧
  pattern_for (random_val (py_random w)) ∈ ORDER_PATTERNS.
Proof.
  destruct (generate_order_lifecycle_shape words oid base w) as (l & -> & Hty & _).
  split; [done | apply pattern_for_catalogue].
Qed.

(** X2: a returned sequence has between 3 and 7 events, starts with
    [ORDER_CREATED], ends with [ORDER_CANCELLED] or [ORDER_COMPLETED],
    and all its events carry the [order_id] of the call. *)
Theorem lifecycle_shape {zone : LocalTime} words oid base w :
  let evs := run (generate_order_lifecycle words oid base) w in
  (3 <= length evs <= 7)%nat ∧
  event_type <$> head evs = Some ORDER_CREATED ∧
  (event_type <$> last evs = Some ORDER_CANCELLED ∨
   event_type <$> last evs = Some ORDER_COMPLETED) ∧
  Forall (fun e => order_id e = oid) evs.
Proof.
  intros evs. subst evs.
  destruct (generate_order_lifecycle_shape words oid base w)
    as (l & -> & Hty & Hinv).
  destruct (catalogue_shape _ (pattern_for_catalogue (random_val (py_random w))))
    as (Hlen & Hhd & Hlast).
  rewrite <- Hty in Hlen, Hhd, Hlast.
  rewrite length_fmap in Hlen. rewrite head_lookup, list_lookup_fmap in Hhd.
  rewrite fmap_last in Hlast. rewrite head_lookup.
  split; [done|]. split; [done|]. split; [done|]. apply Hinv.
Qed.

(** X4: in a returned sequence an [ORDER_ITEM_REMOVED] event always
    names an item that the events before it added and did not remove;
    the synthetic id of the empty-ledger branch never occurs. *)
Theorem removed_item_was_added {zone : LocalTime} words oid base w (i : nat) e id :
  run (generate_order_lifecycle words oid base) w !! i = Some e →
  payload e = OrderItemRemovedPayload id →
  let before := take i (run (generate_order_lifecycle words oid base) w) in
  id ∈ added_ids before ∧
  ∃ L item, Remaining before L ∧ item ∈ L ∧ item_id item = id.
Proof.
  intros Hi Hp before. subst before.
  destruct (generate_order_lifecycle_shape words oid base w)
    as (l & Hl & Hty & Hinv).
  rewrite Hl in *.
  destruct Hinv as (_ & _ & _ & Hfields & _ & Hhist).
  destruct (Hhist i e Hi) as (L & Hrem & Hlen & _ & Hled).
  assert (Htag : event_type e = ORDER_ITEM_REMOVED).
  { destruct (Forall_lookup_1 _ _ _ _ Hfields Hi) as [Htag _].
    by rewrite Hp in Htag. }
  assert (Hsize : (1 <= ledger_size (take i (events (pattern_for
                         (random_val (py_random w))))) <= 2)%nat).
  { apply (catalogue_ledger _ i ORDER_ITEM_REMOVED);
      [apply pattern_for_catalogue | | by left].
    by rewrite <- Hty, list_lookup_fmap, Hi, <- Htag. }
  rewrite fmap_take, Hty in Hlen.
  unfold event_ledger_ok in Hled. rewrite Hp in Hled.
  destruct Hled as [-> | (item & Hin & Hid)]; [simpl in Hlen; lia|].
  split; [|by exists L, item].
  eapply elem_of_submseteq; [|by apply Remaining_added_ids].
  rewrite <- Hid. by apply list_elem_of_fmap_2.
Qed.

Lemma removed_item_was_added_witness :
  let evs := run (generate_order_lifecycle (zone := utc) sample_words "order_0000" 0)
               complex_world in
  "item_00000004"%string ∈ added_ids (take 3 evs) ∧
  ∃ L item, Remaining (take 3 evs) L ∧ item ∈ L ∧
            item_id item = "item_00000004"%string.
Proof.
  intros evs.
  eapply (removed_item_was_added (zone := utc) sample_words "order_0000" 0 complex_world 3);
    vm_compute; reflexivity.
Defined.

(** X5: in a returned sequence the ledger holds one or two items when
    the order completes, so that [total_amount] is always their sum of
    [price * quantity], between 5.99 and 299.90, and never the random
    fallback. *)
Theorem completed_total_is_ledger_sum {zone : LocalTime} words oid base w (i : nat) e cts total :
  run (generate_order_lifecycle words oid base) w !! i = Some e →
  payload e = OrderCompletedPayload cts total →
  ∃ L, Remaining (take i (run (generate_order_lifecycle words oid base) w)) L ∧
       (1 <= length L <= 2)%nat ∧ total = sum_items L ∧
       599 <= total <= 29990.
Proof.
  intros Hi Hp.
  destruct (generate_order_lifecycle_shape words oid base w)
    as (l & Hl & Hty & Hinv).
  rewrite Hl in *.
  destruct Hinv as (_ & _ & _ & Hfields & _ & Hhist).
  destruct (Hhist i e Hi) as (L & Hrem & Hlen & Hin & Hled).
  assert (Htag : event_type e = ORDER_COMPLETED).
  { destruct (Forall_lookup_1 _ _ _ _ Hfields Hi) as [Htag _].
    by rewrite Hp in Htag. }
  assert (Hsize : (1 <= ledger_size (take i (events (pattern_for
                         (random_val (py_random w))))) <= 2)%nat).
  { apply (catalogue_ledger _ i ORDER_COMPLETED);
      [apply pattern_for_catalogue | | by right].
    by rewrite <- Hty, list_lookup_fmap, Hi, <- Htag. }
  rewrite fmap_take, Hty in Hlen. rewrite <- Hlen in Hsize.
  unfold event_ledger_ok in Hled. rewrite Hp in Hled.
  assert (Hne : L ≠ []) by (intros ->; simpl in Hsize; lia).
  exists L. split; [done|]. split; [done|]. split; [by apply Hled|].
  rewrite (Hled Hne).
  assert (H1 := sum_items_lower L Hin Hne). assert (H2 := sum_items_upper L Hin).
  lia.
Qed.

Lemma completed_total_is_ledger_sum_witness :
  let evs := run (generate_order_lifecycle (zone := utc) sample_words "order_0000" 0)
               complex_world in
  ∃ L, Remaining (take 6 evs) L ∧ (1 <= length L <= 2)%nat ∧
       5695 = sum_items L ∧ 599 <= 5695 <= 29990.
Proof.
  intros evs.
  eapply (completed_total_is_ledger_sum (zone := utc) sample_words "order_0000" 0
            complex_world 6); vm_compute; reflexivity.
Defined.

(** ** The generator: timestamps *)

Lemma gaps_ok_consecutive base ts (i : nat) t1 t2 :
  gaps_ok base ts → ts !! i = Some t1 → ts !! S i = Some t2 →
  1000000 <= t2 - t1 <= 30000000.
Proof.
  revert base i. induction ts as [|t0 ts IH]; intros base i Hg H1 H2; [done|].
  destruct Hg as [_ Hg]. destruct i as [|i]; simpl in H1, H2.
  - injection H1 as <-. destruct ts as [|t ts]; [done|].
    simpl in H2. injection H2 as <-. by destruct Hg.
  - by apply (IH t0 i).
Qed.

Lemma generate_order_lifecycle_chain {zone : LocalTime} words oid base w :
  ∃ ts, Forall2 event_time_ok
          (run (generate_order_lifecycle words oid base) w) ts ∧
        gaps_ok base ts ∧ (length ts <= 7)%nat.
Proof.
  destruct (generate_order_lifecycle_shape words oid base w)
    as (l & -> & Hty & Hinv).
  destruct Hinv as (_ & (ts & Hts & Hg & _) & _). exists ts.
  split; [done|]. split; [done|].
  destruct (catalogue_shape _ (pattern_for_catalogue (random_val (py_random w))))
    as (Hlen & _).
  rewrite <- Hty, length_fmap in Hlen.
  apply Forall2_length in Hts. lia.
Qed.

Lemma chain_window base ts (i : nat) t :
  gaps_ok base ts → (length ts <= 7)%nat → ts !! i = Some t →
  base + 1000000 <= t <= base + 210000000.
Proof.
  intros Hg Hlen Hi. assert (Hb := gaps_ok_bounds base ts i t Hg Hi).
  apply lookup_lt_Some in Hi as Hlt. lia.
Qed.

(** Every event of a lifecycle was created at a wall-clock time
    between 1 and 210 seconds after [base_timestamp]. *)
Lemma generate_order_lifecycle_times {zone : LocalTime} words oid base w e :
  e ∈ run (generate_order_lifecycle words oid base) w →
  ∃ t, event_time_ok e t ∧ base + 1000000 <= t <= base + 210000000.
Proof.
  intros [i Hi]%list_elem_of_lookup.
  destruct (generate_order_lifecycle_chain words oid base w)
    as (ts & Hts & Hg & Hlen).
  destruct (Forall2_lookup_l _ _ _ _ _ Hts Hi) as (t & Ht & Hok).
  exists t. split; [done|]. by apply (chain_window base ts i).
Qed.

Lemma event_time_steady {zone : LocalTime} off dt e t :
  steady off dt → event_time_ok e t →
  dt - 43200000000 <= t <= dt + 43200000000 →
  t - off * 1000000 - 1125 < 1000 * event_ts e <= t - off * 1000000 + 125.
Proof.
  intros Hsteady [-> _] Ht. by apply (timestamp_millis_steady off dt).
Qed.

Lemma Sorted_of_consecutive {A} (R : A → A → Prop) (l : list A) :
  (∀ (i : nat) x y, l !! i = Some x → l !! S i = Some y → R x y) → Sorted R l.
Proof.
  induction l as [|x l IH]; intros Hl; [constructor|]. constructor.
  - apply IH. intros i a b Ha Hb. by apply (Hl (S i)).
  - destruct l as [|y l]; constructor. by apply (Hl 0%nat).
Qed.

Lemma utc_steady dt :
  259200 <= dt `div` 1000000 < 2 ^ 37 → steady (zone := utc) 0 dt.
Proof.
  intros Hdt. split; [lia|]. split; [done|]. intros u _.
  unfold localtime, utc. lia.
Qed.

(** X3: in a returned sequence the payload of every event is the
    variant of its [event_type] and [schema_version] is 1; a created
    order is [PENDING]; an added item has a quantity from 1 to 5 and a
    price from 5.99 to 29.99; an update names [PENDING] or [CONFIRMED]
    as new status; a cancellation reason is one of the five of the
    list; [completed_ts] is the event's own timestamp and the total is
    at least 5.99.  Where the time zone keeps its offset around
    [base_timestamp], the estimated delivery of a confirmation lies 30
    to 90 minutes after the event, to a millisecond: between 1799999
    and 5400001 milliseconds after [event_ts]. *)
Theorem lifecycle_payloads {zone : LocalTime} words oid base w :
  let evs := run (generate_order_lifecycle words oid base) w in
  Forall event_fields_ok evs ∧
  ∀ off, steady off base → Forall delivery_ok evs.
Proof.
  intros evs. subst evs. split.
  - destruct (generate_order_lifecycle_shape words oid base w)
      as (l & -> & _ & Hinv).
    apply Hinv.
  - intros off Hsteady. apply Forall_forall. intros e He.
    destruct (generate_order_lifecycle_times words oid base w e He)
      as (t & Hok & Ht).
    assert (Hm := event_time_steady off base e t Hsteady Hok ltac:(lia)).
    destruct Hok as [_ Hets]. unfold delivery_ok.
    destruct (payload e) as [| | | |by_ ets| |]; try done.
    destruct Hets as (m & Hmin & ->). unfold timedelta_minutes.
    assert (Hd := timestamp_millis_steady off base (t + m * 60000000)
                    Hsteady ltac:(lia)).
    lia.
Qed.

Lemma lifecycle_payloads_witness :
  let evs := run (generate_order_lifecycle (zone := utc) sample_words
                    "order_0000" 1772938798000000) complex_world in
  Forall event_fields_ok evs ∧ Forall delivery_ok evs ∧
  payload <$> evs !! 5%nat =
    Some (OrderConfirmedPayload "user_00000020" 1772941504000).
Proof.
  intros evs.
  destruct (lifecycle_payloads (zone := utc) sample_words "order_0000"
              1772938798000000 complex_world) as [Hfields Hdelivery].
  split; [exact Hfields|]. split.
  - apply (Hdelivery 0). apply utc_steady. vm_compute.
    split; [discriminate | reflexivity].
  - vm_compute. reflexivity.
Defined.

(** X6: where the time zone keeps its offset around [base_timestamp],
    two consecutive events of a returned sequence are between 1 and 30
    seconds apart: their [event_ts] differ by 999 to 30001
    milliseconds (the conversion through floats and the truncation to
    milliseconds cost at most one), so that [event_ts] is strictly
    increasing. *)
Theorem event_ts_consecutive_gap {zone : LocalTime} words oid base w off :
  steady off base →
  let evs := run (generate_order_lifecycle words oid base) w in
  (∀ (i : nat) e1 e2, evs !! i = Some e1 → evs !! S i = Some e2 →
                      999 <= event_ts e2 - event_ts e1 <= 30001) ∧
  StronglySorted Z.lt (event_ts <$> evs).
Proof.
  intros Hsteady evs.
  assert (Hgap : ∀ (i : nat) e1 e2, evs !! i = Some e1 → evs !! S i = Some e2 →
                   999 <= event_ts e2 - event_ts e1 <= 30001).
  { intros i e1 e2 H1 H2. subst evs.
    destruct (generate_order_lifecycle_chain words oid base w)
      as (ts & Hts & Hg & Hlen).
    destruct (Forall2_lookup_l _ _ _ _ _ Hts H1) as (t1 & Ht1 & Hok1).
    destruct (Forall2_lookup_l _ _ _ _ _ Hts H2) as (t2 & Ht2 & Hok2).
    assert (Hd := gaps_ok_consecutive base ts i t1 t2 Hg Ht1 Ht2).
    assert (Hw1 := chain_window base ts i t1 Hg Hlen Ht1).
    assert (Hw2 := chain_window base ts (S i) t2 Hg Hlen Ht2).
    assert (Hm1 := event_time_steady off base e1 t1 Hsteady Hok1 ltac:(lia)).
    assert (Hm2 := event_time_steady off base e2 t2 Hsteady Hok2 ltac:(lia)).
    lia. }
  split; [done|]. apply Sorted_StronglySorted; [apply _|].
  apply Sorted_of_consecutive. intros i x y Hx Hy.
  rewrite list_lookup_fmap in Hx, Hy.
  destruct (evs !! i) as [e1|] eqn:H1; [|done].
  destruct (evs !! S i) as [e2|] eqn:H2; [|done].
  simpl in Hx, Hy. injection Hx as <-. injection Hy as <-.
  specialize (Hgap i e1 e2 H1 H2). lia.
Qed.

Lemma event_ts_consecutive_gap_witness :
  let evs := run (generate_order_lifecycle (zone := utc) sample_words
                    "order_0000" 1772938798000000) complex_world in
  (∀ (i : nat) e1 e2, evs !! i = Some e1 → evs !! S i = Some e2 →
                      999 <= event_ts e2 - event_ts e1 <= 30001) ∧
  StronglySorted Z.lt (event_ts <$> evs).
Proof.
  apply (event_ts_consecutive_gap (zone := utc) sample_words "order_0000"
           1772938798000000 complex_world 0).
  apply utc_steady. vm_compute. split; [discriminate | reflexivity].
Defined.

(** X7: where the time zone keeps its offset around [base_timestamp],
    every event of a returned sequence is later than [base_timestamp]
    and at most 210 seconds and a millisecond (7 events of at most 30
    seconds) after it, both read as [event_ts] is. *)
Theorem event_ts_window {zone : LocalTime} words oid base w off :
  steady off base →
  Forall (fun e => timestamp_millis base < event_ts e
                   <= timestamp_millis base + 210001)
         (run (generate_order_lifecycle words oid base) w).
Proof.
  intros Hsteady. apply Forall_forall. intros e He.
  destruct (generate_order_lifecycle_times words oid base w e He)
    as (t & Hok & Ht).
  assert (Hm := event_time_steady off base e t Hsteady Hok ltac:(lia)).
  assert (Hb := timestamp_millis_steady off base base Hsteady ltac:(lia)).
  lia.
Qed.

Lemma event_ts_window_witness :
  Forall (fun e => timestamp_millis (zone := utc) 1772938798000000 < event_ts e
                   <= timestamp_millis (zone := utc) 1772938798000000 + 210001)
         (run (generate_order_lifecycle (zone := utc) sample_words
                 "order_0000" 1772938798000000) complex_world).
Proof.
  apply (event_ts_window (zone := utc) sample_words "order_0000"
           1772938798000000 complex_world 0).
  apply utc_steady. vm_compute. split; [discriminate | reflexivity].
Defined.

(** X8: where the time zone keeps its offset, lifecycles whose base
    timestamps are a positive multiple of 5 minutes apart, as
    [run_simulation] spaces its orders, do not overlap in time: every
    event of the earlier order is older than every event of the later
    one. *)
Theorem orders_do_not_overlap {zone : LocalTime} words oid1 oid2 base k w1 w2 e1 e2
    off :
  1 <= k →
  steady off base → steady off (base + timedelta_minutes (k * 5)) →
  e1 ∈ run (generate_order_lifecycle words oid1 base) w1 →
  e2 ∈ run (generate_order_lifecycle words oid2
              (base + timedelta_minutes (k * 5))) w2 →
  event_ts e1 < event_ts e2.
Proof.
  intros Hk Hsteady1 Hsteady2 He1 He2.
  destruct (generate_order_lifecycle_times words oid1 base w1 e1 He1)
    as (t1 & Hok1 & Ht1).
  destruct (generate_order_lifecycle_times words oid2 _ w2 e2 He2)
    as (t2 & Hok2 & Ht2).
  assert (Hm1 := event_time_steady off base e1 t1 Hsteady1 Hok1 ltac:(lia)).
  assert (Hm2 := event_time_steady off _ e2 t2 Hsteady2 Hok2 ltac:(lia)).
  unfold timedelta_minutes in *. lia.
Qed.

Lemma orders_do_not_overlap_witness :
  let evs1 := run (generate_order_lifecycle (zone := utc) sample_words
                     "order_0000" 1772938798000000) complex_world in
  let evs2 := run (generate_order_lifecycle (zone := utc) sample_words
                     "order_0001"
                     (1772938798000000 + timedelta_minutes (1 * 5)))
                (sample_world [] [] []) in
  ∃ e1 e2, last evs1 = Some e1 ∧ head evs2 = Some e2 ∧
           event_ts e1 < event_ts e2.
Proof.
  intros evs1 evs2. eexists _, _. split; [vm_compute; reflexivity|].
  split; [vm_compute; reflexivity|].
  apply (orders_do_not_overlap (zone := utc) sample_words "order_0000"
           "order_0001" 1772938798000000 1 complex_world
           (sample_world [] [] []) _ _ 0).
  - lia.
  - apply utc_steady. vm_compute. split; [discriminate | reflexivity].
  - apply utc_steady. vm_compute. split; [discriminate | reflexivity].
  - apply (bool_decide_unpack _). vm_compute. exact I.
  - apply (bool_decide_unpack _). vm_compute. exact I.
Defined.

(** ** The injector: further properties *)

Lemma main_of_sublist self rest t :
  rest `sublist_of` main_of self rest t ∧
  main_of self rest t `sublist_of` doubled rest.
Proof.
  revert t. induction rest as [|e rest IH]; intros t; [done|].
  destruct (IH (next (next t))) as [IH1 IH2].
  cbn [main_of]. unfold doubled. rewrite bind_cons. fold (doubled rest).
  destruct (dup_copies_cases self e t) as [-> | ->]; simpl; split.
  - by apply sublist_skip.
  - by apply sublist_skip, sublist_cons.
  - by apply sublist_skip, sublist_cons.
  - by apply sublist_skip, sublist_skip.
Qed.

Lemma main_of_always self rest t :
  (1 <= duplicate_probability self)%Q → main_of self rest t = doubled rest.
Proof.
  intros Hp. revert t. induction rest as [|e rest IH]; intros t; [done|].
  cbn [main_of]. unfold doubled. rewrite bind_cons. fold (doubled rest).
  unfold dup_copies. rewrite random_always by done. by rewrite IH.
Qed.

Lemma late_of_always self i rest t :
  (1 <= late_arrival_probability self)%Q →
  late_of self (S i) rest t = rest.
Proof.
  intros Hp. revert i t. induction rest as [|e rest IH]; intros i t; [done|].
  cbn [late_of]. unfold late_copies. rewrite random_always by done.
  simpl. by rewrite IH.
Qed.

Lemma doubled_Permutation evs : doubled evs ≡ₚ evs ++ evs.
Proof.
  induction evs as [|e evs IH]; [done|].
  unfold doubled. rewrite bind_cons. fold (doubled evs). simpl.
  rewrite IH. by rewrite <- Permutation_middle.
Qed.

(** X9: with the three probabilities at 0 (or below) the injector
    changes nothing: [main] is the input and [late] is empty. *)
Theorem inject_edge_cases_identity self (evs : list Event) t :
  (duplicate_probability self <= 0)%Q →
  (late_arrival_probability self <= 0)%Q →
  (out_of_order_probability self <= 0)%Q →
  run (inject_edge_cases self evs) t = (evs, []).
Proof.
  intros Hd Hl Ho. rewrite inject_edge_cases_eq.
  by rewrite main_of_never, late_of_never, out_of_order_never.
Qed.

Lemma inject_edge_cases_identity_witness :
  run (inject_edge_cases
         {| duplicate_probability := 0%Q; out_of_order_probability := 0%Q;
            late_arrival_probability := 0%Q |}
         [ev_a; ev_b; ev_c]) (tape_of [5; 7; 11]%N) =
  ([ev_a; ev_b; ev_c], []).
Proof. apply inject_edge_cases_identity; vm_compute; discriminate. Defined.

(** X10: the injector drops nothing from [main] and invents nothing:
    as multisets, the input is contained in [main] and [main] in two
    copies of the input; so every input event occurs in [main] once or
    twice as often as in the input, and every element of [main] and of
    [late] is an input event. *)
Theorem inject_edge_cases_multiset self (evs : list Event) t :
  let main := (run (inject_edge_cases self evs) t).1 in
  let late := (run (inject_edge_cases self evs) t).2 in
  evs ⊆+ main ∧ main ⊆+ evs ++ evs ∧
  Forall (fun e => e ∈ evs) main ∧ Forall (fun e => e ∈ evs) late.
Proof.
  intros main late. subst main late. rewrite inject_edge_cases_eq. cbn [fst snd].
  destruct (main_of_sublist self evs t) as [H1 H2].
  set (t' := Nat.iter _ next t).
  assert (Hperm := out_of_order_Permutation self (main_of self evs t) t').
  split; [|split; [|split]].
  - rewrite Hperm. by apply sublist_submseteq.
  - rewrite Hperm, <- doubled_Permutation. by apply sublist_submseteq.
  - apply Forall_forall. intros e He. rewrite Hperm in He.
    by apply main_of_elem in He.
  - apply Forall_forall. intros e He.
    eapply elem_of_submseteq; [exact He|].
    apply sublist_submseteq. etrans; [apply late_of_first | apply tail_sublist].
Qed.

(** X11: when the out-of-order block cannot fire ([p_oo <= 0]), [main]
    keeps the input order: the input is a subsequence of [main], and
    [main] is a subsequence of the input with every event written
    twice. *)
Theorem inject_edge_cases_keeps_order self (evs : list Event) t :
  (out_of_order_probability self <= 0)%Q →
  let main := (run (inject_edge_cases self evs) t).1 in
  evs `sublist_of` main ∧ main `sublist_of` doubled evs.
Proof.
  intros Ho main. subst main. rewrite inject_edge_cases_eq. cbn [fst].
  rewrite out_of_order_never by done. apply main_of_sublist.
Qed.

Lemma inject_edge_cases_keeps_order_witness :
  let self := {| duplicate_probability := Qmake 1 2;
                 out_of_order_probability := 0%Q;
                 late_arrival_probability := Qmake 1 2 |} in
  let main := (run (inject_edge_cases self [ev_a; ev_b; ev_c])
                 (tape_of [0; 0; 2 ^ 52; 0; 0; 2 ^ 52]%N)).1 in
  main = [ev_a; ev_a; ev_b; ev_c; ev_c] ∧
  [ev_a; ev_b; ev_c] `sublist_of` main ∧
  main `sublist_of` doubled [ev_a; ev_b; ev_c].
Proof.
  intros self main. split; [vm_compute; reflexivity|].
  apply (inject_edge_cases_keeps_order self [ev_a; ev_b; ev_c]).
  vm_compute. discriminate.
Defined.

(** X12: with [p_late] at 1 (or above) every event but the first is
    scheduled late, in input order; with [p_dup] at 1 (or above) and no
    shuffle every event is sent twice in a row. *)
Theorem inject_edge_cases_saturated self (evs : list Event) t :
  ((1 <= late_arrival_probability self)%Q →
   (run (inject_edge_cases self evs) t).2 = tail evs) ∧
  ((1 <= duplicate_probability self)%Q →
   (out_of_order_probability self <= 0)%Q →
   (run (inject_edge_cases self evs) t).1 = doubled evs).
Proof.
  rewrite inject_edge_cases_eq. cbn [fst snd]. split.
  - intros Hl. destruct evs as [|e evs]; [done|].
    cbn [late_of tail]. rewrite late_copies_first. by apply late_of_always.
  - intros Hd Ho. rewrite out_of_order_never by done. by apply main_of_always.
Qed.

Lemma inject_edge_cases_saturated_witness :
  let self := {| duplicate_probability := 1%Q; out_of_order_probability := 0%Q;
                 late_arrival_probability := 1%Q |} in
  run (inject_edge_cases self [ev_a; ev_b; ev_c]) (tape_of [3; 1; 4]%N) =
  ([ev_a; ev_a; ev_b; ev_b; ev_c; ev_c], [ev_b; ev_c]).
Proof.
  intros self.
  destruct (inject_edge_cases_saturated self [ev_a; ev_b; ev_c]
              (tape_of [3; 1; 4]%N)) as [Hlate Hmain].
  rewrite (surjective_pairing (run _ _)).
  rewrite Hlate, Hmain; [reflexivity | | |]; vm_compute; discriminate.
Defined.

(** ** The producer: order ids *)

Lemma digits_rev_value fuel n :
  (n < fuel)%nat →
  foldl (fun acc d => (acc * 10 + d)%nat) 0%nat (rev (digits_rev fuel n)) = n.
Proof.
  revert n. induction fuel as [|fuel IH]; intros n Hn; [lia|].
  cbn [digits_rev rev]. rewrite foldl_snoc.
  assert (Hdm := Nat.div_mod_eq n 10).
  destruct (Nat.eqb_spec (n / 10) 0) as [Hz|Hnz].
  - cbn [rev foldl]. lia.
  - rewrite IH; [lia|].
    assert (n / 10 < n)%nat by (apply Nat.div_lt; lia). lia.
Qed.

Lemma digits_rev_digits fuel n : Forall (fun d => (d < 10)%nat) (digits_rev fuel n).
Proof.
  revert n. induction fuel as [|fuel IH]; intros n; [constructor|].
  cbn [digits_rev]. constructor.
  - apply Nat.mod_upper_bound. lia.
  - destruct (n / 10 =? 0)%nat; [constructor | apply IH].
Qed.

Lemma int_of_digit_chars (ds : list nat) (a : nat) :
  Forall (fun d => (d < 10)%nat) ds →
  foldl (fun acc c => (acc * 10 + (nat_of_ascii c - 48))%nat) a
        (digit_char <$> ds) =
  foldl (fun acc d => (acc * 10 + d)%nat) a ds.
Proof.
  intros Hds. revert a. induction Hds as [|d ds Hd _ IH]; intros a; [done|].
  cbn [fmap list_fmap foldl]. rewrite IH. f_equal.
  unfold digit_char. rewrite nat_ascii_embedding by lia. lia.
Qed.

Lemma int_of_zeros (k : nat) (l : list ascii) :
  foldl (fun acc c => (acc * 10 + (nat_of_ascii c - 48))%nat) 0%nat
        (replicate k "0"%char ++ l) =
  foldl (fun acc c => (acc * 10 + (nat_of_ascii c - 48))%nat) 0%nat l.
Proof. induction k as [|k IH]; [done|]. exact IH. Qed.

Lemma list_ascii_of_string_app (s1 s2 : string) :
  list_ascii_of_string (s1 +:+ s2) =
  list_ascii_of_string s1 ++ list_ascii_of_string s2.
Proof. induction s1 as [|c s1 IH]; [done|]. simpl. by rewrite IH. Qed.

(** X13: the order number is read back from the order id that
    [run_simulation] formats with [f"order_{order_num:04d}"], for every
    number of digits; so different orders never share an id. *)
Theorem order_id_round_trip (order_num : nat) :
  order_num_of (order_id_of order_num) = order_num ∧
  ∀ other, order_id_of other = order_id_of order_num → other = order_num.
Proof.
  assert (Hrt : ∀ n, order_num_of (order_id_of n) = n).
  { intros n. unfold order_num_of, order_id_of.
    change (drop 6 (list_ascii_of_string ("order_" +:+ ?s)))
      with (list_ascii_of_string s).
    rewrite string_of_list_ascii_of_string. unfold int_of_digits, zfill.
    rewrite list_ascii_of_string_app, list_ascii_of_string_of_list_ascii.
    rewrite int_of_zeros. unfold str_of_nat.
    rewrite list_ascii_of_string_of_list_ascii.
    rewrite int_of_digit_chars
      by (apply Forall_rev, digits_rev_digits).
    apply digits_rev_value. lia. }
  split; [apply Hrt|].
  intros other Heq. by rewrite <- (Hrt other), Heq, Hrt.
Qed.

(** ** The producer: delivery reports *)

Lemma delivery_callbacks_spec reports st :
  ∃ st' lines, delivery_callbacks reports st = (st', lines) ∧
    let n := length (filter (fun r => is_delivered r = true) reports) in
    delivered_count st' = (delivered_count st + n)%nat ∧
    failed_count st' = (failed_count st + (length reports - n))%nat ∧
    progress_counts lines =
      filter (fun c => (c mod 10)%nat = 0%nat) (seq (S (delivered_count st)) n).
Proof.
  revert st. induction reports as [|[err msg] reports IH]; intros st.
  - eexists _, _. split; [reflexivity|]. simpl. repeat split; lia.
  - cbn [delivery_callbacks]. unfold delivery_callback. cbn [fst snd].
    assert (Hle := length_filter (fun r : DeliveryReport => is_delivered r = true)
                     reports).
    destruct err as [err|].
    + destruct (IH {| delivered_count := delivered_count st;
                      failed_count := failed_count st + 1 |})
        as (st2 & lines2 & -> & H1 & H2 & H3).
      eexists _, _. split; [reflexivity|].
      rewrite filter_cons_False by (unfold is_delivered; simpl; congruence).
      cbn [delivered_count failed_count length] in *.
      repeat split; [lia | lia |].
      unfold progress_counts in *. rewrite bind_app. exact H3.
    + destruct (IH {| delivered_count := delivered_count st + 1;
                      failed_count := failed_count st |})
        as (st2 & lines2 & -> & H1 & H2 & H3).
      eexists _, _. split; [reflexivity|].
      rewrite filter_cons_True by done.
      cbn [delivered_count failed_count length] in *.
      repeat split; [lia | lia |].
      unfold progress_counts in *. rewrite bind_app, H3.
      cbn [seq]. rewrite Nat.add_1_r.
      destruct (Nat.eqb_spec (S (delivered_count st) mod 10) 0) as [Hm|Hm].
      * by rewrite filter_cons_True by done.
      * by rewrite filter_cons_False by done.
Qed.

(** X14: after the callbacks of any sequence of delivery reports,
    [delivered_count] has grown by the number of reports without error
    and [failed_count] by the number of reports with one, and a
    progress line was printed exactly when [delivered_count] reached a
    multiple of 10. *)
Theorem delivery_callback_counts reports st :
  let n := length (filter (fun r => is_delivered r = true) reports) in
  let res := delivery_callbacks reports st in
  delivered_count res.1 = (delivered_count st + n)%nat ∧
  failed_count res.1 = (failed_count st + (length reports - n))%nat ∧
  (delivered_count res.1 + failed_count res.1 =
   delivered_count st + failed_count st + length reports)%nat ∧
  progress_counts res.2 =
    filter (fun c => (c mod 10)%nat = 0%nat) (seq (S (delivered_count st)) n).
Proof.
  intros n res. subst n res.
  destruct (delivery_callbacks_spec reports st) as (st' & lines & -> & H1 & H2 & H3).
  assert (Hle := length_filter (fun r : DeliveryReport => is_delivered r = true)
                   reports).
  cbn [fst snd]. repeat split; try done. lia.
Qed.

(** ** The producer: the messages of a run *)

Section ProducerProperties.

Context {zone : LocalTime}.
Variable words : list string.
Variable config : SimulationConfig.
Variable accepts : list Message -> Event -> bool.

Lemma send_all_spec evs s :
  ∃ out log,
    send_all accepts evs s =
      (out, {| sim_world := sim_world s; sent := sent s ++ log |}) ∧
    log `prefix_of` (message_of <$> evs) ∧
    (out = Returned tt → log = message_of <$> evs) ∧
    ((∀ l e, accepts l e = true) → out = Returned tt).
Proof.
  revert s. induction evs as [|e evs IH]; intros s.
  - exists (Returned tt), []. rewrite app_nil_r. by destruct s.
  - cbn [send_all]. unfold sim_bind, send_event.
    destruct (accepts (sent s) e) eqn:Hacc.
    + destruct (IH {| sim_world := sim_world s; sent := sent s ++ [message_of e] |})
        as (out & log & -> & Hpre & Hret & Hall).
      exists out, (message_of e :: log). cbn [sim_world sent].
      rewrite <- app_assoc. split; [done|]. rewrite fmap_cons.
      split; [by apply prefix_cons|]. split; [|done].
      intros Hout. by rewrite (Hret Hout).
    + exists Raised, []. rewrite app_nil_r. split; [by destruct s|].
      split; [apply prefix_nil|]. split; [done|].
      intros Hall. by rewrite Hall in Hacc.
Qed.

Lemma simulate_order_spec base k late0 s :
  let injected := run (plan_order words config base k) (sim_world s) in
  ∃ out log,
    simulate_order words config accepts base k late0 s =
      (out, {| sim_world := exec (plan_order words config base k) (sim_world s);
               sent := sent s ++ log |}) ∧
    log `prefix_of` (message_of <$> injected.1) ∧
    (∀ late, out = Returned late →
             late = late0 ++ injected.2 ∧ log = message_of <$> injected.1) ∧
    ((∀ l e, accepts l e = true) → out = Returned (late0 ++ injected.2)).
Proof.
  intros injected0. subst injected0.
  destruct (generate_order_lifecycle words (order_id_of k)
              (base + timedelta_minutes (Z.of_nat k * 5)) (sim_world s))
    as [evs w1] eqn:Hgen.
  destruct (with_random (inject_edge_cases (producer_injector config) evs) w1)
    as [injected w2] eqn:Hinj.
  assert (Hplan : plan_order words config base k (sim_world s) = (injected, w2)).
  { unfold plan_order, bind. by rewrite Hgen. }
  unfold run, exec. rewrite Hplan. cbn [fst snd].
  unfold simulate_order.
  unfold sim_bind at 1. unfold sim_lift at 1. rewrite Hgen.
  unfold sim_bind at 1. unfold sim_lift at 1. cbn [sim_world sent]. rewrite Hinj.
  destruct (send_all_spec injected.1 {| sim_world := w2; sent := sent s |})
    as (out & log & Heq & Hpre & Hret & Hall).
  unfold sim_bind at 1. rewrite Heq. cbn [sim_world sent].
  destruct out as [[]|].
  - exists (Returned (late0 ++ injected.2)), log. split; [done|].
    split; [done|]. split; [|done].
    intros late [= <-]. split; [done|]. by apply Hret.
  - exists Raised, log. split; [done|]. split; [done|]. split; [done|].
    intros Hacc. by specialize (Hall Hacc).
Qed.

Lemma plan_orders_cons base k rest w :
  plan_orders words config base (k :: rest) w =
  (run (plan_order words config base k) w ::
     run (plan_orders words config base rest)
       (exec (plan_order words config base k) w),
   exec (plan_orders words config base rest)
     (exec (plan_order words config base k) w)).
Proof.
  cbn [plan_orders]. unfold bind at 1. unfold run, exec.
  destruct (plan_order words config base k w) as [injected w1]. cbn [fst snd].
  unfold bind, ret. by destruct (plan_orders words config base rest w1).
Qed.

Lemma plan_orders_run_cons base k rest w :
  run (plan_orders words config base (k :: rest)) w =
  run (plan_order words config base k) w ::
  run (plan_orders words config base rest)
    (exec (plan_order words config base k) w).
Proof. unfold run at 1. by rewrite plan_orders_cons. Qed.

Lemma plan_orders_exec_cons base k rest w :
  exec (plan_orders words config base (k :: rest)) w =
  exec (plan_orders words config base rest)
    (exec (plan_order words config base k) w).
Proof. unfold exec at 1. by rewrite plan_orders_cons. Qed.

Lemma orders_loop_spec base nums late0 s :
  ∃ out log w',
    orders_loop words config accepts base nums late0 s =
      (out, {| sim_world := w'; sent := sent s ++ log |}) ∧
    log `prefix_of`
      (message_of <$> plan_main (run (plan_orders words config base nums)
                                   (sim_world s))) ∧
    (∀ late, out = Returned late →
             late = late0 ++ plan_late (run (plan_orders words config base nums)
                                          (sim_world s)) ∧
             log = message_of <$> plan_main (run (plan_orders words config base nums)
                                               (sim_world s)) ∧
             w' = exec (plan_orders words config base nums) (sim_world s)) ∧
    ((∀ l e, accepts l e = true) →
     out = Returned (late0 ++ plan_late (run (plan_orders words config base nums)
                                           (sim_world s)))).
Proof.
  revert late0 s. induction nums as [|k rest IH]; intros late0 s.
  - exists (Returned late0), [], (sim_world s).
    change (run (plan_orders words config base []) (sim_world s))
      with (@nil (list Event * list Event)).
    change (plan_late []) with (@nil Event).
    change (plan_main []) with (@nil Event).
    rewrite !app_nil_r.
    split; [by destruct s|]. split; [done|]. split; [|done].
    by intros late [= <-].
  - cbn [orders_loop]. unfold sim_bind at 1.
    destruct (simulate_order_spec base k late0 s)
      as (out1 & log1 & -> & Hpre1 & Hret1 & Hall1).
    rewrite plan_orders_run_cons, plan_orders_exec_cons.
    set (injected := run (plan_order words config base k) (sim_world s)) in *.
    set (w1 := exec (plan_order words config base k) (sim_world s)) in *.
    unfold plan_main, plan_late. rewrite !bind_cons.
    fold (plan_main (run (plan_orders words config base rest) w1)).
    fold (plan_late (run (plan_orders words config base rest) w1)).
    rewrite fmap_app.
    destruct out1 as [late1|].
    + destruct (Hret1 late1 eq_refl) as [-> ->].
      destruct (IH (late0 ++ injected.2)
                  {| sim_world := w1;
                     sent := sent s ++ (message_of <$> injected.1) |})
        as (out & log & w' & -> & Hpre & Hret & Hall).
      cbn [sim_world sent] in *.
      exists out, ((message_of <$> injected.1) ++ log), w'.
      rewrite <- app_assoc. split; [done|].
      split; [by apply prefix_app|]. split.
      * intros late Hout. destruct (Hret late Hout) as (-> & -> & ->).
        by rewrite <- app_assoc.
      * intros Hacc. rewrite (Hall Hacc). by rewrite <- app_assoc.
    + eexists Raised, log1, _. split; [done|].
      split; [by apply prefix_app_r|]. split; [done|].
      intros Hacc. by specialize (Hall1 Hacc).
Qed.

End ProducerProperties.

Section RunProperties.

Context {zone : LocalTime}.
Variable words : list string.
Variable config : SimulationConfig.
Variable accepts : list Message -> Event -> bool.

Lemma plan_order_of base k w :
  order_plan_of words config base k (run (plan_order words config base k) w).
Proof.
  unfold order_plan_of, plan_order, run. unfold bind at 1.
  destruct (generate_order_lifecycle words _ _ w) as [evs w1] eqn:Hgen.
  unfold with_random.
  exists w, (py_random w1). rewrite Hgen. cbn [fst].
  by destruct (inject_edge_cases _ evs (py_random w1)).
Qed.

Lemma plan_orders_Forall2 base nums w :
  Forall2 (order_plan_of words config base) nums
    (run (plan_orders words config base nums) w).
Proof.
  revert w. induction nums as [|k rest IH]; intros w; [constructor|].
  rewrite plan_orders_run_cons. constructor; [apply plan_order_of | apply IH].
Qed.

Lemma inject_edge_cases_elem self evs t e :
  e ∈ (run (inject_edge_cases self evs) t).1 ∨
  e ∈ (run (inject_edge_cases self evs) t).2 → e ∈ evs.
Proof.
  rewrite inject_edge_cases_eq. cbn [fst snd]. intros [He | He].
  - rewrite out_of_order_Permutation in He. by apply main_of_elem in He.
  - eapply elem_of_submseteq; [exact He|]. apply sublist_submseteq.
    etrans; [apply late_of_first | apply tail_sublist].
Qed.

Lemma order_plan_events base k p e :
  order_plan_of words config base k p → e ∈ p.1 ∨ e ∈ p.2 →
  order_id e = order_id_of k ∧
  ∃ t, event_time_ok e t ∧
       base + timedelta_minutes (Z.of_nat k * 5) + 1000000 <= t
         <= base + timedelta_minutes (Z.of_nat k * 5) + 210000000.
Proof.
  intros (w & t & ->) He. apply inject_edge_cases_elem in He.
  set (oid := order_id_of k) in *.
  set (base_k := base + timedelta_minutes (Z.of_nat k * 5)) in *.
  split.
  - destruct (generate_order_lifecycle_shape words oid base_k w)
      as (l & Hl & _ & Hinv).
    rewrite Hl in He. destruct Hinv as (_ & _ & _ & _ & Hoid & _).
    by apply (proj1 (Forall_forall _ _) Hoid).
  - by apply (generate_order_lifecycle_times words oid base_k w).
Qed.

Lemma schedule_elem base nums w m :
  m ∈ schedule (run (plan_orders words config base nums) w) →
  ∃ k p, k ∈ nums ∧ order_plan_of words config base k p ∧
         m = message_of m.2 ∧ (m.2 ∈ p.1 ∨ m.2 ∈ p.2).
Proof.
  unfold schedule. intros (e & -> & He)%list_elem_of_fmap.
  assert (Hp : ∃ p, p ∈ run (plan_orders words config base nums) w ∧
                    (e ∈ p.1 ∨ e ∈ p.2)).
  { apply elem_of_app in He as [He | He];
      apply list_elem_of_bind in He as (p & He & Hp); exists p; auto. }
  destruct Hp as (p & Hp & He').
  apply list_elem_of_lookup in Hp as [i Hi].
  destruct (Forall2_lookup_r _ _ _ _ _ (plan_orders_Forall2 base nums w) Hi)
    as (k & Hk & Hplan).
  exists k, p. split; [by eapply list_elem_of_lookup_2|]. by repeat split.
Qed.

Lemma run_simulation_spec now s :
  let plans := run (plan_orders words config (now - 7200000000)
                      (seq 0 (num_orders config))) (sim_world s) in
  ∃ out log w',
    run_simulation words config accepts now s =
      (out, {| sim_world := w'; sent := sent s ++ log |}) ∧
    log `prefix_of` schedule plans ∧
    (out = Returned tt →
     log = schedule plans ∧
     w' = exec (plan_orders words config (now - 7200000000)
                  (seq 0 (num_orders config))) (sim_world s)) ∧
    ((∀ l e, accepts l e = true) → out = Returned tt).
Proof.
  intros plans. unfold run_simulation. unfold sim_bind at 1.
  destruct (orders_loop_spec words config accepts (now - 7200000000)
              (seq 0 (num_orders config)) [] s)
    as (out1 & log1 & w1 & -> & Hpre1 & Hret1 & Hall1).
  fold plans in Hpre1, Hret1, Hall1. unfold schedule. rewrite fmap_app.
  destruct out1 as [late|].
  - destruct (Hret1 late eq_refl) as (-> & -> & ->). cbn [app].
    destruct (send_all_spec accepts (plan_late plans)
                {| sim_world := exec (plan_orders words config (now - 7200000000)
                                        (seq 0 (num_orders config))) (sim_world s);
                   sent := sent s ++ (message_of <$> plan_main plans) |})
      as (out & log & -> & Hpre & Hret & Hall).
    cbn [sim_world sent].
    eexists out, ((message_of <$> plan_main plans) ++ log), _.
    rewrite <- app_assoc. split; [done|]. split; [by apply prefix_app|].
    split.
    + intros Hout. by rewrite (Hret Hout).
    + done.
  - eexists Raised, log1, _. split; [done|]. split; [by apply prefix_app_r|].
    split; [done|]. intros Hacc. by specialize (Hall1 Hacc).
Qed.

Lemma produced_since_app s w' log :
  produced_since s {| sim_world := w'; sent := sent s ++ log |} = log.
Proof. unfold produced_since. cbn [sent]. by rewrite drop_app_length. Qed.

End RunProperties.

Lemma generate_keeps_entries {zone : LocalTime} words oid base w oid' :
  is_Some (order_items w !! oid') ∨ oid' = oid →
  is_Some (order_items (exec (generate_order_lifecycle words oid base) w) !! oid').
Proof.
  destruct (generate_order_lifecycle_inv words oid base w) as (l & _ & Hinv).
  destruct Hinv as ((L & HL & _) & Hdel & _).
  destruct (decide (oid' = oid)) as [->|Hne]; [by rewrite HL|].
  intros [Hsome | ?]; [|done].
  apply (f_equal (fun m => m !! oid')) in Hdel.
  rewrite !lookup_delete_ne in Hdel by done. by rewrite Hdel.
Qed.

Lemma plan_order_keeps_entries {zone : LocalTime} words config base k w oid' :
  is_Some (order_items w !! oid') ∨ oid' = order_id_of k →
  is_Some (order_items (exec (plan_order words config base k) w) !! oid').
Proof.
  intros H. unfold plan_order, exec. unfold bind at 1.
  assert (Hgen := generate_keeps_entries words (order_id_of k)
                    (base + timedelta_minutes (Z.of_nat k * 5)) w oid' H).
  unfold exec in Hgen.
  destruct (generate_order_lifecycle words _ _ w) as [evs w1]. cbn [snd] in Hgen.
  unfold with_random. by destruct (inject_edge_cases _ evs (py_random w1)).
Qed.

Lemma plan_orders_keeps_entries {zone : LocalTime} words config base nums w oid' :
  is_Some (order_items w !! oid') ∨ (∃ k, k ∈ nums ∧ oid' = order_id_of k) →
  is_Some (order_items (exec (plan_orders words config base nums) w) !! oid').
Proof.
  revert w. induction nums as [|k rest IH]; intros w H.
  - destruct H as [H | (k & Hk & _)]; [done | by apply elem_of_nil in Hk].
  - rewrite plan_orders_exec_cons. apply IH.
    destruct H as [H | (k' & Hk & ->)].
    + left. apply plan_order_keeps_entries. by left.
    + apply elem_of_cons in Hk as [-> | Hk].
      * left. apply plan_order_keeps_entries. by right.
      * right. by exists k'.
Qed.

(** ** The producer: properties of a run *)

(** X15: the messages that [run_simulation] produces are, in order,
    the [main] sequences of orders 0, 1, ... followed by the [late]
    sequences of all orders: a prefix of that schedule in every case
    (nothing is produced after a send has raised), all of it when the
    run returns, and the run returns when no send raises.  So no late
    arrival is produced before the [main] events of every order. *)
Theorem run_simulation_schedule {zone : LocalTime} words config accepts now s :
  let plans := run (plan_orders words config (now - 7200000000)
                      (seq 0 (num_orders config))) (sim_world s) in
  let res := run_simulation words config accepts now s in
  sent s `prefix_of` sent res.2 ∧
  produced_since s res.2 `prefix_of` schedule plans ∧
  (res.1 = Returned tt → produced_since s res.2 = schedule plans) ∧
  ((∀ l e, accepts l e = true) → res.1 = Returned tt).
Proof.
  intros plans res. subst res.
  destruct (run_simulation_spec words config accepts now s)
    as (out & log & w' & -> & Hpre & Hret & Hall).
  fold plans in Hpre, Hret. cbn [fst snd]. rewrite produced_since_app.
  split; [by apply prefix_app_r|]. split; [done|]. split; [|done].
  intros Hout. by destruct (Hret Hout).
Qed.

Lemma run_simulation_schedule_witness :
  let plans := run (plan_orders (zone := utc) sample_words two_orders (10000000000 - 7200000000)
                      (seq 0 (num_orders two_orders))) (sim_world fresh_sim) in
  let res := run_simulation (zone := utc) sample_words two_orders accept_all 10000000000
               fresh_sim in
  res.1 = Returned tt ∧ produced_since fresh_sim res.2 = schedule plans ∧
  length (schedule plans) = 28%nat.
Proof.
  intros plans res.
  destruct (run_simulation_schedule (zone := utc) sample_words two_orders accept_all
              10000000000 fresh_sim) as (_ & _ & Hret & Hall).
  assert (Hout : res.1 = Returned tt) by (apply Hall; reflexivity).
  split; [exact Hout|]. split; [exact (Hret Hout)|]. vm_compute. reflexivity.
Defined.

(** X16: every message of a run is keyed by the [order_id] of its
    event, and that id is the id of one of the orders of the run. *)
Theorem run_simulation_keys {zone : LocalTime} words config accepts now s :
  let res := run_simulation words config accepts now s in
  Forall (fun m : Message =>
            m.1 = order_id m.2 ∧
            ∃ k, (k < num_orders config)%nat ∧ m.1 = order_id_of k)
         (produced_since s res.2).
Proof.
  intros res. subst res.
  destruct (run_simulation_spec words config accepts now s)
    as (out & log & w' & -> & Hpre & _).
  cbn [snd]. rewrite produced_since_app.
  apply Forall_forall. intros m Hm.
  apply (elem_of_prefix _ _ _ Hm) in Hpre.
  apply schedule_elem in Hpre as (k & p & Hk & Hplan & Hmsg & He).
  destruct (order_plan_events words config _ k p m.2 Hplan He) as [Hoid _].
  apply elem_of_seq in Hk.
  split; [by rewrite Hmsg at 1|]. exists k. split; [lia|].
  by rewrite Hmsg at 1.
Qed.

(** X17: with at most 24 orders, as with the 20 of the configuration,
    and where the time zone keeps its offset around the start of the
    run, every event of a run is dated before the start of the run:
    the orders start two hours back, five minutes apart, and last at
    most 210 seconds. *)
Theorem run_simulation_in_the_past {zone : LocalTime} words config accepts
    now s off :
  (num_orders config <= 24)%nat → steady off now →
  let res := run_simulation words config accepts now s in
  Forall (fun m : Message => event_ts m.2 < timestamp_millis now)
         (produced_since s res.2).
Proof.
  intros Hn Hsteady res. subst res.
  destruct (run_simulation_spec words config accepts now s)
    as (out & log & w' & -> & Hpre & _).
  cbn [snd]. rewrite produced_since_app.
  apply Forall_forall. intros m Hm.
  apply (elem_of_prefix _ _ _ Hm) in Hpre.
  apply schedule_elem in Hpre as (k & p & Hk & Hplan & _ & He).
  destruct (order_plan_events words config _ k p m.2 Hplan He)
    as [_ (t & Hok & Ht)].
  apply elem_of_seq in Hk. unfold timedelta_minutes in Ht.
  assert (Hm2 := event_time_steady off now m.2 t Hsteady Hok ltac:(lia)).
  assert (Hnow := timestamp_millis_steady off now now Hsteady ltac:(lia)).
  lia.
Qed.

Lemma run_simulation_in_the_past_witness :
  Forall (fun m : Message =>
            event_ts m.2 < timestamp_millis (zone := utc) 1772938798000000)
         (produced_since fresh_sim
            (run_simulation (zone := utc) sample_words SIMULATION_CONFIG
               accept_all 1772938798000000 fresh_sim).2).
Proof.
  apply (run_simulation_in_the_past (zone := utc) sample_words
           SIMULATION_CONFIG accept_all 1772938798000000 fresh_sim 0).
  - vm_compute. lia.
  - apply utc_steady. vm_compute. split; [discriminate | reflexivity].
Defined.

(** X18: when a run returns, the generator holds in [order_items] a
    ledger for every order of the run (and every ledger it held
    before): nothing is released between orders. *)
Theorem run_simulation_keeps_ledgers {zone : LocalTime} words config accepts now s :
  let res := run_simulation words config accepts now s in
  res.1 = Returned tt →
  (∀ k, (k < num_orders config)%nat →
        is_Some (order_items (sim_world res.2) !! order_id_of k)) ∧
  (∀ oid, is_Some (order_items (sim_world s) !! oid) →
          is_Some (order_items (sim_world res.2) !! oid)).
Proof.
  intros res. subst res.
  destruct (run_simulation_spec words config accepts now s)
    as (out & log & w' & -> & _ & Hret & _).
  cbn [fst snd sim_world]. intros Hout. destruct (Hret Hout) as [_ ->].
  split.
  - intros k Hk. apply plan_orders_keeps_entries. right. exists k.
    split; [|done]. apply elem_of_seq. lia.
  - intros oid Hsome. apply plan_orders_keeps_entries. by left.
Qed.

Lemma run_simulation_keeps_ledgers_witness :
  let res := run_simulation (zone := utc) sample_words two_orders accept_all 10000000000
               fresh_sim in
  is_Some (order_items (sim_world res.2) !! order_id_of 0) ∧
  is_Some (order_items (sim_world res.2) !! order_id_of 1).
Proof.
  intros res.
  destruct (run_simulation_keeps_ledgers (zone := utc) sample_words two_orders accept_all
              10000000000 fresh_sim) as [Hall _]; [vm_compute; reflexivity|].
  split; apply Hall; vm_compute; lia.
Defined.

(** ** The schema validator *)

Lemma res_bind_Ok {A B : Type} (m : Res A) (f : A -> Res B) (b : B) :
  res_bind m f = Ok b ↔ ∃ a, m = Ok a ∧ f a = Ok b.
Proof.
  destruct m as [a|e]; cbn; split.
  - intros H. by exists a.
  - intros (a' & Ha & H). by injection Ha as ->.
  - discriminate.
  - intros (a' & Ha & _). discriminate.
Qed.

Lemma has_name_getitem (field_name : string) (f : Json) :
  has_name field_name f ↔
  ∃ name, py_getitem f "name" = Ok name ∧ eq_str name field_name = true.
Proof.
  split.
  - intros (d & -> & Hd). exists (JStr field_name). cbn. rewrite Hd.
    split; [done|]. by apply bool_decide_eq_true.
  - intros (name & Hg & He). destruct f as [| | | |?|d]; try discriminate.
    cbn in Hg. destruct (assoc "name" d) as [v|] eqn:Ha; [|discriminate].
    injection Hg as ->. destruct name as [| | |s| |]; try discriminate.
    cbn in He. apply bool_decide_eq_true in He as ->. by exists d.
Qed.

Lemma other_name_getitem (field_name : string) (g : Json) :
  named_field g ∧ ¬ has_name field_name g ↔
  ∃ name, py_getitem g "name" = Ok name ∧ eq_str name field_name = false.
Proof.
  split.
  - intros [(d & name & -> & Hd) Hn]. exists name. cbn. rewrite Hd.
    split; [done|]. destruct (eq_str name field_name) eqn:He; [|done].
    destruct Hn. apply has_name_getitem. exists name. cbn. by rewrite Hd.
  - intros (name & Hg & He). destruct g as [| | | |?|d]; try discriminate.
    cbn in Hg. destruct (assoc "name" d) as [v|] eqn:Ha; [|discriminate].
    injection Hg as ->. split; [by exists d, name|].
    intros (d' & Hd' & Ha'). injection Hd' as <-.
    rewrite Ha in Ha'. injection Ha' as ->. cbn in He.
    by apply bool_decide_eq_false in He.
Qed.

Lemma field_type_getitem (f ty : Json) :
  field_type_is f ty ↔ py_getitem f "type" = Ok ty.
Proof.
  split.
  - intros (d & -> & Hd). cbn. by rewrite Hd.
  - intros Hg. destruct f as [| | | |?|d]; try discriminate.
    cbn in Hg. destruct (assoc "type" d) as [v|] eqn:Ha; [|discriminate].
    injection Hg as ->. by exists d.
Qed.

(** The generator expression under [next] stops at the first field
    with the name. *)
Lemma find_field_first (fields : list Json) (field_name : string) (f : Json) :
  find_field fields field_name = Ok (Some f) ↔ first_named fields field_name f.
Proof.
  split.
  - induction fields as [|g rest IH]; [discriminate|].
    cbn [find_field]. intros H. apply res_bind_Ok in H as (name & Hg & H).
    destruct (eq_str name field_name) eqn:He.
    + injection H as ->. exists [], rest. repeat split; [|constructor].
      apply has_name_getitem. by exists name.
    + destruct (IH H) as (before & after & -> & Hf & Hb).
      exists (g :: before), after. repeat split; [done|].
      constructor; [|done]. apply other_name_getitem. by exists name.
  - intros (before & after & -> & Hf & Hb).
    induction Hb as [|g before Hg Hb IH]; cbn [app find_field].
    + apply has_name_getitem in Hf as (name & -> & He). cbn. by rewrite He.
    + apply other_name_getitem in Hg as (name & -> & He). cbn. by rewrite He.
Qed.

Lemma find_field_none (fields : list Json) (field_name : string) :
  find_field fields field_name = Ok None ↔
  Forall (fun g => named_field g ∧ ¬ has_name field_name g) fields.
Proof.
  induction fields as [|g rest IH]; cbn [find_field].
  - split; [constructor|done].
  - split.
    + intros H. apply res_bind_Ok in H as (name & Hg & H).
      destruct (eq_str name field_name) eqn:He; [discriminate|].
      constructor; [|by apply IH]. apply other_name_getitem. by exists name.
    + intros H. apply Forall_cons in H as [Hg H].
      apply other_name_getitem in Hg as (name & -> & He). cbn. rewrite He.
      by apply IH.
Qed.

Lemma first_named_functional (fields : list Json) (field_name : string)
    (f f' : Json) :
  first_named fields field_name f → first_named fields field_name f' → f = f'.
Proof.
  intros H H'. apply find_field_first in H, H'. congruence.
Qed.

Lemma first_named_app (fields extra : list Json) (field_name : string)
    (f : Json) :
  first_named fields field_name f → first_named (fields ++ extra) field_name f.
Proof.
  intros (before & after & -> & Hf & Hb). exists before, (after ++ extra).
  by rewrite <- app_assoc.
Qed.

(** Without a type, the loop of [check_field] reports what the
    generator expression finds. *)
Lemma check_field_loop_find (fields : list Json) (field_name : string) :
  check_field_loop fields field_name None =
  (found <~ find_field fields field_name ;;
   Ok (match found with
       | Some _ => (true, FieldPresent field_name)
       | None => (false, FieldMissing field_name)
       end)).
Proof.
  induction fields as [|g rest IH]; cbn [check_field_loop find_field]; [done|].
  destruct (py_getitem g "name") as [name|e]; cbn [res_bind]; [|done].
  by destruct (eq_str name field_name).
Qed.

Lemma check_field_list (schema : Json) (fields : list Json)
    (field_name : string) (field_type : option string) :
  schema_fields schema fields →
  check_field schema field_name field_type =
  check_field_loop fields field_name field_type.
Proof.
  intros (d & -> & Hd). unfold check_field. cbn. by rewrite Hd.
Qed.

Lemma next_field_list (schema : Json) (fields : list Json)
    (field_name : string) :
  schema_fields schema fields →
  next_field schema field_name = find_field fields field_name.
Proof.
  intros (d & -> & Hd). unfold next_field. cbn. by rewrite Hd.
Qed.

Lemma schema_fields_functional (schema : Json) (fields fields' : list Json) :
  schema_fields schema fields → schema_fields schema fields' → fields = fields'.
Proof.
  intros (d & -> & Hd) (d' & Heq & Hd'). injection Heq as <-. congruence.
Qed.

(** A field can only be found in a list: the keys of a dict and the
    characters of a string cannot be subscripted by a name. *)
Lemma next_field_Some (schema : Json) (field_name : string) (f : Json) :
  next_field schema field_name = Ok (Some f) ↔
  ∃ fields, schema_fields schema fields ∧ first_named fields field_name f.
Proof.
  split.
  - unfold next_field. intros H.
    apply res_bind_Ok in H as (fj & Hfj & H).
    apply res_bind_Ok in H as (l & Hl & H).
    destruct schema as [| | | |?|d]; try discriminate. cbn in Hfj.
    destruct (assoc "fields" d) as [v|] eqn:Hd; [|discriminate].
    injection Hfj as ->.
    destruct fj as [| |?|s|l'|d']; try discriminate; cbn in Hl;
      injection Hl as <-.
    + destruct (list_ascii_of_string s); discriminate.
    + exists l'. split; [by exists d|]. by apply find_field_first.
    + destruct d'; discriminate.
  - intros (fields & Hs & Hf). rewrite (next_field_list _ _ _ Hs).
    by apply find_field_first.
Qed.

Lemma check_required_true (schema : Json) (fields : list Json)
    (required_fields : list string) :
  schema_fields schema fields →
  (∃ results, check_required schema required_fields = Ok results ∧
              forallb fst results = true) ↔
  Forall (fun name => ∃ f, first_named fields name f) required_fields.
Proof.
  intros Hs. induction required_fields as [|name rest IH];
    cbn [check_required].
  - split; [constructor|]. intros _. by exists [].
  - rewrite (check_field_list _ _ _ _ Hs), check_field_loop_find. split.
    + intros (results & H & Hall).
      apply res_bind_Ok in H as (result & Hr & H).
      apply res_bind_Ok in H as (results' & Hrs & H).
      injection H as <-. cbn in Hall. apply andb_true_iff in Hall as [H1 H2].
      apply res_bind_Ok in Hr as (found & Hfound & Hr). injection Hr as <-.
      constructor; [|apply IH; by exists results'].
      destruct found as [f|]; [|discriminate].
      exists f. by apply find_field_first.
    + intros H. apply Forall_cons in H as [[f Hf] H].
      apply IH in H as (results & -> & Hall).
      apply find_field_first in Hf as ->. cbn.
      eexists. split; [done|]. cbn. done.
Qed.

Lemma check_enum_true (found : option Json) :
  check_enum found = Ok true ↔
  ∃ f ty, found = Some f ∧ field_type_is f ty ∧ enum_type ty.
Proof.
  split.
  - destruct found as [f|]; [|discriminate]. cbn [check_enum]. intros H.
    apply res_bind_Ok in H as (ty & Hty & H). exists f, ty.
    split; [done|]. split; [by apply field_type_getitem|].
    destruct ty as [| | | |?|d]; try discriminate. cbn in H.
    destruct (assoc "type" d) as [t|] eqn:Ht; cbn in H; [|discriminate].
    destruct (eq_str t "enum") eqn:He; [|discriminate].
    destruct t as [| | |s| |]; try discriminate. cbn in He.
    apply bool_decide_eq_true in He as ->.
    destruct (assoc "symbols" d) as [symbols|] eqn:Hsym; cbn in H;
      [|discriminate].
    apply res_bind_Ok in H as (n & Hn & _). by exists d, symbols, n.
  - intros (f & ty & -> & Hty & d & symbols & n & -> & Ht & Hsym & Hn).
    apply field_type_getitem in Hty. cbn [check_enum]. rewrite Hty. cbn.
    rewrite Ht. cbn. rewrite Hsym. cbn. by rewrite Hn.
Qed.

Lemma check_union_true (found : option Json) :
  check_union found = Ok true ↔
  ∃ f alternatives, found = Some f ∧ field_type_is f (JArr alternatives).
Proof.
  split.
  - destruct found as [f|]; [|discriminate]. cbn [check_union]. intros H.
    apply res_bind_Ok in H as (ty & Hty & H).
    destruct ty as [| | | |alternatives|]; try discriminate.
    exists f, alternatives. split; [done|]. by apply field_type_getitem.
  - intros (f & alternatives & -> & Hty). apply field_type_getitem in Hty.
    cbn [check_union]. by rewrite Hty.
Qed.

Lemma check_array_true (found : option Json) :
  check_array found = Ok true ↔
  ∃ f ty, found = Some f ∧ field_type_is f ty ∧ array_type ty.
Proof.
  split.
  - destruct found as [f|]; [|discriminate]. cbn [check_array]. intros H.
    apply res_bind_Ok in H as (ty & Hty & H). exists f, ty.
    split; [done|]. split; [by apply field_type_getitem|].
    destruct ty as [| | | |?|d]; try discriminate. cbn in H.
    destruct (assoc "type" d) as [t|] eqn:Ht; cbn in H; [|discriminate].
    injection H as He.
    destruct t as [| | |s| |]; try discriminate. cbn in He.
    apply bool_decide_eq_true in He as ->. by exists d.
  - intros (f & ty & -> & Hty & d & -> & Ht).
    apply field_type_getitem in Hty. cbn [check_array]. rewrite Hty. cbn.
    rewrite Ht. cbn. done.
Qed.

Lemma validate_raw_event_schema_true (schema : Json) :
  validate_raw_event_schema schema = Ok true ↔ raw_schema_ok schema.
Proof.
  unfold validate_raw_event_schema, raw_schema_ok. split.
  - intros H.
    apply res_bind_Ok in H as (results & Hreq & H).
    apply res_bind_Ok in H as (etf & Hetf & H).
    apply res_bind_Ok in H as (is_enum & Henum & H).
    apply res_bind_Ok in H as (pf & Hpf & H).
    apply res_bind_Ok in H as (is_union & Hunion & H).
    injection H as H. rewrite !forallb_app in H. cbn in H.
    rewrite !andb_true_r in H.
    apply andb_true_iff in H as [H Hu]. apply andb_true_iff in H as [Hr He].
    subst is_enum is_union.
    apply check_enum_true in Henum as (f & ty & -> & Hty & Hen).
    apply check_union_true in Hunion as (p & alternatives & -> & Hpty).
    apply next_field_Some in Hetf as (fields & Hs & Hf).
    apply next_field_Some in Hpf as (fields' & Hs' & Hp).
    rewrite <- (schema_fields_functional _ _ _ Hs Hs') in Hp.
    exists fields. split; [done|]. split.
    + apply (check_required_true _ _ _ Hs). by exists results.
    + split; [by exists f, ty | by exists p, alternatives].
  - intros (fields & Hs & Hreq & (f & ty & Hf & Hty & Hen) &
            (p & alternatives & Hp & Hpty)).
    apply (check_required_true _ _ _ Hs) in Hreq as (results & -> & Hall).
    cbn [res_bind].
    assert (next_field schema "event_type" = Ok (Some f)) as ->
      by (apply next_field_Some; by exists fields).
    cbn [res_bind].
    assert (check_enum (Some f) = Ok true) as ->
      by (apply check_enum_true; by exists f, ty).
    cbn [res_bind].
    assert (next_field schema "payload" = Ok (Some p)) as ->
      by (apply next_field_Some; by exists fields).
    cbn [res_bind].
    assert (check_union (Some p) = Ok true) as ->
      by (apply check_union_true; by exists p, alternatives).
    cbn [res_bind]. rewrite !forallb_app, Hall. done.
Qed.

Lemma validate_curated_schema_true (schema : Json) :
  validate_curated_schema schema = Ok true ↔ curated_schema_ok schema.
Proof.
  unfold validate_curated_schema, curated_schema_ok. split.
  - intros H.
    apply res_bind_Ok in H as (results & Hreq & H).
    apply res_bind_Ok in H as (itf & Hitf & H).
    apply res_bind_Ok in H as (is_array & Harr & H).
    injection H as H. rewrite !forallb_app in H. cbn in H.
    rewrite !andb_true_r in H.
    apply andb_true_iff in H as [Hr Ha]. subst is_array.
    apply check_array_true in Harr as (f & ty & -> & Hty & Har).
    apply next_field_Some in Hitf as (fields & Hs & Hf).
    exists fields. split; [done|]. split.
    + apply (check_required_true _ _ _ Hs). by exists results.
    + by exists f, ty.
  - intros (fields & Hs & Hreq & (f & ty & Hf & Hty & Har)).
    apply (check_required_true _ _ _ Hs) in Hreq as (results & -> & Hall).
    cbn [res_bind].
    assert (next_field schema "items" = Ok (Some f)) as ->
      by (apply next_field_Some; by exists fields).
    cbn [res_bind].
    assert (check_array (Some f) = Ok true) as ->
      by (apply check_array_true; by exists f, ty).
    cbn [res_bind]. rewrite !forallb_app, Hall. done.
Qed.

Lemma raw_schema_ok_app (schema schema' : Json) (fields extra : list Json) :
  schema_fields schema fields → schema_fields schema' (fields ++ extra) →
  raw_schema_ok schema → raw_schema_ok schema'.
Proof.
  intros Hs Hs' (fields' & Hs'' & Hreq & (f & ty & Hf & Hty) &
                 (p & alternatives & Hp & Hpty)).
  rewrite <- (schema_fields_functional _ _ _ Hs Hs'') in *.
  exists (fields ++ extra). split; [done|]. split.
  - eapply Forall_impl; [exact Hreq|]. intros name [g Hg].
    exists g. by apply first_named_app.
  - split; [exists f, ty | exists p, alternatives];
      (split; [by apply first_named_app | done]).
Qed.

Lemma curated_schema_ok_app (schema schema' : Json)
    (fields extra : list Json) :
  schema_fields schema fields → schema_fields schema' (fields ++ extra) →
  curated_schema_ok schema → curated_schema_ok schema'.
Proof.
  intros Hs Hs' (fields' & Hs'' & Hreq & (f & ty & Hf & Hty)).
  rewrite <- (schema_fields_functional _ _ _ Hs Hs'') in *.
  exists (fields ++ extra). split; [done|]. split.
  - eapply Forall_impl; [exact Hreq|]. intros name [g Hg].
    exists g. by apply first_named_app.
  - exists f, ty. split; [by apply first_named_app | done].
Qed.

Lemma schema_valid_true (validate : Json -> Res bool) (loaded : option Json) :
  schema_valid validate loaded = true ↔
  ∃ schema, loaded = Some schema ∧ validate schema = Ok true.
Proof.
  unfold schema_valid. split.
  - destruct loaded as [schema|]; [|discriminate].
    destruct (validate schema) as [b|e] eqn:Hv; [|discriminate].
    intros ->. by exists schema.
  - intros (schema & -> & ->). done.
Qed.

Lemma check_field_loop_typed (fields : list Json) (field_name : string)
    (f ty : Json) (expected : string) :
  first_named fields field_name f → field_type_is f ty →
  expected ≠ EmptyString →
  check_field_loop fields field_name (Some expected) =
  Ok (if eq_str ty expected then (true, FieldPresent field_name)
      else (false, FieldTypeMismatch field_name ty expected)).
Proof.
  intros (before & after & -> & Hf & Hb) Hty Hne.
  destruct expected as [|c t]; [done|]. clear Hne.
  induction Hb as [|g before Hg Hb IH]; cbn [app check_field_loop].
  - apply has_name_getitem in Hf as (name & -> & He). cbn [res_bind].
    rewrite He. apply field_type_getitem in Hty as ->. cbn [res_bind].
    by destruct (eq_str ty (String c t)).
  - apply other_name_getitem in Hg as (name & -> & He). cbn [res_bind].
    by rewrite He.
Qed.

(** X19: [check_field] lets the first field with the name decide:
    with an expected type (a non-empty string) the result is success
    exactly when that field's [type] is this string, and otherwise
    the mismatch is reported with the type found, whatever fields
    of the same name follow; without an expected type the result is
    success. *)
Theorem check_field_first_match schema fields field_name f ty expected :
  schema_fields schema fields → first_named fields field_name f →
  field_type_is f ty → expected ≠ EmptyString →
  check_field schema field_name (Some expected) =
    Ok (if eq_str ty expected then (true, FieldPresent field_name)
        else (false, FieldTypeMismatch field_name ty expected)) ∧
  check_field schema field_name None = Ok (true, FieldPresent field_name).
Proof.
  intros Hs Hf Hty Hne. rewrite !(check_field_list _ _ _ _ Hs). split.
  - by apply (check_field_loop_typed _ _ f).
  - rewrite check_field_loop_find. apply find_field_first in Hf.
    by rewrite Hf.
Qed.

Lemma check_field_first_match_witness :
  check_field
    (with_fields [sample_field "event_id" (JStr "string");
                  sample_field "event_ts" (JStr "int");
                  sample_field "event_ts" (JStr "long")])
    "event_ts" (Some "long"%string) =
  Ok (false, FieldTypeMismatch "event_ts" (JStr "int") "long").
Proof.
  apply (check_field_first_match
           (with_fields [sample_field "event_id" (JStr "string");
                         sample_field "event_ts" (JStr "int");
                         sample_field "event_ts" (JStr "long")])
           [sample_field "event_id" (JStr "string");
            sample_field "event_ts" (JStr "int");
            sample_field "event_ts" (JStr "long")]
           "event_ts" (sample_field "event_ts" (JStr "int")) (JStr "int")
           "long").
  - eexists. split; reflexivity.
  - apply find_field_first. reflexivity.
  - eexists. split; reflexivity.
  - discriminate.
Defined.

(** X20: on a schema object that has a [fields] key, [check_field]
    without a type and the generator expression under [next] come to
    the same: both raise the same exception, or the check succeeds
    exactly when [next] finds a field. *)
Theorem check_field_agrees_with_next d field_name :
  is_Some (assoc "fields" d) →
  check_field (JObj d) field_name None =
  (found <~ next_field (JObj d) field_name ;; Ok (presence field_name found)).
Proof.
  intros [fj Hd]. unfold check_field, next_field. cbn [py_get py_getitem].
  rewrite Hd. cbn [default from_option res_bind]. unfold id.
  destruct (py_iter fj) as [l|e]; cbn [res_bind]; [|done].
  unfold presence. apply check_field_loop_find.
Qed.

Lemma check_field_agrees_with_next_witness :
  check_field sample_raw_schema "payload" None =
  (found <~ next_field sample_raw_schema "payload" ;;
   Ok (presence "payload" found)).
Proof.
  apply (check_field_agrees_with_next _ "payload"). vm_compute. by eexists.
Defined.

(** X21: a schema object without a [fields] key: [check_field] takes
    the field list as empty and reports the field missing, while both
    validators raise [KeyError] at [schema['fields']], which [main]
    turns into an invalid schema and exit status 1. *)
Theorem validator_missing_fields_key d :
  assoc "fields" d = None →
  (∀ field_name field_type,
     check_field (JObj d) field_name field_type =
     Ok (false, FieldMissing field_name)) ∧
  validate_raw_event_schema (JObj d) = Err KeyError ∧
  validate_curated_schema (JObj d) = Err KeyError ∧
  (∀ other, validator_main (Some (JObj d)) other = 1 ∧
            validator_main other (Some (JObj d)) = 1).
Proof.
  intros Hd.
  assert (∀ field_name field_type,
            check_field (JObj d) field_name field_type =
            Ok (false, FieldMissing field_name)) as Hcheck.
  { intros. unfold check_field. cbn. by rewrite Hd. }
  assert (∀ field_name, next_field (JObj d) field_name = Err KeyError)
    as Hnext.
  { intros. unfold next_field. cbn. by rewrite Hd. }
  assert (validate_raw_event_schema (JObj d) = Err KeyError) as Hraw.
  { unfold validate_raw_event_schema, raw_required_fields.
    cbn [check_required]. by rewrite !Hcheck, Hnext. }
  assert (validate_curated_schema (JObj d) = Err KeyError) as Hcur.
  { unfold validate_curated_schema, curated_required_fields.
    cbn [check_required]. by rewrite !Hcheck, Hnext. }
  repeat split; try done.
  - unfold validator_main. cbn [schema_valid]. by rewrite Hraw.
  - unfold validator_main. cbn [schema_valid]. rewrite Hcur.
    by rewrite andb_false_r.
Qed.

Lemma validator_missing_fields_key_witness :
  validate_raw_event_schema (JObj [("type"%string, JStr "record")]) =
  Err KeyError.
Proof.
  apply (validator_missing_fields_key [("type"%string, JStr "record")]).
  reflexivity.
Defined.

(** X22: a schema that is not an object (a list, a string, a number,
    [true], [false] or [null]) makes [check_field] and both validators
    raise [AttributeError] at [schema.get]. *)
Theorem validator_schema_not_object schema :
  is_dict schema = false →
  (∀ field_name field_type,
     check_field schema field_name field_type = Err AttributeError) ∧
  validate_raw_event_schema schema = Err AttributeError ∧
  validate_curated_schema schema = Err AttributeError.
Proof.
  intros Hd.
  assert (∀ field_name field_type,
            check_field schema field_name field_type = Err AttributeError)
    as Hcheck.
  { intros. destruct schema; try done. }
  repeat split; [done| |].
  - unfold validate_raw_event_schema, raw_required_fields.
    cbn [check_required]. by rewrite Hcheck.
  - unfold validate_curated_schema, curated_required_fields.
    cbn [check_required]. by rewrite Hcheck.
Qed.

Lemma validator_schema_not_object_witness :
  validate_curated_schema (JArr [sample_raw_schema]) = Err AttributeError.
Proof.
  apply (validator_schema_not_object (JArr [sample_raw_schema])).
  reflexivity.
Defined.

(** X23: [validate_raw_event_schema] returns [True] exactly for the
    schemas that are objects whose [fields] is a list in which each of
    the six required names has a first field, the first [event_type]
    field has a [type] that is an enum object with [symbols] that have
    a length, and the first [payload] field has a list as its
    [type]. *)
Theorem validate_raw_event_schema_correct schema :
  validate_raw_event_schema schema = Ok true ↔ raw_schema_ok schema.
Proof.
  split; intros H.
  - by apply validate_raw_event_schema_true.
  - by apply validate_raw_event_schema_true.
Qed.

(** X24: [validate_curated_schema] returns [True] exactly for the
    schemas that are objects whose [fields] is a list in which each of
    the ten required names has a first field and the first [items]
    field has a [type] that is an object with [type] ["array"]. *)
Theorem validate_curated_schema_correct schema :
  validate_curated_schema schema = Ok true ↔ curated_schema_ok schema.
Proof.
  split; intros H.
  - by apply validate_curated_schema_true.
  - by apply validate_curated_schema_true.
Qed.

(** X25: a schema that a validator accepts is still accepted after
    fields have been added at the end of its [fields] list, whatever
    the added fields are. *)
Theorem validation_survives_new_fields schema schema' fields extra :
  schema_fields schema fields → schema_fields schema' (fields ++ extra) →
  (validate_raw_event_schema schema = Ok true →
   validate_raw_event_schema schema' = Ok true) ∧
  (validate_curated_schema schema = Ok true →
   validate_curated_schema schema' = Ok true).
Proof.
  intros Hs Hs'. split; intros H.
  - apply validate_raw_event_schema_true.
    apply (raw_schema_ok_app schema schema' fields extra); try done.
    by apply validate_raw_event_schema_true.
  - apply validate_curated_schema_true.
    apply (curated_schema_ok_app schema schema' fields extra); try done.
    by apply validate_curated_schema_true.
Qed.

Lemma validation_survives_new_fields_witness :
  validate_raw_event_schema
    (with_fields (fields_of sample_raw_schema ++ [JNull; JStr "event_id"])) =
  Ok true.
Proof.
  apply (validation_survives_new_fields sample_raw_schema
           (with_fields (fields_of sample_raw_schema ++
                         [JNull; JStr "event_id"]))
           (fields_of sample_raw_schema) [JNull; JStr "event_id"]).
  - eexists. split; reflexivity.
  - eexists. split; reflexivity.
  - vm_compute. reflexivity.
Defined.

(** X26: the first [event_type] field alone decides the enum test, and
    an enum without [symbols] is an error, not a failed check: when
    the required fields are present and the [type] of that field is an
    object with [type] ["enum"] and no [symbols], the validator raises
    [KeyError], and [main] counts the schema as invalid. *)
Theorem enum_without_symbols_raises schema fields f d :
  schema_fields schema fields →
  Forall (fun name => ∃ g, first_named fields name g) raw_required_fields →
  first_named fields "event_type" f → field_type_is f (JObj d) →
  assoc "type" d = Some (JStr "enum") → assoc "symbols" d = None →
  validate_raw_event_schema schema = Err KeyError ∧
  schema_valid validate_raw_event_schema (Some schema) = false.
Proof.
  intros Hs Hreq Hf Hty Ht Hsym.
  assert (validate_raw_event_schema schema = Err KeyError) as Hraw.
  { unfold validate_raw_event_schema.
    apply (check_required_true _ _ _ Hs) in Hreq as (results & -> & _).
    cbn [res_bind]. rewrite (next_field_list _ _ _ Hs).
    apply find_field_first in Hf as ->. cbn [res_bind check_enum].
    apply field_type_getitem in Hty as ->. cbn. rewrite Ht. cbn.
    by rewrite Hsym. }
  split; [done|]. cbn [schema_valid]. by rewrite Hraw.
Qed.

Lemma enum_without_symbols_raises_witness :
  validate_raw_event_schema
    (with_fields
       (sample_field "event_type" (JObj [("type"%string, JStr "enum")])
        :: fields_of sample_raw_schema)) = Err KeyError.
Proof.
  apply (enum_without_symbols_raises
           (with_fields
              (sample_field "event_type" (JObj [("type"%string, JStr "enum")])
               :: fields_of sample_raw_schema))
           (sample_field "event_type" (JObj [("type"%string, JStr "enum")])
            :: fields_of sample_raw_schema)
           (sample_field "event_type" (JObj [("type"%string, JStr "enum")]))
           [("type"%string, JStr "enum")]).
  - eexists. split; reflexivity.
  - repeat constructor; eexists; apply find_field_first; reflexivity.
  - apply find_field_first. reflexivity.
  - eexists. split; reflexivity.
  - reflexivity.
  - reflexivity.
Defined.

(** X27: [main] exits with 0 exactly when both files were loaded and
    both schemas meet the validators' requirements (a schema that
    makes a validator raise counts as invalid), and with 1
    otherwise. *)
Theorem validator_main_exit_status raw_schema curated_schema :
  (validator_main raw_schema curated_schema = 0 ↔
   ∃ raw curated, raw_schema = Some raw ∧ curated_schema = Some curated ∧
                  raw_schema_ok raw ∧ curated_schema_ok curated) ∧
  (validator_main raw_schema curated_schema = 0 ∨
   validator_main raw_schema curated_schema = 1).
Proof.
  unfold validator_main. split.
  - split.
    + intros H.
      destruct (schema_valid validate_raw_event_schema raw_schema) eqn:Hr;
        [|discriminate].
      destruct (schema_valid validate_curated_schema curated_schema) eqn:Hc;
        [|discriminate].
      apply schema_valid_true in Hr as (raw & -> & Hr).
      apply schema_valid_true in Hc as (curated & -> & Hc).
      exists raw, curated. repeat split; try done.
      * by apply validate_raw_event_schema_true.
      * by apply validate_curated_schema_true.
    + intros (raw & curated & -> & -> & Hr & Hc).
      apply validate_raw_event_schema_true in Hr.
      apply validate_curated_schema_true in Hc.
      cbn [schema_valid]. by rewrite Hr, Hc.
  - destruct (schema_valid validate_raw_event_schema raw_schema),
      (schema_valid validate_curated_schema curated_schema); cbn; auto.
Qed.
